(** * mdb-debugger: the ELF reader and the MDB runtime driver

    A shallow embedding of [src/utils/elf.ts] (the ELF reader) and of the
    [MDBRuntime] class of [src/runtime.ts] in its latest version (command
    queue, waits on the subprocess's output, breakpoint registry,
    stop-event parser, stack, start), with [src/utils/hex.ts] and the
    breakpoint request of [src/session.ts], followed by the properties the
    specification states about them and by further properties of the same
    code.  The definitions come first, each under the name of the function
    it embeds; the lemmas and theorems follow, grouped by component.

    Conventions.
    - JavaScript numbers that hold integers are [Z]; every integer the
      modelled code computes stays far below 2^53, where doubles are exact.
    - An [ArrayBuffer] is a [list byte]; a [DataView] read outside the buffer
      throws [RangeError], as the platform does.
    - A JavaScript computation ends in a [completion]: a value, a thrown
      error, or [NoFuel] when the loop budget of the model is used up (the
      only way the model has of saying that a loop is still running). *)

From Stdlib Require Import ZArith Lia Ascii String List Bool.
From Stdlib Require Strings.Byte.
From stdpp Require Import gmap strings list pretty.

Local Open Scope Z_scope.

(** ** Completions of JavaScript code *)

Inductive JSError := RangeError | TypeError.

Inductive completion (A : Type) : Type :=
| Normal (a : A)
| Throws (e : JSError)
| NoFuel.
Arguments Normal {A} a.
Arguments Throws {A} e.
Arguments NoFuel {A}.

#[global] Instance completion_bind : MBind completion := fun A B k c =>
  match c with
  | Normal a => k a
  | Throws e => Throws e
  | NoFuel => NoFuel
  end.

(** ** ELFFileAccess and DataView *)

Definition ArrayBuffer := list Byte.byte.

Definition byteLength (buf : ArrayBuffer) : Z := Z.of_nat (length buf).

Definition byte_val (b : Byte.byte) : Z := Z.of_N (Byte.to_N b).

(** Big-endian value of a run of bytes. *)
Definition be_value (bs : list Byte.byte) : Z :=
  fold_left (fun acc b => acc * 256 + byte_val b) bs 0.

(** [DataView.getUint8/16/32]: [n] bytes at [off], [RangeError] when the
    read does not fit in the view. *)
Definition getUint (n : nat) (buf : ArrayBuffer) (off : Z) (littleEndian : bool)
  : completion Z :=
  if (0 <=? off) && (off + Z.of_nat n <=? byteLength buf) then
    let bs := take n (drop (Z.to_nat off) buf) in
    Normal (be_value (if littleEndian then rev bs else bs))
  else Throws RangeError.

Definition getUint8 buf off := getUint 1 buf off false.
Definition getUint16 := getUint 2.
Definition getUint32 := getUint 4.

(** [ELFFileAccess.ReadByteString]: the bytes from [strStartOffset] up to the
    first NUL, the end of the buffer or [strMaxLength] bytes. *)
Fixpoint until_nul (bs : list Byte.byte) : list Byte.byte :=
  match bs with
  | [] => []
  | b :: bs' => if (byte_val b =? 0) then [] else b :: until_nul bs'
  end.

Definition ReadByteString (buf : ArrayBuffer) (strStartOffset strMaxLength : Z) : string :=
  string_of_list_byte
    (until_nul (take (Z.to_nat strMaxLength) (drop (Z.to_nat strStartOffset) buf))).

(** ** ELFElement *)

Record ELFElement := mkElement {
  offset : Z;
  value : Z;
  value2 : option Z;          (* undefined unless the element has 8 bytes *)
  valueSizeInBytes : Z
}.

(** The constructor of [ELFElement]. *)
Definition ELFElement_new (buf : ArrayBuffer) (le : bool) (off size : Z)
  : completion ELFElement :=
  if size =? 1 then
    v ← getUint8 buf off; Normal (mkElement off v None size)
  else if size =? 2 then
    v ← getUint16 buf off le; Normal (mkElement off v None size)
  else if size =? 4 then
    v ← getUint32 buf off le; Normal (mkElement off v None size)
  else if size =? 8 then
    v ← getUint32 buf off le;
    v2 ← getUint32 buf (off + 4) le;
    Normal (mkElement off v (Some v2) size)
  else Normal (mkElement off 0 None size).

(** [value2] of an element that has none is [undefined]; arithmetic on it is
    outside what the reader does with 4-byte elements. *)
Definition Get32BitValue (le : bool) (e : ELFElement) : Z :=
  if valueSizeInBytes e <=? 4 then value e
  else if le then value e else default 0 (value2 e).

(** [x == 0] on a field that may be [undefined]: [undefined == 0] is false. *)
Definition loose_eq_zero (v : option Z) : bool :=
  match v with Some z => z =? 0 | None => false end.

(** ** ELFFileLoadResult *)

Inductive ELFFileLoadResult := OK | INVALID_ELF.

Definition result_is_ok (r : ELFFileLoadResult) : bool :=
  match r with OK => true | INVALID_ELF => false end.

(** ** ELFHeader *)

Record ELFHeader := mkHeader {
  littleEndian : bool;        (* what [load] leaves in the shared ELFFileAccess *)
  E_ident_mag : ELFElement;
  E_ident_class : ELFElement;
  E_ident_data : ELFElement;
  E_ident_version : ELFElement;
  E_ident_OsAbi : ELFElement;
  E_ident_OsAbiVer : ELFElement;
  E_type : ELFElement;
  E_machine : ELFElement;
  E_version : ELFElement;
  E_Entry : ELFElement;
  E_PhOff : ELFElement;
  E_ShOff : ELFElement;
  E_Flags : ELFElement;
  E_Ehsize : ELFElement;
  E_Phentsize : ELFElement;
  E_Phnum : ELFElement;
  E_Shentsize : ELFElement;
  E_Shnum : ELFElement;
  E_Shstrndx : ELFElement
}.

Definition class_is_ELF64 (cls : ELFElement) : bool := value cls =? 2.

Definition isELF64 (h : ELFHeader) : bool := class_is_ELF64 (E_ident_class h).

(** [ELFHeader.load].  The access object is big-endian until [E_ident_data]
    has been read; [None] stands for the early [return INVALID_ELF], which
    leaves no header behind. *)
Definition ELFHeader_load (buf : ArrayBuffer) : completion (option ELFHeader) :=
  if byteLength buf <? 52 then Normal None else
  let curOff := 0 in
  mag ← ELFElement_new buf false curOff 4;
  let curOff := curOff + 4 in
  cls ← ELFElement_new buf false curOff 1;
  let curOff := curOff + 1 in
  dat ← ELFElement_new buf false curOff 1;
  let le := value dat =? 1 in
  let curOff := curOff + 1 in
  ver ← ELFElement_new buf le curOff 1;
  let curOff := curOff + 1 in
  abi ← ELFElement_new buf le curOff 1;
  let curOff := curOff + 1 in
  abiver ← ELFElement_new buf le curOff 1;
  let curOff := 16 in
  typ ← ELFElement_new buf le curOff 2;
  let curOff := curOff + 2 in
  mach ← ELFElement_new buf le curOff 2;
  let curOff := curOff + 2 in
  vers ← ELFElement_new buf le curOff 4;
  let curOff := curOff + 4 in
  let w := if class_is_ELF64 cls then 8 else 4 in
  entry ← ELFElement_new buf le curOff w;
  let curOff := curOff + w in
  phoff ← ELFElement_new buf le curOff w;
  let curOff := curOff + w in
  shoff ← ELFElement_new buf le curOff w;
  let curOff := curOff + w in
  flags ← ELFElement_new buf le curOff 4;
  let curOff := curOff + 4 in
  ehsize ← ELFElement_new buf le curOff 2;
  let curOff := curOff + 2 in
  phentsize ← ELFElement_new buf le curOff 2;
  let curOff := curOff + 2 in
  phnum ← ELFElement_new buf le curOff 2;
  let curOff := curOff + 2 in
  shentsize ← ELFElement_new buf le curOff 2;
  let curOff := curOff + 2 in
  shnum ← ELFElement_new buf le curOff 2;
  let curOff := curOff + 2 in
  shstrndx ← ELFElement_new buf le curOff 2;
  Normal (Some (mkHeader le mag cls dat ver abi abiver typ mach vers entry phoff
                         shoff flags ehsize phentsize phnum shentsize shnum shstrndx)).

(** ** ELFProgramHeaderTable *)

Record ELFProgramHeaderTable := mkProgramHeader {
  ph_headerIndex : Z;
  P_Type : ELFElement;
  P_Flags : ELFElement;
  P_Offset : ELFElement;
  P_VAddr : ELFElement;
  P_PAddr : ELFElement;
  P_FileSz : ELFElement;
  P_MemSz : ELFElement;
  P_Align : ELFElement
}.

(** [ELFProgramHeaderTable.load]: the field order depends on the class. *)
Definition ELFProgramHeaderTable_load (buf : ArrayBuffer) (h : ELFHeader)
    (headerIndex startAddress : Z) : completion ELFProgramHeaderTable :=
  let le := littleEndian h in
  let curOff := startAddress in
  let elemSize := if isELF64 h then 8 else 4 in
  if isELF64 h then
    ptype ← ELFElement_new buf le curOff 4;
    let curOff := curOff + 4 in
    pflags ← ELFElement_new buf le curOff 4;
    let curOff := curOff + 4 in
    poffset ← ELFElement_new buf le curOff elemSize;
    let curOff := curOff + elemSize in
    pvaddr ← ELFElement_new buf le curOff elemSize;
    let curOff := curOff + elemSize in
    ppaddr ← ELFElement_new buf le curOff elemSize;
    let curOff := curOff + elemSize in
    pfilesz ← ELFElement_new buf le curOff elemSize;
    let curOff := curOff + elemSize in
    pmemsz ← ELFElement_new buf le curOff elemSize;
    let curOff := curOff + elemSize in
    palign ← ELFElement_new buf le curOff elemSize;
    Normal (mkProgramHeader headerIndex ptype pflags poffset pvaddr ppaddr pfilesz pmemsz palign)
  else
    ptype ← ELFElement_new buf le curOff 4;
    let curOff := curOff + 4 in
    poffset ← ELFElement_new buf le curOff elemSize;
    let curOff := curOff + elemSize in
    pvaddr ← ELFElement_new buf le curOff elemSize;
    let curOff := curOff + elemSize in
    ppaddr ← ELFElement_new buf le curOff elemSize;
    let curOff := curOff + elemSize in
    pfilesz ← ELFElement_new buf le curOff elemSize;
    let curOff := curOff + elemSize in
    pmemsz ← ELFElement_new buf le curOff elemSize;
    let curOff := curOff + elemSize in
    pflags ← ELFElement_new buf le curOff 4;
    let curOff := curOff + 4 in
    palign ← ELFElement_new buf le curOff elemSize;
    Normal (mkProgramHeader headerIndex ptype pflags poffset pvaddr ppaddr pfilesz pmemsz palign).

(** ** ELFSectionHeaderTable *)

Record ELFSectionHeaderTable := mkSectionHeader {
  sh_headerIndex : Z;
  Sh_Name : ELFElement;
  Sh_Type : ELFElement;
  Sh_Flags : ELFElement;
  Sh_Addr : ELFElement;
  Sh_Offset : ELFElement;
  Sh_Size : ELFElement;
  Sh_Link : ELFElement;
  Sh_Info : ELFElement;
  Sh_Addralign : ELFElement;
  Sh_Entsize : ELFElement
}.

Definition SHT_SYMTAB : Z := 2.
Definition SHT_NOTE : Z := 7.
Definition SHT_DYNSYM : Z := 11.

(** [ELFSectionHeaderTable.load]. *)
Definition ELFSectionHeaderTable_load (buf : ArrayBuffer) (h : ELFHeader)
    (headerIndex startAddress : Z) : completion ELFSectionHeaderTable :=
  let le := littleEndian h in
  let curOff := startAddress in
  let elemSize := if isELF64 h then 8 else 4 in
  name ← ELFElement_new buf le curOff 4;
  let curOff := curOff + 4 in
  type ← ELFElement_new buf le curOff 4;
  let curOff := curOff + 4 in
  flags ← ELFElement_new buf le curOff elemSize;
  let curOff := curOff + elemSize in
  addr ← ELFElement_new buf le curOff elemSize;
  let curOff := curOff + elemSize in
  off ← ELFElement_new buf le curOff elemSize;
  let curOff := curOff + elemSize in
  size ← ELFElement_new buf le curOff elemSize;
  let curOff := curOff + elemSize in
  link ← ELFElement_new buf le curOff 4;
  let curOff := curOff + 4 in
  info ← ELFElement_new buf le curOff 4;
  let curOff := curOff + 4 in
  addralign ← ELFElement_new buf le curOff elemSize;
  let curOff := curOff + elemSize in
  entsize ← ELFElement_new buf le curOff elemSize;
  Normal (mkSectionHeader headerIndex name type flags addr off size link info addralign entsize).

(** ** ELFSymbolTableEntry and ELFSymbolTable *)

Record ELFSymbolTableEntry := mkSymbolEntry {
  st_index : Z;
  St_name : ELFElement;
  St_info : ELFElement;
  St_other : ELFElement;
  St_shndx : ELFElement;
  St_value : ELFElement;
  St_size : ELFElement
}.

(** [ELFSymbolTableEntry.load]. *)
Definition ELFSymbolTableEntry_load (buf : ArrayBuffer) (h : ELFHeader)
    (index startAddress : Z) : completion ELFSymbolTableEntry :=
  let le := littleEndian h in
  let curOff := startAddress in
  if isELF64 h then
    name ← ELFElement_new buf le curOff 4;
    let curOff := curOff + 4 in
    info ← ELFElement_new buf le curOff 1;
    let curOff := curOff + 1 in
    other ← ELFElement_new buf le curOff 1;
    let curOff := curOff + 1 in
    shndx ← ELFElement_new buf le curOff 2;
    let curOff := curOff + 2 in
    val ← ELFElement_new buf le curOff 8;
    let curOff := curOff + 8 in
    size ← ELFElement_new buf le curOff 8;
    Normal (mkSymbolEntry index name info other shndx val size)
  else
    name ← ELFElement_new buf le curOff 4;
    let curOff := curOff + 4 in
    val ← ELFElement_new buf le curOff 4;
    let curOff := curOff + 4 in
    size ← ELFElement_new buf le curOff 4;
    let curOff := curOff + 4 in
    info ← ELFElement_new buf le curOff 1;
    let curOff := curOff + 1 in
    other ← ELFElement_new buf le curOff 1;
    let curOff := curOff + 1 in
    shndx ← ELFElement_new buf le curOff 2;
    Normal (mkSymbolEntry index name info other shndx val size).

(** The JavaScript quotient [a / b] of two unsigned 32-bit values, as far as
    the loop test [i < a / b] with an integer [i] can tell: [0 / 0] is NaN,
    [a / 0] is Infinity for [a > 0], and otherwise the double nearest to the
    ratio, which lies on the same side of every integer as the ratio itself
    (for [a, b < 2^32] the ratio is an integer or at least [1 / b] away
    from one, far more than the rounding error). *)
Inductive JSQuotient := QNaN | QInfinity | QRatio (num den : Z).

Definition js_div (a b : Z) : JSQuotient :=
  if b =? 0 then (if a =? 0 then QNaN else QInfinity) else QRatio a b.

(** [i < q]: comparisons with NaN are false. *)
Definition lt_quotient (i : Z) (q : JSQuotient) : bool :=
  match q with
  | QNaN => false
  | QInfinity => true
  | QRatio a b => i * b <? a
  end.

Record ELFSymbolTable := mkSymbolTable {
  sectionTable : ELFSectionHeaderTable;
  symTabEntries : list ELFSymbolTableEntry
}.

(** The [for] loop of [ELFSymbolTable.load], one unit of fuel per iteration.
    [i] is the exact count of iterations; the double of the source stops
    growing at 2^53, which changes nothing to the test or to the offset
    read when the loop has no end. *)
Fixpoint symTab_loop (fuel : nat) (buf : ArrayBuffer) (h : ELFHeader)
    (sec : ELFSectionHeaderTable) (numOfEntrys : JSQuotient) (i : Z)
    (entries : list ELFSymbolTableEntry) : completion (list ELFSymbolTableEntry) :=
  if lt_quotient i numOfEntrys then
    match fuel with
    | O => NoFuel
    | S fuel' =>
        let le := littleEndian h in
        symEntry ← ELFSymbolTableEntry_load buf h i
          (Get32BitValue le (Sh_Offset sec) + i * Get32BitValue le (Sh_Entsize sec));
        symTab_loop fuel' buf h sec numOfEntrys (i + 1) (entries ++ [symEntry])
    end
  else Normal entries.

(** [ELFSymbolTable.load]. *)
Definition ELFSymbolTable_load (fuel : nat) (buf : ArrayBuffer) (h : ELFHeader)
    (sec : ELFSectionHeaderTable) : completion ELFSymbolTable :=
  let le := littleEndian h in
  let numOfEntrys :=
    js_div (Get32BitValue le (Sh_Size sec)) (Get32BitValue le (Sh_Entsize sec)) in
  entries ← symTab_loop fuel buf h sec numOfEntrys 0 [];
  Normal (mkSymbolTable sec entries).

(** ** ELFNoteTable *)

Record ELFNoteTableEntry := mkNoteEntry {
  NameElement : ELFElement;
  noteName : string;
  NoteType : ELFElement;
  DescElement : ELFElement;
  noteDesc : list Z
}.

Record ELFNoteTable := mkNoteTable {
  note_sectionTable : ELFSectionHeaderTable;
  noteTabEntries : list ELFNoteTableEntry
}.

(** The padding loops [while ((v & 0x03) != 0) { curOff++; v++; }]: the
    number of steps up to the next multiple of four. *)
Definition padding4 (v : Z) : Z := (- v) mod 4.

(** The [for] loop over the description bytes.  It yields the bytes read,
    the offset reached and whether the loop set [result = INVALID_ELF]
    before its [break]. *)
Fixpoint desc_loop (fuel : nat) (buf : ArrayBuffer) (descsz i curOff : Z)
    (noteDesc : list Z) : completion (list Z * Z * bool) :=
  if i <? descsz then
    match fuel with
    | O => NoFuel
    | S fuel' =>
        if byteLength buf <? curOff then Normal (noteDesc, curOff, true)
        else
          b ← getUint8 buf curOff;
          desc_loop fuel' buf descsz (i + 1) (curOff + 1) (noteDesc ++ [b])
    end
  else Normal (noteDesc, curOff, false).

(** The [while] loop of [ELFNoteTable.load], threading [curOff], [result]
    and the entries pushed so far. *)
Fixpoint note_loop (fuel : nat) (buf : ArrayBuffer) (le : bool)
    (sec : ELFSectionHeaderTable) (curOff : Z) (result : ELFFileLoadResult)
    (entries : list ELFNoteTableEntry)
  : completion (ELFFileLoadResult * list ELFNoteTableEntry) :=
  if curOff + 24 <=? Get32BitValue le (Sh_Offset sec) + Get32BitValue le (Sh_Size sec) then
    match fuel with
    | O => NoFuel
    | S fuel' =>
        namesz ← ELFElement_new buf le curOff 4;
        let curOff := curOff + 4 in
        descsz ← ELFElement_new buf le curOff 4;
        let curOff := curOff + 4 in
        type ← ELFElement_new buf le curOff 4;
        let curOff := curOff + 4 in
        let n := Get32BitValue le namesz in
        if (0 <? n) && (byteLength buf <? curOff + n) then
          Normal (INVALID_ELF, entries)
        else
          let name := if 0 <? n then ReadByteString buf curOff n else EmptyString in
          let curOff := if 0 <? n then curOff + n + padding4 n else curOff in
          let d := Get32BitValue le descsz in
          '(desc, curOff, invalid) ←
             (if 0 <? d then
                '(desc, off, invalid) ← desc_loop fuel' buf d 0 curOff [];
                Normal (desc, off + padding4 d, invalid)
              else Normal ([], curOff, false));
          note_loop fuel' buf le sec curOff
            (if invalid : bool then INVALID_ELF else result)
            (entries ++ [mkNoteEntry namesz name type descsz desc])
    end
  else Normal (result, entries).

(** [ELFNoteTable.load]. *)
Definition ELFNoteTable_load (fuel : nat) (buf : ArrayBuffer) (h : ELFHeader)
    (sec : ELFSectionHeaderTable) : completion (ELFFileLoadResult * ELFNoteTable) :=
  let le := littleEndian h in
  '(result, entries) ← note_loop fuel buf le sec (Get32BitValue le (Sh_Offset sec)) OK [];
  Normal (result, mkNoteTable sec entries).

(** ** ELFFile *)

Record ELFFile := mkELFFile {
  elfHeader : option ELFHeader;
  elfProgramHeaderTables : list ELFProgramHeaderTable;
  elfSectionHeaderTables : list ELFSectionHeaderTable;
  elfSymbolTables : list ELFSymbolTable;
  elfNoteTables : list ELFNoteTable
}.

(** A counted [for (headerIndex = start; ...; headerIndex++)] loop that
    pushes what [f headerIndex] builds. *)
Fixpoint load_each {A} (f : Z -> completion A) (count : nat) (headerIndex : Z)
  : completion (list A) :=
  match count with
  | O => Normal []
  | S count' =>
      x ← f headerIndex;
      xs ← load_each f count' (headerIndex + 1);
      Normal (x :: xs)
  end.

(** The guard shared by [loadProgramHeaderTables] and
    [loadSectionHeaderTables]: a zero table offset, or a table that runs
    past the end of the buffer. *)
Definition table_out_of_bounds (buf : ArrayBuffer) (le : bool)
    (tableOff entCount entSize : ELFElement) : bool :=
  ((value tableOff =? 0) && loose_eq_zero (value2 tableOff))
  || (byteLength buf <?
        Get32BitValue le tableOff + Get32BitValue le entCount * Get32BitValue le entSize).

(** [ELFFile.loadProgramHeaderTables]. *)
Definition loadProgramHeaderTables (buf : ArrayBuffer) (h : ELFHeader)
  : completion (ELFFileLoadResult * list ELFProgramHeaderTable) :=
  let le := littleEndian h in
  if table_out_of_bounds buf le (E_PhOff h) (E_Phnum h) (E_Phentsize h) then
    Normal (INVALID_ELF, [])
  else
    tables ← load_each
      (fun headerIndex =>
         ELFProgramHeaderTable_load buf h headerIndex
           (Get32BitValue le (E_PhOff h) + headerIndex * Get32BitValue le (E_Phentsize h)))
      (Z.to_nat (Get32BitValue le (E_Phnum h))) 0;
    Normal (OK, tables).

(** [ELFFile.loadSectionHeaderTables]. *)
Definition loadSectionHeaderTables (buf : ArrayBuffer) (h : ELFHeader)
  : completion (ELFFileLoadResult * list ELFSectionHeaderTable) :=
  let le := littleEndian h in
  if table_out_of_bounds buf le (E_ShOff h) (E_Shnum h) (E_Shentsize h) then
    Normal (INVALID_ELF, [])
  else
    tables ← load_each
      (fun headerIndex =>
         ELFSectionHeaderTable_load buf h headerIndex
           (Get32BitValue le (E_ShOff h) + headerIndex * Get32BitValue le (E_Shentsize h)))
      (Z.to_nat (Get32BitValue le (E_Shnum h))) 0;
    Normal (OK, tables).

Definition is_symbol_section (le : bool) (sec : ELFSectionHeaderTable) : bool :=
  (Get32BitValue le (Sh_Type sec) =? SHT_SYMTAB)
  || (Get32BitValue le (Sh_Type sec) =? SHT_DYNSYM).

(** [ELFFile.loadSymbolTables]: one table per symbol section, in section
    order; the only result it can return is [OK].  (After a successful
    [loadSectionHeaderTables] the section array has exactly [E_Shnum]
    elements, so the loop over [secIdx] is a loop over the array.) *)
Fixpoint loadSymbolTables (fuel : nat) (buf : ArrayBuffer) (h : ELFHeader)
    (sections : list ELFSectionHeaderTable)
  : completion (ELFFileLoadResult * list ELFSymbolTable) :=
  match sections with
  | [] => Normal (OK, [])
  | sec :: rest =>
      if is_symbol_section (littleEndian h) sec then
        symTab ← ELFSymbolTable_load fuel buf h sec;
        '(result, tabs) ← loadSymbolTables fuel buf h rest;
        Normal (result, symTab :: tabs)
      else loadSymbolTables fuel buf h rest
  end.

(** [ELFFile.loadNoteTables]: stops at the first note section that does not
    load. *)
Fixpoint loadNoteTables (fuel : nat) (buf : ArrayBuffer) (h : ELFHeader)
    (sections : list ELFSectionHeaderTable)
  : completion (ELFFileLoadResult * list ELFNoteTable) :=
  match sections with
  | [] => Normal (OK, [])
  | sec :: rest =>
      if Get32BitValue (littleEndian h) (Sh_Type sec) =? SHT_NOTE then
        '(result, noteTab) ← ELFNoteTable_load fuel buf h sec;
        if result_is_ok result then
          '(result', tabs) ← loadNoteTables fuel buf h rest;
          Normal (result', noteTab :: tabs)
        else Normal (result, [])
      else loadNoteTables fuel buf h rest
  end.

(** [ELFFile.load]: each stage runs only if the one before returned [OK].
    The value is the returned [ELFFileLoadResult] together with the fields
    the object has at that point. *)
Definition ELFFile_load (fuel : nat) (buf : ArrayBuffer)
  : completion (ELFFileLoadResult * ELFFile) :=
  oh ← ELFHeader_load buf;
  match oh with
  | None => Normal (INVALID_ELF, mkELFFile None [] [] [] [])
  | Some h =>
      '(result, phs) ← loadProgramHeaderTables buf h;
      if negb (result_is_ok result) then Normal (result, mkELFFile (Some h) phs [] [] [])
      else
      '(result, shs) ← loadSectionHeaderTables buf h;
      if negb (result_is_ok result) then Normal (result, mkELFFile (Some h) phs shs [] [])
      else
      '(result, syms) ← loadSymbolTables fuel buf h shs;
      if negb (result_is_ok result) then Normal (result, mkELFFile (Some h) phs shs syms [])
      else
      '(result, notes) ← loadNoteTables fuel buf h shs;
      Normal (result, mkELFFile (Some h) phs shs syms notes)
  end.

(** [ELFSymbolTableEntry.getDescription_StName], the [description] installed
    on [St_name]: the symbol's name from the string table the owning section
    links to. *)
Definition getDescription_StName (buf : ArrayBuffer) (h : ELFHeader)
    (sections : list ELFSectionHeaderTable) (tab : ELFSymbolTable)
    (e : ELFSymbolTableEntry) : string :=
  let le := littleEndian h in
  if negb (Get32BitValue le (St_name e) =? 0) then
    let symStrTableIdx := Get32BitValue le (Sh_Link (sectionTable tab)) in
    if symStrTableIdx <? Get32BitValue le (E_Shnum h) then
      match sections !! Z.to_nat symStrTableIdx with
      | Some strtab =>
          let symStringTableFileOffset := Get32BitValue le (Sh_Offset strtab) in
          let secNameStringFileOffset :=
            symStringTableFileOffset + Get32BitValue le (St_name e) in
          let strMaxLength :=
            symStringTableFileOffset + Get32BitValue le (Sh_Size strtab)
            - secNameStringFileOffset in
          ReadByteString buf secNameStringFileOffset strMaxLength
      | None => EmptyString
      end
    else EmptyString
  else EmptyString.

(** ** Text

    Subprocess output is ASCII text ([data.toString('ascii')]).  Texts are
    [string]s; the matching functions work on their [list ascii]. *)

Abbreviation chars := list_ascii_of_string.
Abbreviation text := string_of_list_ascii.

Definition code (c : ascii) : Z := Z.of_N (N_of_ascii c).

Definition LF_char : ascii := ascii_of_nat 10.
Definition CR_char : ascii := ascii_of_nat 13.
Definition LF : string := String LF_char EmptyString.
Definition CRLF : string := String CR_char LF.

Definition ascii_eqb (a b : ascii) : bool := Ascii.eqb a b.

(** [a.startsWith(p)] on character lists. *)
Fixpoint starts_with (p s : list ascii) : bool :=
  match p, s with
  | [], _ => true
  | _ :: _, [] => false
  | a :: p', b :: s' => ascii_eqb a b && starts_with p' s'
  end.

(** [hay.includes(needle)]. *)
Fixpoint includes_chars (needle hay : list ascii) : bool :=
  starts_with needle hay ||
  match hay with
  | [] => false
  | _ :: hay' => includes_chars needle hay'
  end.

Definition includes (needle hay : string) : bool :=
  includes_chars (chars needle) (chars hay).

(** [s.split(sep)] for a non-empty separator: [cur] holds, reversed, the
    characters of the piece being read. *)
Fixpoint split_chars (sep : list ascii) (n : nat) (cur s : list ascii)
  : list (list ascii) :=
  match n with
  | O => [rev cur ++ s]
  | S n' =>
      match s with
      | [] => [rev cur]
      | c :: s' =>
          if starts_with sep s
          then rev cur :: split_chars sep n' [] (drop (length sep) s)
          else split_chars sep n' (c :: cur) s'
      end
  end.

Definition split (sep s : string) : list string :=
  map text (split_chars (chars sep) (length (chars s)) [] (chars s)).

(** [parts.join(sep)]. *)
Fixpoint join (sep : string) (parts : list string) : string :=
  match parts with
  | [] => EmptyString
  | [p] => p
  | p :: rest => (p ++ sep ++ join sep rest)%string
  end.

(** [s.replace(/c/g, by)] for a one-character pattern. *)
Definition replace_char (c : ascii) (by_ : list ascii) (s : list ascii) : list ascii :=
  flat_map (fun x => if ascii_eqb x c then by_ else [x]) s.

Definition toLowerCase_char (c : ascii) : ascii :=
  if (65 <=? code c) && (code c <=? 90)
  then ascii_of_N (N_of_ascii c + 32) else c.

Definition toLowerCase (s : string) : string := text (map toLowerCase_char (chars s)).

(** Digits for [parseInt]: the value of [c] as a digit in [radix], if any. *)
Definition digit_value (radix : Z) (c : ascii) : option Z :=
  let n := code c in
  let v := if (48 <=? n) && (n <=? 57) then n - 48
           else if (97 <=? n) && (n <=? 122) then n - 87
           else if (65 <=? n) && (n <=? 90) then n - 55
           else radix in
  if v <? radix then Some v else None.

Fixpoint digits_value (radix : Z) (acc : option Z) (s : list ascii) : option Z :=
  match s with
  | [] => acc
  | c :: s' =>
      match digit_value radix c with
      | Some v => digits_value radix (Some (default 0 acc * radix + v)) s'
      | None => acc
      end
  end.

Definition is_space (c : ascii) : bool :=
  let n := code c in (n =? 32) || ((9 <=? n) && (n <=? 13)).

Fixpoint skip_spaces (s : list ascii) : list ascii :=
  match s with
  | c :: s' => if is_space c then skip_spaces s' else s
  | [] => []
  end.

(** [parseInt(s, radix)] for radix 10 or 16: leading white space, an optional
    sign, for radix 16 an optional [0x], then the longest run of digits;
    [None] is NaN.  The value is the exact integer; a double holds it
    exactly up to 2^53. *)
Definition parseInt (s : string) (radix : Z) : option Z :=
  let s := skip_spaces (chars s) in
  let '(sign, s) :=
    match s with
    | c :: s' =>
        if ascii_eqb c "-" then (-1, s')
        else if ascii_eqb c "+" then (1, s')
        else (1, s)
    | [] => (1, s)
    end in
  let s :=
    if (radix =? 16) && (starts_with (chars "0x") s || starts_with (chars "0X") s)
    then drop 2 s else s in
  (fun v => sign * v) <$> digits_value radix None s.

(** [utils/hex.ts]. *)
Definition convertHexToNumber (hexString : string) : option Z := parseInt hexString 16.

(** ** Regular expressions

    The fragment of JavaScript regular expressions the runtime uses:
    literals, character classes, sequence, alternation, [class+] (greedy),
    [class{n}] and numbered capture groups, matched by backtracking. *)

Inductive regex :=
| REps
| RClass (p : ascii -> bool)
| RSeq (r1 r2 : regex)
| RAlt (r1 r2 : regex)
| RPlus (p : ascii -> bool)
| RGroup (i : nat) (r : regex).

Definition RChar (c : ascii) : regex := RClass (ascii_eqb c).

Fixpoint RLit_chars (s : list ascii) : regex :=
  match s with
  | [] => REps
  | c :: s' => RSeq (RChar c) (RLit_chars s')
  end.

Definition RLit (s : string) : regex := RLit_chars (chars s).

Fixpoint RRepeat (n : nat) (p : ascii -> bool) : regex :=
  match n with
  | O => REps
  | S n' => RSeq (RClass p) (RRepeat n' p)
  end.

(** [.]: any character but a line terminator. *)
Definition dot (c : ascii) : bool := negb ((code c =? 10) || (code c =? 13)).

(** [\d]. *)
Definition digit (c : ascii) : bool := (48 <=? code c) && (code c <=? 57).


Definition captures := list (nat * list ascii).


(** Greedy [class+]: take one character of the class, then prefer taking
    more over handing the rest to the continuation. *)
Fixpoint plus_match {A} (p : ascii -> bool) (s : list ascii)
    (k : list ascii -> option A) : option A :=
  match s with
  | [] => None
  | c :: s' =>
      if p c then
        match plus_match p s' k with
        | Some x => Some x
        | None => k s'
        end
      else None
  end.

(** The backtracking matcher, in continuation-passing style: [k] is what
    must still match after [r]. *)
Fixpoint rmatch {A} (r : regex) (s : list ascii) (caps : captures)
    (k : list ascii -> captures -> option A) : option A :=
  match r with
  | REps => k s caps
  | RClass p =>
      match s with
      | c :: s' => if p c then k s' caps else None
      | [] => None
      end
  | RSeq r1 r2 => rmatch r1 s caps (fun s' caps' => rmatch r2 s' caps' k)
  | RAlt r1 r2 =>
      match rmatch r1 s caps k with
      | Some x => Some x
      | None => rmatch r2 s caps k
      end
  | RPlus p => plus_match p s (fun s' => k s' caps)
  | RGroup i r1 =>
      rmatch r1 s caps
        (fun s' caps' => k s' ((i, take (length s - length s') s) :: caps'))
  end.

(** A match anchored at the start of [s]: the matched prefix, the rest and
    the groups. *)
Definition match_here (r : regex) (s : list ascii)
  : option (list ascii * list ascii * captures) :=
  rmatch r s [] (fun s' caps => Some (take (length s - length s') s, s', caps)).

(** [regex.exec(s)]: the leftmost match. *)
Fixpoint exec (r : regex) (s : list ascii)
  : option (list ascii * list ascii * captures) :=
  match match_here r s with
  | Some m => Some m
  | None =>
      match s with
      | [] => None
      | _ :: s' => exec r s'
      end
  end.


(** [s.match(r)] for a regex with the [g] flag: all matches, left to right.
    None of the runtime's patterns matches the empty string; an empty match
    ends the scan here. *)
Fixpoint match_all_chars (n : nat) (r : regex) (s : list ascii) : list (list ascii) :=
  match n with
  | O => []
  | S n' =>
      match exec r s with
      | Some (m, rest, _) =>
          match m with
          | [] => [m]
          | _ :: _ => m :: match_all_chars n' r rest
          end
      | None => []
      end
  end.

Definition match_all (r : regex) (s : list ascii) : list string :=
  map text (match_all_chars (S (length s)) r s).

(** ** MDBRuntime: data *)

Inductive EventType := STOP_AT | STACK_FRAMES.

(** A JavaScript number that came out of [parseInt]: [None] is NaN. *)
Definition number := option Z.

Inductive EventValue := EvString (s : string) | EvNumber (n : number) | EvUndefined.

(** [EventData]: the string-keyed fields and the event type. *)
Record EventData := mkEventData {
  fields : gmap string EventValue;
  data_eventType : option EventType
}.

Record MDBBreakpoint := mkBreakpoint { id : Z; line : Z; verified : bool }.


Record MDBDebugSymbol := mkSymbol {
  sym_name : string;
  sym_address : Z;
  sym_length : Z
}.

(** What a queued command waits for: the prompt, a literal, or the
    breakpoint confirmation built from the file name. *)
Inductive Expect :=
| ExpectPrompt
| ExpectString (s : string)
| ExpectBreakpointConfirmation (name : string).

(** The callbacks handed to [addCommandToQueue]. *)
Inductive Callback :=
| NoCallback
| MarkVerified (breakpoint : MDBBreakpoint) (* verifyBreakpoints' closure over the breakpoint *)
| ResolveCleared                    (* clearBreakpoints' [() => resolve(true)] *)
| ReportCleared (bp : MDBBreakpoint) (* clearBreakPoint's [callback(bp)] *).

Record Job := mkJob {
  command : string;
  patternOrStringToWait : Expect;
  callback : Callback
}.

Inductive RuntimeEvent :=
| stopOnBreakpoint
| stopOnException (data : EventData)
| breakpointValidated (bp : MDBBreakpoint).

Record MDBRuntime := mkRuntime {
  _commandQueue : list Job;       (* jobs pushed and not yet taken, oldest first *)
  queueStarted : bool;            (* [_commandQueue.start] has been called *)
  stdin : list string;            (* lines written to the subprocess, oldest first *)
  _stdoutBuffer : string;
  _stdoutBuffering : bool;
  eventType : option EventType;
  _symbols : gmap string MDBDebugSymbol;
  _breakPoints : gmap string (list MDBBreakpoint);
  _breakpointId : Z;              (* the next id; never near 2^53 *)
  sentEvents : list RuntimeEvent  (* [sendEvent] calls, oldest first *)
}.

Definition new_MDBRuntime : MDBRuntime :=
  mkRuntime [] false [] EmptyString false None ∅ ∅ 1 [].

Definition with_commandQueue (q : list Job) (started : bool) (rt : MDBRuntime) :=
  mkRuntime q started (stdin rt) (_stdoutBuffer rt) (_stdoutBuffering rt)
    (eventType rt) (_symbols rt) (_breakPoints rt) (_breakpointId rt) (sentEvents rt).

Definition with_stdin (w : list string) (rt : MDBRuntime) :=
  mkRuntime (_commandQueue rt) (queueStarted rt) w (_stdoutBuffer rt) (_stdoutBuffering rt)
    (eventType rt) (_symbols rt) (_breakPoints rt) (_breakpointId rt) (sentEvents rt).

Definition with_stdout (buffer : string) (buffering : bool) (ty : option EventType)
    (rt : MDBRuntime) :=
  mkRuntime (_commandQueue rt) (queueStarted rt) (stdin rt) buffer buffering ty
    (_symbols rt) (_breakPoints rt) (_breakpointId rt) (sentEvents rt).

Definition with_symbols (syms : gmap string MDBDebugSymbol) (rt : MDBRuntime) :=
  mkRuntime (_commandQueue rt) (queueStarted rt) (stdin rt) (_stdoutBuffer rt)
    (_stdoutBuffering rt) (eventType rt) syms (_breakPoints rt) (_breakpointId rt)
    (sentEvents rt).

Definition with_breakPoints (bps : gmap string (list MDBBreakpoint)) (next : Z)
    (rt : MDBRuntime) :=
  mkRuntime (_commandQueue rt) (queueStarted rt) (stdin rt) (_stdoutBuffer rt)
    (_stdoutBuffering rt) (eventType rt) (_symbols rt) bps next (sentEvents rt).

(** [sendEvent]: the emission is deferred with [setImmediate]; the model
    records the order of the calls. *)
Definition sendEvent (e : RuntimeEvent) (rt : MDBRuntime) :=
  mkRuntime (_commandQueue rt) (queueStarted rt) (stdin rt) (_stdoutBuffer rt)
    (_stdoutBuffering rt) (eventType rt) (_symbols rt) (_breakPoints rt) (_breakpointId rt)
    (sentEvents rt ++ [e]).

(** ** MDBRuntime: the command queue and the breakpoint registry *)

Section Runtime.

(** [normalizePath] of [utils/path] and Node's [path.basename]. *)
Variable normalizePath : string -> string.
Variable basename : string -> string.

(** [addCommandToQueue]: pushes a job; nothing is written before the queue
    runs it. *)
Definition addCommandToQueue (cmd : string) (expect : Expect) (cb : Callback)
    (rt : MDBRuntime) : MDBRuntime :=
  with_commandQueue (_commandQueue rt ++ [mkJob cmd expect cb]) (queueStarted rt) rt.

Definition addBreakpointCommand (name : string) (line : Z) (cb : Callback) :=
  addCommandToQueue ("Break " ++ name ++ ":" ++ pretty line)
    (ExpectBreakpointConfirmation name) cb.

Definition removeBreakpointCommand (id : Z) (cb : Callback) :=
  addCommandToQueue ("Delete " ++ pretty id) ExpectPrompt cb.

(** [process]: starts the queue. *)
Definition process (rt : MDBRuntime) : MDBRuntime :=
  with_commandQueue (_commandQueue rt) true rt.

(** [run(stepEvent?)]: the argument is not used. *)
Definition run (stepEvent : option string) (rt : MDBRuntime) : MDBRuntime :=
  process rt.

(** [continue]. *)
Definition continue (rt : MDBRuntime) : MDBRuntime :=
  run None (addCommandToQueue "Run" (ExpectString "Running") NoCallback rt).

(** [step(event = 'stopOnStep')]. *)
Definition step (event : string) (rt : MDBRuntime) : MDBRuntime :=
  run (Some event) rt.

(** [getBreakpoints]. *)
Definition getBreakpoints (filePath : string) (line_ : Z) (rt : MDBRuntime)
  : list MDBBreakpoint :=
  match _breakPoints rt !! normalizePath filePath with
  | None => []
  | Some bps => filter (fun bp => line_ <= line bp) bps
  end.

(** [verifyBreakpoints]: a [Break] command for every breakpoint of the
    file that is not verified yet. *)
Definition verifyBreakpoints (filePath : string) (rt : MDBRuntime) : MDBRuntime :=
  match _breakPoints rt !! normalizePath filePath with
  | None => rt
  | Some breakpoints =>
      fold_left
        (fun rt breakpoint =>
           if verified breakpoint then rt
           else addBreakpointCommand (basename filePath) (line breakpoint)
                  (MarkVerified breakpoint) rt)
        breakpoints rt
  end.

(** [setBreakPoint]. *)
Definition setBreakPoint (filePath : string) (line_ : Z) (rt : MDBRuntime)
  : MDBBreakpoint * MDBRuntime :=
  let resolvedPath := normalizePath filePath in
  let bp := mkBreakpoint (_breakpointId rt) line_ false in
  let bps := default [] (_breakPoints rt !! resolvedPath) in
  let rt := with_breakPoints (<[resolvedPath := bps ++ [bp]]> (_breakPoints rt))
              (_breakpointId rt + 1) rt in
  (bp, verifyBreakpoints resolvedPath rt).

(** [bps.findIndex(bp => bp.line === line)] followed by [splice]: the
    first breakpoint on the line and the array without it. *)
Fixpoint splice_line (line_ : Z) (bps : list MDBBreakpoint)
  : option (MDBBreakpoint * list MDBBreakpoint) :=
  match bps with
  | [] => None
  | bp :: rest =>
      if line bp =? line_ then Some (bp, rest)
      else '(found, rest') ← splice_line line_ rest; Some (found, bp :: rest')
  end.

(** [clearBreakPoint]. *)
Definition clearBreakPoint (filePath : string) (line_ : Z) (rt : MDBRuntime)
  : MDBRuntime :=
  match _breakPoints rt !! normalizePath filePath with
  | None => rt
  | Some bps =>
      match splice_line line_ bps with
      | None => rt
      | Some (bp, rest) =>
          removeBreakpointCommand (id bp) (ReportCleared bp)
            (with_breakPoints (<[normalizePath filePath := rest]> (_breakPoints rt))
               (_breakpointId rt) rt)
      end
  end.

(** [clearBreakpoints]: one [Delete] command per breakpoint of the file.
    The line that deleted the file's entry from [_breakPoints] is
    commented out in the source. *)
Definition clearBreakpoints (filePath : string) (rt : MDBRuntime) : MDBRuntime :=
  let fileBreakpoints := default [] (_breakPoints rt !! normalizePath filePath) in
  fold_left
    (fun rt fileBreakpoint => removeBreakpointCommand (id fileBreakpoint) ResolveCleared rt)
    fileBreakpoints rt.

(** What a callback does when its command has completed.  The closure of
    [verifyBreakpoints] holds the breakpoint object itself, which is the
    object in the registry with that id (if it is still there): setting
    [verified] shows in both. *)
Definition mark_verified (bp_id : Z) (bp : MDBBreakpoint) : MDBBreakpoint :=
  if id bp =? bp_id then mkBreakpoint (id bp) (line bp) true else bp.

Definition run_callback (cb : Callback) (rt : MDBRuntime) : MDBRuntime :=
  match cb with
  | NoCallback | ResolveCleared | ReportCleared _ => rt
  | MarkVerified breakpoint =>
      let bps :=
        fmap (M := gmap string) (map (mark_verified (id breakpoint))) (_breakPoints rt) in
      sendEvent (breakpointValidated (mkBreakpoint (id breakpoint) (line breakpoint) true))
        (with_breakPoints bps (_breakpointId rt) rt)
  end.

(** [executeRawCommand], for a subprocess that answers: the command line is
    written and the prompt arrives. *)
Definition executeRawCommand (cmd : string) (rt : MDBRuntime) : MDBRuntime :=
  with_stdin (stdin rt ++ [(cmd ++ LF)%string]) rt.

(** The started queue takes its next job: the command is written, the
    subprocess answers with what the job waits for, the callback runs.
    When the last job is done the queue stops. *)
Definition queue_step (rt : MDBRuntime) : MDBRuntime :=
  if queueStarted rt then
    match _commandQueue rt with
    | [] => with_commandQueue [] false rt
    | job :: rest =>
        let rt := with_commandQueue rest true rt in
        let rt := executeRawCommand (command job) rt in
        let rt := run_callback (callback job) rt in
        match _commandQueue rt with
        | [] => with_commandQueue [] false rt
        | _ => rt
        end
    end
  else rt.

(** [n] steps of the queue. *)
Fixpoint queue_drain (n : nat) (rt : MDBRuntime) : MDBRuntime :=
  match n with
  | O => rt
  | S n' => queue_drain n' (queue_step rt)
  end.

End Runtime.

(** ** MDBRuntime: the stop-event parser *)

(** [/address:(0x.{8})|file:(.+)|source line:(\d+)/gm]. *)
Definition field_regex : regex :=
  RAlt (RSeq (RLit "address:") (RGroup 1 (RSeq (RLit "0x") (RRepeat 8 dot))))
    (RAlt (RSeq (RLit "file:") (RGroup 2 (RPlus dot)))
          (RSeq (RLit "source line:") (RGroup 3 (RPlus digit)))).

(** The [map] callback of [parseStdOutMessage]: a match split at its colons
    into a key and a raw value. *)
Definition key_and_value (m : string) : string * option string :=
  match split ":" m with
  | [] => (EmptyString, None)
  | [key] => (key, None)
  | [key; rawValue] => (key, Some rawValue)
  | key :: _ :: rest => (key, Some (join ":" rest))
  end.

(** The [reduce] callback: one field is stored in the collector. *)
Definition collect_field (collector : gmap string EventValue)
    (kv : string * option string) : gmap string EventValue :=
  let '(key, rawValue) := kv in
  let sanitizedKey := text (replace_char " "%char ["_"%char] (chars key)) in
  let value := match rawValue with Some v => EvString v | None => EvUndefined end in
  let '(sanitizedKey, value) :=
    if String.eqb sanitizedKey "source_line"
    then ("line"%string, EvNumber (rawValue ≫= fun v => parseInt v 10))
    else (sanitizedKey, value) in
  let value :=
    if String.eqb sanitizedKey "address"
    then EvNumber (rawValue ≫= convertHexToNumber)
    else value in
  <[sanitizedKey := value]> collector.

Section Events.

Variable normalizePath : string -> string.

(** [data.file || ''] and [data.line]. *)
Definition data_file (data : EventData) : string :=
  match fields data !! "file"%string with
  | Some (EvString f) => f
  | _ => EmptyString
  end.

Definition line_is (data : EventData) (bp : MDBBreakpoint) : bool :=
  match fields data !! "line"%string with
  | Some (EvNumber (Some n)) => line bp =? n
  | _ => false
  end.

(** [fireEventsForData]. *)
Definition fireEventsForData (data : EventData) (rt : MDBRuntime) : MDBRuntime :=
  match data_eventType data with
  | Some STOP_AT =>
      let hit :=
        match _breakPoints rt !! normalizePath (data_file data) with
        | Some breakpoints => filter (fun bp => line_is data bp = true) breakpoints
        | None => []
        end in
      match hit with
      | bp :: _ =>
          let rt := sendEvent stopOnBreakpoint rt in
          if verified bp then rt
          else
            sendEvent (breakpointValidated (mkBreakpoint (id bp) (line bp) true))
              (with_breakPoints
                 (fmap (M := gmap string) (map (mark_verified (id bp))) (_breakPoints rt))
                 (_breakpointId rt) rt)
      | [] => sendEvent (stopOnException data) rt
      end
  | _ => rt
  end.

(** [parseStdOutMessage]: the new state and, when the parser fires, the
    event data it hands to [fireEventsForData]. *)
Definition parseStdOutMessage (message : string) (rt : MDBRuntime)
  : MDBRuntime * option EventData :=
  let rt :=
    if includes "stop at" (toLowerCase message)
    then with_stdout message true (Some STOP_AT) rt
    else rt in
  if _stdoutBuffering rt then
    let buffer := (_stdoutBuffer rt ++ message)%string in
    let rt := with_stdout buffer true (eventType rt) rt in
    let matches := match_all field_regex (replace_char LF_char [] (chars buffer)) in
    if 3 <=? Z.of_nat (length matches) then
      let rt := with_stdout EmptyString false (eventType rt) rt in
      let eventData :=
        mkEventData (fold_left collect_field (map key_and_value matches) ∅)
          (eventType rt) in
      (fireEventsForData eventData rt, Some eventData)
    else (rt, None)
  else (rt, None).

End Events.

(** ** MDBRuntime: stack *)






(** ** MDBRuntime: start, stack and the ELF symbols *)

Definition DQUOTE : string := String (ascii_of_nat 34) EmptyString.

Record MDBRuntimeConfig := mkConfig {
  tool : string;
  chip : string;
  executablePath : string;
  timeout : Z
}.

Record LaunchRequestArguments := mkLaunch {
  program : string;
  stopOnEntry : bool;
  toolConfiguration : list string
}.

Section Session.

Variable normalizePath : string -> string.
Variable basename : string -> string.

(** [processElfFile], from [elfBytes.buffer], the [ArrayBuffer] under what
    [readFileSync] returned (the bytes of the file, for a file too large
    for Node's buffer pool, 4096 bytes or more).  The result of [load] is
    not looked at; [elfSymbolTables[0]] is [undefined] when no symbol table
    was loaded, and reading [symTabEntries] of it throws. *)
Definition processElfFile (fuel : nat) (elfBytes : ArrayBuffer) (rt : MDBRuntime)
  : completion MDBRuntime :=
  '(result, elfFile) ← ELFFile_load fuel elfBytes;
  match elfSymbolTables elfFile, elfHeader elfFile with
  | symbolTable :: _, Some h =>
      let symbols :=
        fold_left
          (fun symbols symbolTableEntry =>
             let name :=
               getDescription_StName elfBytes h (elfSectionHeaderTables elfFile)
                 symbolTable symbolTableEntry in
             let address := Get32BitValue (littleEndian h) (St_value symbolTableEntry) in
             let length := value (St_size symbolTableEntry) in
             <[name := mkSymbol name address length]> symbols)
          (symTabEntries symbolTable) (_symbols rt) in
      Normal (with_symbols symbols rt)
  | _, _ => Throws TypeError
  end.

(** [start], for a subprocess that answers every command.  [_sourceFile]
    is the empty string all along; [elfBytes] is the content of
    [args.program]. *)
Definition start (fuel : nat) (config : MDBRuntimeConfig) (args : LaunchRequestArguments)
    (elfBytes : ArrayBuffer) (rt : MDBRuntime) : completion MDBRuntime :=
  let rt := verifyBreakpoints normalizePath basename EmptyString rt in
  let rt :=
    fold_left
      (fun rt toolConfig =>
         executeRawCommand ("Set " ++ toolConfig ++ LF)%string rt)
      (toolConfiguration args) rt in
  rt ← processElfFile fuel elfBytes rt;
  let rt := executeRawCommand ("Device " ++ chip config)%string rt in
  let rt := executeRawCommand ("Hwtool " ++ tool config)%string rt in
  let rt := executeRawCommand ("Program " ++ DQUOTE ++ program args ++ DQUOTE)%string rt in
  Normal (if stopOnEntry args then step "stopOnEntry" rt else continue rt).



(** The first command [evaluate(expression)] submits: a symbol the map
    knows is printed, anything else is asked for with an address-of query. *)
Definition evaluate_query (expression : string) (rt : MDBRuntime) : string :=
  match _symbols rt !! expression with
  | Some _ => ("Print " ++ expression)%string
  | None => ("Print /a " ++ expression)%string
  end.

End Session.

(** ** MDBRuntime: waiting for output

    The [data] listeners on the subprocess's stdout and the promise, the
    countdown and the interval of every [waitForStdOut] call. *)

Inductive Pattern := PString (s : string) | PRegExp (r : regex).

Inductive Settled :=
| Resolved (dataAsMessage : string)
| RejectedWithError (dataAsMessage : string)
| RejectedOnTimeout.

Record Wait := mkWait {
  patternOrString : Pattern;
  timeLeft : Z;
  intervalId : bool;              (* the interval is set and not cleared *)
  settled : option Settled        (* a promise settles once *)
}.

Record Stdout := mkStdout {
  waits : list Wait;              (* every wait ever made, by number *)
  listeners : list nat            (* the waits whose listener is attached, in order *)
}.

Definition settle (o : Settled) (w : Wait) : Wait :=
  match settled w with
  | Some _ => w
  | None => mkWait (patternOrString w) (timeLeft w) (intervalId w) (Some o)
  end.

Definition clearTimeoutInterval (w : Wait) : Wait :=
  mkWait (patternOrString w) (timeLeft w) false (settled w).

Definition isMatching (p : Pattern) (dataAsMessage : string) : bool :=
  match p with
  | PString s => includes s dataAsMessage
  | PRegExp r => bool_decide (is_Some (exec r (chars dataAsMessage)))
  end.

(** [waitForStdOut], once the subprocess is spawned: a new wait, its
    listener attached, its interval set. *)
Definition waitForStdOut (p : Pattern) (timeout_ : Z) (out : Stdout) : nat * Stdout :=
  let w := length (waits out) in
  (w, mkStdout (waits out ++ [mkWait p timeout_ true None]) (listeners out ++ [w])).

(** The listener of wait [w] receives a chunk. *)
Definition listener (w : nat) (data : string) (out : Stdout) : Stdout :=
  match waits out !! w with
  | None => out
  | Some wait =>
      if includes "err" data then
        mkStdout (<[w := settle (RejectedWithError data) wait]> (waits out)) (listeners out)
      else if isMatching (patternOrString wait) data then
        mkStdout (<[w := settle (Resolved data) (clearTimeoutInterval wait)]> (waits out))
          (filter (fun l => l <> w) (listeners out))
      else out
  end.

(** The stream emits a chunk: every listener attached at that moment gets it. *)
Definition emit_data (data : string) (out : Stdout) : Stdout :=
  fold_left (fun out w => listener w data out) (listeners out) out.

(** One firing of the interval of wait [w]. *)
Definition interval_tick (w : nat) (out : Stdout) : Stdout :=
  match waits out !! w with
  | None => out
  | Some wait =>
      if intervalId wait then
        let wait := mkWait (patternOrString wait) (timeLeft wait - 1) true (settled wait) in
        let wait :=
          if timeLeft wait <=? 0
          then settle RejectedOnTimeout (clearTimeoutInterval wait)
          else wait in
        mkStdout (<[w := wait]> (waits out)) (listeners out)
      else out
  end.

Definition new_Stdout : Stdout := mkStdout [] [].

(** [N] sequential [setBreakPoint] calls: the breakpoints returned, in call
    order, and the runtime after the last call. *)
Fixpoint setBreakPoints (normalizePath basename : string -> string)
    (calls : list (string * Z)) (rt : MDBRuntime) : list MDBBreakpoint * MDBRuntime :=
  match calls with
  | [] => ([], rt)
  | (filePath, line_) :: calls' =>
      let '(bp, rt) := setBreakPoint normalizePath basename filePath line_ rt in
      let '(bps, rt) := setBreakPoints normalizePath basename calls' rt in
      (bp :: bps, rt)
  end.

(** ** Images used in the examples *)

Definition byte_of_Z (z : Z) : Byte.byte := default Byte.x00 (Byte.of_N (Z.to_N z)).

Definition bytes (l : list Z) : ArrayBuffer := map byte_of_Z l.

Definition u16le (v : Z) : list Z := [v mod 256; v / 256 mod 256].

Definition u32le (v : Z) : list Z :=
  [v mod 256; v / 256 mod 256; v / 65536 mod 256; v / 16777216 mod 256].

Definition zeros (n : nat) : list Z := repeat 0 n.

(** The 52 header bytes of a little-endian ELF32 executable. *)
Definition elf32_header (phoff shoff phentsize phnum shentsize shnum : Z) : list Z :=
  [127; 69; 76; 70; 1; 1; 1; 0] ++ zeros 8
  ++ u16le 2 ++ u16le 8 ++ u32le 1
  ++ u32le 0 ++ u32le phoff ++ u32le shoff ++ u32le 0
  ++ u16le 52 ++ u16le phentsize ++ u16le phnum
  ++ u16le shentsize ++ u16le shnum ++ u16le 0.

(** The 40 bytes of an ELF32 section header. *)
Definition elf32_section (type off size entsize : Z) : list Z :=
  u32le 0 ++ u32le type ++ u32le 0 ++ u32le 0 ++ u32le off ++ u32le size
  ++ u32le 0 ++ u32le 0 ++ u32le 0 ++ u32le entsize.

(** The first 4096 bytes of an ELF32 file whose header announces 200 program
    headers of 32 bytes at offset 52: the table would end at byte 6452. *)
Definition image_ph_beyond_end : ArrayBuffer :=
  bytes (elf32_header 52 0 32 200 40 0 ++ zeros 4044).

(** The first 60 bytes of a little-endian ELF64 file: [e_phoff = 64],
    [e_phentsize = 56], [e_phnum = 1]; the file ends inside the header. *)
Definition image_elf64_cut : ArrayBuffer :=
  bytes ([127; 69; 76; 70; 2; 1; 1; 0] ++ zeros 8
         ++ u16le 2 ++ u16le 8 ++ u32le 1
         ++ zeros 8 ++ u32le 64 ++ zeros 4 ++ zeros 8 ++ u32le 0
         ++ u16le 64 ++ u16le 56 ++ u16le 1 ++ u16le 64).

(** A little-endian ELF64 header of 64 bytes, complete, with
    [e_phoff = 2^32 + 64], no program header and no section. *)
Definition image_elf64_far_offset : ArrayBuffer :=
  bytes ([127; 69; 76; 70; 2; 1; 1; 0] ++ zeros 8
         ++ u16le 2 ++ u16le 8 ++ u32le 1
         ++ zeros 8 ++ u32le 64 ++ u32le 1 ++ u32le 64 ++ u32le 0 ++ u32le 0
         ++ u16le 64 ++ u16le 56 ++ u16le 0 ++ u16le 64 ++ u16le 0 ++ u16le 0).


(** An ELF32 file of 4096 bytes whose symbol table section has
    [sh_offset = 92], [sh_size = 24] and [sh_entsize = 16]. *)
Definition image_symtab_24_16 : ArrayBuffer :=
  bytes (elf32_header 52 52 32 0 40 1 ++ elf32_section SHT_SYMTAB 92 24 16 ++ zeros 4004).

(** The same file with [sh_entsize = 0]. *)
Definition image_symtab_entsize_0 : ArrayBuffer :=
  bytes (elf32_header 52 52 32 0 40 1 ++ elf32_section SHT_SYMTAB 92 24 0 ++ zeros 4004).

(** The first 4096 bytes of an ELF32 file with no program header whose
    header announces 200 section headers of 40 bytes at offset 52. *)
Definition image_sh_beyond_end : ArrayBuffer :=
  bytes (elf32_header 52 52 32 0 40 200 ++ zeros 4044).

(** An ELF32 file of 4096 bytes whose [e_phoff] and [e_shoff] are zero, with
    no program header and no section. *)
Definition image_zero_offsets : ArrayBuffer :=
  bytes (elf32_header 0 0 32 0 40 0 ++ zeros 4044).

(** A little-endian ELF64 header of 64 bytes whose [e_phoff] is zero. *)
Definition image_elf64_zero_phoff : ArrayBuffer :=
  bytes ([127; 69; 76; 70; 2; 1; 1; 0] ++ zeros 8
         ++ u16le 2 ++ u16le 8 ++ u32le 1
         ++ zeros 8 ++ zeros 8 ++ zeros 8 ++ u32le 0
         ++ u16le 64 ++ u16le 56 ++ u16le 0 ++ u16le 64 ++ u16le 0 ++ u16le 0).

(** An ELF32 section header with a name. *)
Definition elf32_section_named (name type off size entsize : Z) : list Z :=
  u32le name ++ drop 4 (elf32_section type off size entsize).

Definition codes (s : string) : list Z := map code (chars s).

(** An ELF32 file of 4096 bytes with two sections: [.symtab], one entry of
    16 bytes at offset 152, and [.shstrtab], the 19 bytes of section names
    at offset 132, which [e_shstrndx] points to. *)
Definition image_named_sections : ArrayBuffer :=
  bytes (take 50 (elf32_header 52 52 32 0 40 2) ++ u16le 1
         ++ elf32_section_named 1 SHT_SYMTAB 152 16 16
         ++ elf32_section_named 9 3 132 19 0
         ++ [0] ++ codes ".symtab" ++ [0] ++ codes ".shstrtab" ++ [0]
         ++ zeros 3945).

(** The same file with [e_shstrndx = 5]. *)
Definition image_shstrndx_beyond : ArrayBuffer :=
  bytes (take 50 (elf32_header 52 52 32 0 40 2) ++ u16le 5
         ++ elf32_section_named 1 SHT_SYMTAB 152 16 16
         ++ elf32_section_named 9 3 132 19 0
         ++ [0] ++ codes ".symtab" ++ [0] ++ codes ".shstrtab" ++ [0]
         ++ zeros 3945).

(** An ELF32 file of 4096 bytes with one note section of 24 bytes at offset
    92: a note named [GNU] with four bytes of description. *)
Definition image_note : ArrayBuffer :=
  bytes (elf32_header 52 52 32 0 40 1 ++ elf32_section SHT_NOTE 92 24 0
         ++ u32le 4 ++ u32le 4 ++ u32le 1 ++ codes "GNU" ++ [0] ++ [1; 2; 3; 4]
         ++ zeros 3984).

(** What [load] built for the symbol tables: for each, the size and entry
    size its section declares and the number of entries. *)
Definition symbol_table_shape (f : ELFFile) : list (Z * Z * nat) :=
  match elfHeader f with
  | None => []
  | Some h =>
      map (fun t =>
             (Get32BitValue (littleEndian h) (Sh_Size (sectionTable t)),
              Get32BitValue (littleEndian h) (Sh_Entsize (sectionTable t)),
              length (symTabEntries t)))
          (elfSymbolTables f)
  end.

(** The number of bytes one symbol table entry reads. *)
Definition symbol_entry_size (h : ELFHeader) : Z := if isELF64 h then 24 else 16.

(** ** [utils/hex.ts]: numbers as hexadecimal text *)

(** The digit [d] as [Number.prototype.toString(16)] writes it. *)
Definition hex_digit (d : Z) : ascii :=
  ascii_of_N (Z.to_N (if d <? 10 then 48 + d else 87 + d)).

(** The digits of [n], the least significant first; [fuel] bounds their
    number. *)
Fixpoint hex_digits_rev (fuel : nat) (n : Z) : list ascii :=
  match fuel with
  | O => []
  | S fuel' =>
      hex_digit (n mod 16)
      :: (if n / 16 =? 0 then [] else hex_digits_rev fuel' (n / 16))
  end.

(** [n.toString(16)] for an integer [n]: a number below [2^k] has at most
    [k] hexadecimal digits. *)
Definition toString16 (n : Z) : string :=
  let digits m := text (rev (hex_digits_rev (S (Z.to_nat (Z.log2 m))) m)) in
  if n <? 0 then String "-" (digits (- n)) else digits n.

Definition convertNumberToHex (number : Z) : string :=
  ("0x" ++ toString16 number)%string.

(** ** Section names *)

(** [ELFSectionHeaderTable.getDescription_Name], the [description] installed
    on [Sh_Name]: the name of [sec] from the section [E_Shstrndx] points to.
    The index is not compared with the number of sections: past the end of
    the array [strSec] is [undefined] and reading [Sh_Offset] of it throws. *)
Definition getDescription_Name (buf : ArrayBuffer) (h : ELFHeader)
    (sections : list ELFSectionHeaderTable) (sec : ELFSectionHeaderTable)
  : completion string :=
  let le := littleEndian h in
  let secNameSectionIdx := value (E_Shstrndx h) in
  if negb (secNameSectionIdx =? 0) then
    match sections !! Z.to_nat secNameSectionIdx with
    | Some strSec =>
        let strStartOffset :=
          Get32BitValue le (Sh_Offset strSec) + Get32BitValue le (Sh_Name sec) in
        let strMaxLength :=
          Get32BitValue le (Sh_Offset strSec) + Get32BitValue le (Sh_Size strSec)
          - strStartOffset in
        Normal (ReadByteString buf strStartOffset strMaxLength)
    | None => Throws TypeError
    end
  else Normal EmptyString.

(** ** The debug session's breakpoint request *)

Section SessionRequests.

Variable normalizePath : string -> string.
Variable basename : string -> string.

(** [convertClientLineToDebugger] of the debug adapter library. *)
Variable convertClientLineToDebugger : Z -> Z.

(** [setBreakPointsRequest] of [session.ts], as far as the runtime goes:
    the breakpoints of the file are cleared, then one is set for every line
    of the request.  The value holds the breakpoints the response is built
    from.  [clearBreakpoints] is not awaited; its loop has pushed its
    commands when the call returns. *)
Definition setBreakPointsRequest (path : string) (clientLines : list Z)
    (rt : MDBRuntime) : list MDBBreakpoint * MDBRuntime :=
  let rt := clearBreakpoints normalizePath path rt in
  setBreakPoints normalizePath basename
    (map (fun l => (path, convertClientLineToDebugger l)) clientLines) rt.

End SessionRequests.

(** ** Sequences of calls *)




(** [n] firings of the interval of wait [w]. *)
Fixpoint interval_ticks (n : nat) (w : nat) (out : Stdout) : Stdout :=
  match n with
  | O => out
  | S n' => interval_ticks n' w (interval_tick w out)
  end.

(** ** Notions used in the statements *)

#[global] Instance completion_fmap : FMap completion := fun A B f c =>
  match c with
  | Normal a => Normal (f a)
  | Throws e => Throws e
  | NoFuel => NoFuel
  end.

(** A computation whose only way of throwing is a [RangeError]. *)
Definition throws_only_RangeError {A} (c : completion A) : Prop :=
  match c with
  | Throws e => e = RangeError
  | _ => True
  end.

(** The first chunk of a stop notification: the marker, the address and the
    file; the source line is still to come. *)
Definition stop_chunk : string :=
  ("Stop at" ++ CRLF ++ "address:0x9D001234" ++ CRLF ++ "file:/src/main.c" ++ CRLF)%string.








(** Every entry the loop of [ELFSymbolTable.load] visits lies inside the
    buffer. *)
Definition entries_in_bounds (buf : ArrayBuffer) (h : ELFHeader)
    (sec : ELFSectionHeaderTable) : Prop :=
  let le := littleEndian h in
  forall i, 0 <= i ->
    i * Get32BitValue le (Sh_Entsize sec) < Get32BitValue le (Sh_Size sec) ->
    0 <= Get32BitValue le (Sh_Offset sec) + i * Get32BitValue le (Sh_Entsize sec) /\
    Get32BitValue le (Sh_Offset sec) + i * Get32BitValue le (Sh_Entsize sec)
      + symbol_entry_size h <= byteLength buf.





(** The beginning of a stop notification, up to the file. *)
Definition stop_notification_head (address file_ : list ascii) : list ascii :=
  chars "Stop at" ++ [CR_char; LF_char]
  ++ chars "address:0x" ++ address ++ [CR_char; LF_char]
  ++ chars "file:" ++ file_ ++ [CR_char; LF_char].

(** What a chunk does to a wait whose listener receives it, and whether
    the listener takes itself off the stream. *)
Definition on_data (data : string) (wait : Wait) : Wait :=
  if includes "err" data then settle (RejectedWithError data) wait
  else if isMatching (patternOrString wait) data
       then settle (Resolved data) (clearTimeoutInterval wait)
       else wait.

Definition detaches (data : string) (out : Stdout) (w : nat) : bool :=
  match waits out !! w with
  | Some wait => negb (includes "err" data) && isMatching (patternOrString wait) data
  | None => false
  end.


(** The [Break] job [verifyBreakpoints] queues for a breakpoint. *)
Definition break_job (name : string) (bp : MDBBreakpoint) : Job :=
  mkJob ("Break " ++ name ++ ":" ++ pretty (line bp))
    (ExpectBreakpointConfirmation name) (MarkVerified bp).

(** The characters of [join ":"]. *)
Fixpoint join_colon (pieces : list (list ascii)) : list ascii :=
  match pieces with
  | [] => []
  | [p] => p
  | p :: rest => p ++ ":"%char :: join_colon rest
  end.

(** The number a run of digits denotes in base 16, most significant first. *)
Definition hex_value (ds : list ascii) : Z :=
  fold_left (fun acc c => acc * 16 + default 0 (digit_value 16 c)) ds 0.

(** * Properties of the ELF reader *)

Section ELFReader.

Implicit Types (buf : ArrayBuffer) (h : ELFHeader) (sec : ELFSectionHeaderTable).

Lemma getUint_in_bounds n buf off le :
  0 <= off -> off + Z.of_nat n <= byteLength buf ->
  exists v, getUint n buf off le = Normal v.
Proof.
  intros Hlo Hhi. unfold getUint.
  assert ((0 <=? off) && (off + Z.of_nat n <=? byteLength buf) = true) as ->.
  { apply andb_true_iff. split; apply Z.leb_le; lia. }
  eauto.
Qed.

Lemma ELFElement_new_fits buf le off size :
  0 <= off -> off + size <= byteLength buf -> 0 <= size ->
  exists e, ELFElement_new buf le off size = Normal e.
Proof.
  intros Hlo Hhi Hsz. unfold ELFElement_new, getUint8, getUint16, getUint32.
  repeat case_match; eauto.
  all: repeat match goal with
  | H : (_ =? _) = true |- _ => apply Z.eqb_eq in H; subst
  end.
  all: repeat match goal with
  | |- context [getUint ?n ?b ?o ?l] =>
      let v := fresh "v" in let Hv := fresh "Hv" in
      destruct (getUint_in_bounds n b o l) as [v Hv]; [lia | simpl; lia |];
      rewrite Hv; simpl
  end; eauto.
Qed.

(** An entry whose bytes lie inside the buffer loads, whatever they are. *)
Lemma ELFSymbolTableEntry_load_in_bounds buf h i a :
  0 <= a -> a + symbol_entry_size h <= byteLength buf ->
  exists e, ELFSymbolTableEntry_load buf h i a = Normal e.
Proof.
  intros Hlo Hhi. unfold ELFSymbolTableEntry_load, symbol_entry_size in *.
  destruct (isELF64 h).
  all: repeat match goal with
  | |- context [ELFElement_new ?b ?l ?o ?s] =>
      let e := fresh "e" in let He := fresh "He" in
      destruct (ELFElement_new_fits b l o s) as [e He]; [lia | lia | lia |];
      rewrite He; simpl
  end; eauto.
Qed.

(** The loop test [i < Sh_Size / Sh_Entsize] for a positive entry size:
    true exactly below the quotient rounded up. *)
Lemma lt_quotient_ceil a b i :
  0 < b -> lt_quotient i (QRatio a b) = (i <? (a + b - 1) / b).
Proof.
  intros Hb. simpl. apply eq_true_iff_eq. rewrite !Z.ltb_lt. split; intros H.
  - assert (i + 1 <= (a + b - 1) / b) by (apply Z.div_le_lower_bound; lia). lia.
  - assert ((a + b - 1) / b * b <= a + b - 1)
      by (rewrite Z.mul_comm; apply Z.mul_div_le; lia).
    nia.
Qed.

(** With a positive entry size and every visited entry inside the buffer,
    the loop runs from [i] up to the rounded-up quotient and stops. *)
Lemma symTab_loop_positive buf h sec a b (k : nat) :
  let le := littleEndian h in
  b = Get32BitValue le (Sh_Entsize sec) -> a = Get32BitValue le (Sh_Size sec) ->
  0 < b -> entries_in_bounds buf h sec ->
  forall i entries fuel,
    0 <= i -> Z.of_nat k = Z.max 0 ((a + b - 1) / b - i) -> (k <= fuel)%nat ->
    exists es,
      symTab_loop fuel buf h sec (QRatio a b) i entries = Normal (entries ++ es)
      /\ length es = k.
Proof.
  intros le Hb Ha Hpos Hin. induction k as [|k IH]; intros i entries fuel Hi Hk Hfuel.
  - exists []. split; [| done]. rewrite app_nil_r.
    destruct fuel; simpl; rewrite <- Z.ltb_lt in Hpos.
    all: change (i * b <? a) with (lt_quotient i (QRatio a b));
      rewrite lt_quotient_ceil by (apply Z.ltb_lt; done).
    all: assert ((i <? (a + b - 1) / b) = false) as -> by (apply Z.ltb_ge; lia); done.
  - destruct fuel as [|fuel]; [lia |]. simpl.
    change (i * b <? a) with (lt_quotient i (QRatio a b)).
    rewrite lt_quotient_ceil by done.
    assert (i < (a + b - 1) / b) as Hlt by lia.
    assert ((i <? (a + b - 1) / b) = true) as -> by (apply Z.ltb_lt; done).
    assert (i * b < a) as Hiter.
    { apply Z.ltb_lt. change (i * b <? a) with (lt_quotient i (QRatio a b)).
      rewrite lt_quotient_ceil by done. apply Z.ltb_lt; done. }
    destruct (Hin i Hi) as [Hlo Hhi]; [fold le; rewrite <- Hb, <- Ha; done |].
    fold le in Hlo, Hhi. rewrite <- Hb in Hlo, Hhi.
    destruct (ELFSymbolTableEntry_load_in_bounds buf h i _ Hlo Hhi) as [e He].
    fold le. rewrite <- Hb, He. simpl.
    destruct (IH (i + 1) (entries ++ [e]) fuel) as [es [Hes Hlen]]; [lia | lia | lia |].
    exists (e :: es). split; [| simpl; lia].
    rewrite Hes, <- app_assoc. done.
Qed.

(** With a zero entry size and a positive size the test never fails: if
    the entry at [Sh_Offset] can be read, the loop uses up any fuel. *)
Lemma symTab_loop_zero_entsize buf h sec :
  let le := littleEndian h in
  Get32BitValue le (Sh_Entsize sec) = 0 ->
  0 <= Get32BitValue le (Sh_Offset sec) ->
  Get32BitValue le (Sh_Offset sec) + symbol_entry_size h <= byteLength buf ->
  forall fuel i entries, symTab_loop fuel buf h sec QInfinity i entries = NoFuel.
Proof.
  intros le Hent Hlo Hhi. induction fuel as [|fuel IH]; intros i entries; [done |].
  simpl. fold le. rewrite Hent, Z.mul_0_r, Z.add_0_r.
  destruct (ELFSymbolTableEntry_load_in_bounds buf h i _ Hlo Hhi) as [e He].
  rewrite He. simpl. apply IH.
Qed.

(** [ELFSymbolTable.load] on a section with a positive entry size and all
    entries inside the buffer: any fuel from the entry count on is enough. *)
Lemma ELFSymbolTable_load_positive buf h sec :
  let le := littleEndian h in
  let a := Get32BitValue le (Sh_Size sec) in
  let b := Get32BitValue le (Sh_Entsize sec) in
  0 < b -> entries_in_bounds buf h sec ->
  forall fuel, (Z.to_nat ((a + b - 1) / b) <= fuel)%nat ->
    exists tab, ELFSymbolTable_load fuel buf h sec = Normal tab
                /\ sectionTable tab = sec
                /\ length (symTabEntries tab) = Z.to_nat ((a + b - 1) / b).
Proof.
  intros le a b Hpos Hin fuel Hfuel. unfold ELFSymbolTable_load. fold le a b.
  unfold js_div. assert ((b =? 0) = false) as -> by (apply Z.eqb_neq; lia).
  destruct (symTab_loop_positive buf h sec a b (Z.to_nat ((a + b - 1) / b))
              eq_refl eq_refl Hpos Hin 0 [] fuel) as [es [Hes Hlen]]; [lia | lia | lia |].
  rewrite Hes. simpl. eauto.
Qed.


End ELFReader.

Section ELFClaims.

Implicit Types (buf : ArrayBuffer) (h : ELFHeader) (sec : ELFSectionHeaderTable).


Lemma ELFElement_new_throws buf le off size :
  throws_only_RangeError (ELFElement_new buf le off size).
Proof.
  unfold ELFElement_new, getUint8, getUint16, getUint32, getUint.
  repeat case_match; simpl; auto.
Qed.





(** An image shorter than an ELF32 header is refused before anything is
    read. *)
Lemma ELFFile_load_short fuel buf :
  byteLength buf < 52 ->
  ELFFile_load fuel buf = Normal (INVALID_ELF, mkELFFile None [] [] [] []).
Proof.
  intros Hlen. unfold ELFFile_load, ELFHeader_load.
  assert ((byteLength buf <? 52) = true) as -> by (apply Z.ltb_lt; done). done.
Qed.

(** [ELFHeader.load] reads the whole header of an image of 52 bytes or
    more, provided the image has all 64 header bytes when its class byte
    says ELF64. *)
Lemma ELFHeader_load_reads_header buf :
  52 <= byteLength buf ->
  (forall cls, ELFElement_new buf false 4 1 = Normal cls ->
               class_is_ELF64 cls = true -> 64 <= byteLength buf) ->
  exists h, ELFHeader_load buf = Normal (Some h).
Proof.
  intros Hlen H64. unfold ELFHeader_load.
  assert ((byteLength buf <? 52) = false) as -> by (apply Z.ltb_ge; done).
  cbv zeta.
  destruct (ELFElement_new_fits buf false 0 4) as [mag ->]; [lia | lia | lia |]. simpl.
  destruct (ELFElement_new_fits buf false (0 + 4) 1) as [cls Hcls]; [lia | lia | lia |].
  rewrite Hcls. simpl. specialize (H64 cls Hcls).
  destruct (ELFElement_new_fits buf false (0 + 4 + 1) 1) as [dat ->]; [lia | lia | lia |].
  simpl. destruct (class_is_ELF64 cls).
  all: specialize (H64 eq_refl) || clear H64.
  all: repeat match goal with
  | |- context [ELFElement_new ?b ?l ?o ?sz] =>
      let e := fresh "e" in let He := fresh "He" in
      destruct (ELFElement_new_fits b l o sz) as [e He]; [lia | lia | lia |];
      rewrite He; simpl
  end; eauto.
Qed.

(** C3, as the code has it: for every image whose header [ELFHeader.load]
    has read in full, if the program-header offset the reader works with
    (the 32-bit field, or the least significant half of the 64-bit one)
    plus [phnum * phentsize] exceeds the buffer length, [ELFFile.load]
    returns [INVALID_ELF], with no table loaded. *)
Theorem ELFFile_load_program_headers_out_of_bounds fuel buf h :
  ELFHeader_load buf = Normal (Some h) ->
  byteLength buf <
    Get32BitValue (littleEndian h) (E_PhOff h)
    + Get32BitValue (littleEndian h) (E_Phnum h)
      * Get32BitValue (littleEndian h) (E_Phentsize h) ->
  ELFFile_load fuel buf = Normal (INVALID_ELF, mkELFFile (Some h) [] [] [] []).
Proof.
  intros Hheader Hbeyond. unfold ELFFile_load. rewrite Hheader. simpl.
  unfold loadProgramHeaderTables, table_out_of_bounds.
  apply Z.ltb_lt in Hbeyond. rewrite Hbeyond, orb_true_r. done.
Qed.

Lemma ELFFile_load_program_headers_out_of_bounds_witness :
  exists h,
    ELFHeader_load image_ph_beyond_end = Normal (Some h)
    /\ ELFFile_load 0 image_ph_beyond_end
       = Normal (INVALID_ELF, mkELFFile (Some h) [] [] [] []).
Proof.
  eexists. split; [vm_compute; reflexivity |].
  apply (ELFFile_load_program_headers_out_of_bounds 0 image_ph_beyond_end);
    vm_compute; reflexivity.
Defined.

(** C3 as stated fails on a file that ends inside an ELF64 header: the
    reader has read [e_phoff = 64], [e_phentsize = 56] and [e_phnum = 1]
    from the 60 bytes, 64 + 1 * 56 exceeds 60, and [ELFFile.load] ends
    with the [RangeError] of the next header read instead of returning
    [INVALID_ELF].  It fails too on a complete ELF64 header whose program
    header offset is [2^32 + 64], far beyond the 64 bytes of the image: the
    reader works with the low half, 64, and [ELFFile.load] returns [OK]. *)
Lemma ELFFile_load_cut_header_throws :
  (byteLength image_elf64_cut = 60
   /\ ELFElement_new image_elf64_cut true 32 8 = Normal (mkElement 32 64 (Some 0) 8)
   /\ ELFElement_new image_elf64_cut true 54 2 = Normal (mkElement 54 56 None 2)
   /\ ELFElement_new image_elf64_cut true 56 2 = Normal (mkElement 56 1 None 2)
   /\ byteLength image_elf64_cut <
        Get32BitValue true (mkElement 32 64 (Some 0) 8)
        + Get32BitValue true (mkElement 56 1 None 2)
          * Get32BitValue true (mkElement 54 56 None 2)
   /\ ELFFile_load 0 image_elf64_cut = Throws RangeError)
  /\ (byteLength image_elf64_far_offset = 64
      /\ ELFElement_new image_elf64_far_offset true 32 8
         = Normal (mkElement 32 64 (Some 1) 8)
      /\ byteLength image_elf64_far_offset < (64 + 2 ^ 32 * 1) + 0 * 56
      /\ fst <$> ELFFile_load 0 image_elf64_far_offset = Normal OK).
Proof. vm_compute. repeat split; reflexivity. Qed.




Lemma ceil_of_exact_quotient a b :
  0 < b -> (b | a) -> (a + b - 1) / b = a / b.
Proof.
  intros Hb [c ->]. rewrite Z.div_mul by lia.
  replace (c * b + b - 1) with (c * b + (b - 1)) by lia.
  rewrite Z.div_add_l by lia. rewrite Z.div_small by lia. lia.
Qed.

(** C10, as the code has it: the loop of [ELFSymbolTable.load] runs for
    every integer [i >= 0] below the quotient [Sh_Size / Sh_Entsize], which
    JavaScript does not round.  With [Sh_Entsize > 0] and every visited
    entry inside the buffer the load terminates and builds exactly the
    quotient rounded up entries, which is [Sh_Size / Sh_Entsize] when the
    entry size divides the size.  Nothing guards a zero entry size: with
    [Sh_Entsize = 0], [Sh_Size > 0] and a readable entry at [Sh_Offset],
    the loop never ends, whatever fuel it is given. *)
Theorem ELFSymbolTable_load_entry_count buf h sec :
  let le := littleEndian h in
  let size := Get32BitValue le (Sh_Size sec) in
  let entsize := Get32BitValue le (Sh_Entsize sec) in
  let off := Get32BitValue le (Sh_Offset sec) in
  (0 < entsize -> entries_in_bounds buf h sec ->
     ((entsize | size) -> (size + entsize - 1) / entsize = size / entsize)
     /\ forall fuel, (Z.to_nat ((size + entsize - 1) / entsize) <= fuel)%nat ->
          exists tab,
            ELFSymbolTable_load fuel buf h sec = Normal tab
            /\ length (symTabEntries tab) = Z.to_nat ((size + entsize - 1) / entsize))
  /\ (entsize = 0 -> 0 < size -> 0 <= off -> off + symbol_entry_size h <= byteLength buf ->
      forall fuel, ELFSymbolTable_load fuel buf h sec = NoFuel).
Proof.
  intros le size entsize off. split.
  - intros Hpos Hin. split; [apply ceil_of_exact_quotient; done |].
    intros fuel Hfuel.
    destruct (ELFSymbolTable_load_positive buf h sec Hpos Hin fuel Hfuel)
      as [tab [Htab [_ Hlen]]].
    exists tab. done.
  - intros Hzero Hsize Hlo Hhi fuel. unfold ELFSymbolTable_load.
    fold le size entsize. unfold js_div. rewrite Hzero. simpl.
    assert ((size =? 0) = false) as -> by (apply Z.eqb_neq; lia).
    rewrite (symTab_loop_zero_entsize buf h sec Hzero Hlo Hhi). done.
Qed.

Lemma ELFSymbolTable_load_entry_count_witness :
  (exists h sec,
     ELFHeader_load image_symtab_24_16 = Normal (Some h)
     /\ loadSectionHeaderTables image_symtab_24_16 h = Normal (OK, [sec])
     /\ exists tab,
          ELFSymbolTable_load 2 image_symtab_24_16 h sec = Normal tab
          /\ length (symTabEntries tab) = 2%nat)
  /\ (exists h sec,
       ELFHeader_load image_symtab_entsize_0 = Normal (Some h)
       /\ loadSectionHeaderTables image_symtab_entsize_0 h = Normal (OK, [sec])
       /\ forall fuel, ELFSymbolTable_load fuel image_symtab_entsize_0 h sec = NoFuel).
Proof.
  split.
  - eexists _, _. split; [vm_compute; reflexivity |]. split; [vm_compute; reflexivity |].
    refine (proj2 (proj1 (ELFSymbolTable_load_entry_count image_symtab_24_16 _ _) _ _)
              2%nat _).
    + vm_compute; reflexivity.
    + intros i Hi. unfold symbol_entry_size.
      change (byteLength image_symtab_24_16) with 4096.
      cbn [littleEndian isELF64 class_is_ELF64 E_ident_class value Sh_Entsize Sh_Size
           Sh_Offset Get32BitValue valueSizeInBytes Z.leb Z.eqb Z.compare Pos.compare
           Pos.compare_cont Pos.eqb].
      lia.
    + vm_compute; lia.
  - eexists _, _. split; [vm_compute; reflexivity |]. split; [vm_compute; reflexivity |].
    apply (proj2 (ELFSymbolTable_load_entry_count image_symtab_entsize_0 _ _));
      vm_compute; congruence.
Defined.

(** C10 as stated fails on a size that is not a multiple of the entry
    size: with [sh_size = 24] and [sh_entsize = 16] the load builds two
    entries, and 24 / 16 rounded down is one. *)
Lemma symbol_count_rounds_up :
  (fun '(r, f) => (r, symbol_table_shape f)) <$> ELFFile_load 2 image_symtab_24_16
    = Normal (OK, [(24, 16, 2%nat)])
  /\ 24 / 16 = 1.
Proof. vm_compute. split; reflexivity. Qed.

End ELFClaims.

(** * Properties of the breakpoint registry and the command queue *)

Section RegistryClaims.

Variable normalizePath : string -> string.
Variable basename : string -> string.

Lemma verifyBreakpoints_registry filePath rt :
  _breakPoints (verifyBreakpoints normalizePath basename filePath rt) = _breakPoints rt
  /\ _breakpointId (verifyBreakpoints normalizePath basename filePath rt) = _breakpointId rt
  /\ stdin (verifyBreakpoints normalizePath basename filePath rt) = stdin rt.
Proof.
  unfold verifyBreakpoints.
  destruct (_breakPoints rt !! normalizePath filePath) as [bps|]; [| done].
  induction bps as [|bp bps IH] using rev_ind; [done |].
  rewrite fold_left_app. simpl. destruct (verified bp); [done |]. apply IH.
Qed.

Lemma setBreakPoint_spec filePath line_ rt bp rt' :
  setBreakPoint normalizePath basename filePath line_ rt = (bp, rt') ->
  bp = mkBreakpoint (_breakpointId rt) line_ false
  /\ _breakpointId rt' = _breakpointId rt + 1
  /\ _breakPoints rt'
     = <[normalizePath filePath :=
           default [] (_breakPoints rt !! normalizePath filePath) ++ [bp]]> (_breakPoints rt).
Proof.
  unfold setBreakPoint. cbv zeta. intros [= <- <-].
  match goal with
  | |- context [verifyBreakpoints _ _ ?f ?r] =>
      destruct (verifyBreakpoints_registry f r) as (-> & -> & _)
  end.
  done.
Qed.

(** The breakpoints a run of calls returns take the counter's successive
    values and are appended, each to the array of its file. *)
Lemma setBreakPoints_spec calls : forall rt bps rt',
  setBreakPoints normalizePath basename calls rt = (bps, rt') ->
  map id bps = seqZ (_breakpointId rt) (Z.of_nat (length calls))
  /\ _breakpointId rt' = _breakpointId rt + Z.of_nat (length calls)
  /\ forall f,
       default [] (_breakPoints rt' !! f)
       = default [] (_breakPoints rt !! f)
         ++ map snd (filter (fun cb => normalizePath (fst (fst cb)) = f) (zip calls bps)).
Proof.
  induction calls as [|[filePath line_] calls IH]; intros rt bps rt'.
  - simpl. intros [= <- <-]. split; [done |]. split; [lia |]. intros f.
    rewrite app_nil_r. done.
  - unfold setBreakPoints; fold (setBreakPoints normalizePath basename).
    destruct (setBreakPoint normalizePath basename filePath line_ rt) as [bp rt1] eqn:Hone.
    apply setBreakPoint_spec in Hone as (Hbp & Hnext & Hreg).
    destruct (setBreakPoints normalizePath basename calls rt1) as [bps2 rt2] eqn:Hrest.
    apply IH in Hrest as (Hids & Hnext2 & Hreg2).
    simpl. intros [= <- <-].
    split; [| split].
    + simpl. rewrite Hids, Hnext.
      rewrite (seqZ_cons (_breakpointId rt)) by lia.
      rewrite Hbp. simpl. do 2 f_equal; lia.
    + lia.
    + intros f. rewrite Hreg2, Hreg. simpl. rewrite filter_cons. simpl.
      destruct (decide (normalizePath filePath = f)) as [<- | Hne].
      * rewrite lookup_insert_eq. simpl. rewrite <- app_assoc. done.
      * rewrite lookup_insert_ne by done. done.
Qed.

Lemma seqZ_increasing m n i j x y :
  seqZ m n !! i = Some x -> seqZ m n !! j = Some y -> (i < j)%nat -> x < y.
Proof.
  intros Hi Hj Hlt. apply lookup_seqZ in Hi, Hj. lia.
Qed.

Lemma seqZ_NoDup m n : NoDup (seqZ m n).
Proof.
  apply NoDup_alt. intros i j x Hi Hj. apply lookup_seqZ in Hi, Hj. lia.
Qed.

(** C9: for every list of [N] calls, on whatever files, [setBreakPoint]
    returns [N] breakpoints whose ids are the successive values of the
    session's counter: strictly increasing in call order, hence pairwise
    different whatever the files, and each breakpoint is stored in the array
    of its own file. *)
Theorem setBreakPoint_ids_increasing_and_unique calls rt :
  let '(bps, rt') := setBreakPoints normalizePath basename calls rt in
  length bps = length calls
  /\ map id bps = seqZ (_breakpointId rt) (Z.of_nat (length calls))
  /\ (forall i j bi bj,
        bps !! i = Some bi -> bps !! j = Some bj -> (i < j)%nat -> id bi < id bj)
  /\ NoDup (map id bps)
  /\ (forall f,
        default [] (_breakPoints rt' !! f)
        = default [] (_breakPoints rt !! f)
          ++ map snd (filter (fun cb => normalizePath (fst (fst cb)) = f) (zip calls bps))).
Proof.
  destruct (setBreakPoints normalizePath basename calls rt) as [bps rt'] eqn:Hcalls.
  apply setBreakPoints_spec in Hcalls as (Hids & _ & Hreg).
  split; [| split; [done | split; [| split; [| done]]]].
  - rewrite <- (length_map id bps), Hids, length_seqZ. lia.
  - intros i j bi bj Hi Hj Hlt.
    apply (seqZ_increasing (_breakpointId rt) (Z.of_nat (length calls)) i j); [| | done].
    + rewrite <- Hids, list_lookup_fmap, Hi. done.
    + rewrite <- Hids, list_lookup_fmap, Hj. done.
  - rewrite Hids. apply seqZ_NoDup.
Qed.

Lemma clearBreakpoints_spec filePath rt :
  let rt' := clearBreakpoints normalizePath filePath rt in
  _commandQueue rt'
  = _commandQueue rt
    ++ map (fun bp => mkJob ("Delete " ++ pretty (id bp)) ExpectPrompt ResolveCleared)
         (default [] (_breakPoints rt !! normalizePath filePath))
  /\ _breakPoints rt' = _breakPoints rt
  /\ stdin rt' = stdin rt.
Proof.
  unfold clearBreakpoints.
  induction (default [] (_breakPoints rt !! normalizePath filePath)) as [|bp bps IH]
    using rev_ind.
  - simpl. rewrite app_nil_r. done.
  - rewrite fold_left_app, map_app. simpl. destruct IH as (IHq & IHr & IHs).
    rewrite IHq, IHr, IHs, <- app_assoc. done.
Qed.

Lemma length_filter_line_mark_verified line_ bp_id (bps : list MDBBreakpoint) :
  length (filter (fun bp => line_ <= line bp) (map (mark_verified bp_id) bps))
  = length (filter (fun bp => line_ <= line bp) bps).
Proof.
  induction bps as [|bp bps IH]; [done |]. simpl. rewrite !filter_cons.
  assert (line (mark_verified bp_id bp) = line bp) as ->
      by (unfold mark_verified; destruct (id bp =? bp_id); done).
  destruct (decide (line_ <= line bp)); simpl; rewrite IH; done.
Qed.

(** No callback removes a breakpoint: running a job leaves as many
    breakpoints on or after a line as there were. *)
Lemma queue_step_getBreakpoints filePath line_ rt :
  length (getBreakpoints normalizePath filePath line_ (queue_step rt))
  = length (getBreakpoints normalizePath filePath line_ rt).
Proof.
  unfold queue_step. destruct (queueStarted rt); [| done].
  destruct (_commandQueue rt) as [|job rest]; [done |].
  destruct (callback job); destruct rest; unfold getBreakpoints; simpl; try done.
  all: rewrite lookup_fmap;
    destruct (_breakPoints rt !! normalizePath filePath); simpl; [| done];
    apply length_filter_line_mark_verified.
Qed.

Lemma queue_drain_getBreakpoints filePath line_ n : forall rt,
  length (getBreakpoints normalizePath filePath line_ (queue_drain n rt))
  = length (getBreakpoints normalizePath filePath line_ rt).
Proof.
  induction n as [|n IH]; intros rt; simpl; [done |].
  rewrite IH. apply queue_step_getBreakpoints.
Qed.

(** C1, what the code does: [clearBreakpoints(file)] pushes exactly one
    [Delete] command per breakpoint registered for the file, and leaves the
    registry as it was; whatever the queue then runs, [getBreakpoints(file,
    0)] returns as many breakpoints as before the call, not an empty
    collection. *)
Theorem clearBreakpoints_keeps_registry filePath rt n :
  let fileBreakpoints := default [] (_breakPoints rt !! normalizePath filePath) in
  let rt' := clearBreakpoints normalizePath filePath rt in
  _commandQueue rt'
  = _commandQueue rt
    ++ map (fun bp => mkJob ("Delete " ++ pretty (id bp)) ExpectPrompt ResolveCleared)
         fileBreakpoints
  /\ length (getBreakpoints normalizePath filePath 0 (queue_drain n (process rt')))
     = length (getBreakpoints normalizePath filePath 0 rt).
Proof.
  intros fileBreakpoints rt'.
  destruct (clearBreakpoints_spec filePath rt) as (Hq & Hr & _). fold rt' in Hq, Hr.
  split; [exact Hq |].
  rewrite queue_drain_getBreakpoints. unfold getBreakpoints, process. simpl.
  rewrite Hr. done.
Qed.

End RegistryClaims.

Lemma setBreakPoint_ids_increasing_and_unique_witness :
  let calls := [("main.c"%string, 10); ("isr.c"%string, 4); ("main.c"%string, 12)] in
  let '(bps, rt) := setBreakPoints (fun p => p) (fun p => p) calls new_MDBRuntime in
  length bps = 3%nat /\ map id bps = [1; 2; 3] /\ NoDup (map id bps).
Proof.
  pose proof (setBreakPoint_ids_increasing_and_unique (fun p => p) (fun p => p)
                [("main.c"%string, 10); ("isr.c"%string, 4); ("main.c"%string, 12)]
                new_MDBRuntime) as H.
  cbv zeta.
  destruct (setBreakPoints _ _ _ _) as [bps rt].
  destruct H as (Hlen & Hids & _ & Hnodup & _).
  split; [exact Hlen |]. split; [exact Hids | exact Hnodup].
Defined.

(** A breakpoint set at [main.c:10] in a new session is still registered
    after [clearBreakpoints("main.c")] and after the queue has run the
    [Break] and the [Delete] command. *)
Lemma clearBreakpoints_example :
  let rt := snd (setBreakPoint (fun p => p) (fun p => p) "main.c" 10 new_MDBRuntime) in
  let rt := queue_drain 2 (process (clearBreakpoints (fun p => p) "main.c" rt)) in
  _commandQueue rt = []
  /\ stdin rt = [("Break main.c:10" ++ LF)%string; ("Delete 1" ++ LF)%string]
  /\ getBreakpoints (fun p => p) "main.c" 0 rt = [mkBreakpoint 1 10 true].
Proof. vm_compute. done. Qed.

(** * Properties of start *)

Section SessionClaims.

Variable normalizePath : string -> string.
Variable basename : string -> string.

Lemma fold_executeRawCommand (f : string -> string) cmds : forall rt,
  let rt' := fold_left (fun rt c => executeRawCommand (f c) rt) cmds rt in
  stdin rt' = stdin rt ++ map (fun c => (f c ++ LF)%string) cmds
  /\ _commandQueue rt' = _commandQueue rt.
Proof.
  induction cmds as [|c cmds IH]; intros rt; simpl.
  - rewrite app_nil_r. done.
  - destruct (IH (executeRawCommand (f c) rt)) as [Hin Hq]. rewrite Hin, Hq. simpl.
    rewrite <- app_assoc. done.
Qed.

Lemma processElfFile_keeps_commands fuel elfBytes rt rt' :
  processElfFile fuel elfBytes rt = Normal rt' ->
  stdin rt' = stdin rt /\ _commandQueue rt' = _commandQueue rt.
Proof.
  unfold processElfFile.
  destruct (ELFFile_load fuel elfBytes) as [[result elfFile] | |]; simpl; try done.
  destruct (elfSymbolTables elfFile); [done |].
  destruct (elfHeader elfFile); [| done]. intros [= <-]. done.
Qed.

(** With [stopOnEntry], a [start] that gets through writes the tool
    settings, [Device], [Hwtool] and [Program], and nothing else: no step
    command and no [Run]; the queue holds what [verifyBreakpoints] put
    there. *)
Lemma start_stopOnEntry_commands fuel config args elfBytes rt rt' :
  start normalizePath basename fuel config args elfBytes rt = Normal rt' ->
  stopOnEntry args = true ->
  stdin rt'
  = stdin rt
    ++ map (fun c => (("Set " ++ c ++ LF) ++ LF)%string) (toolConfiguration args)
    ++ [(("Device " ++ chip config) ++ LF)%string; (("Hwtool " ++ tool config) ++ LF)%string;
        (("Program " ++ DQUOTE ++ program args ++ DQUOTE) ++ LF)%string]
  /\ _commandQueue rt'
     = _commandQueue (verifyBreakpoints normalizePath basename EmptyString rt).
Proof.
  unfold start. intros Hstart Hentry. rewrite Hentry in Hstart.
  destruct (processElfFile _ _ _) as [rt1 | |] eqn:Helf; simpl in Hstart; try done.
  injection Hstart as <-.
  apply processElfFile_keeps_commands in Helf as [Hin Hq].
  match type of Hin with
  | _ = stdin (fold_left _ ?cmds ?r) =>
      destruct (fold_executeRawCommand (fun c => ("Set " ++ c ++ LF)%string) cmds r)
        as [Hin' Hq']
  end.
  destruct (verifyBreakpoints_registry normalizePath basename EmptyString rt)
    as (_ & _ & Hv).
  simpl in *. rewrite Hin, Hq, Hin', Hq', Hv. split; [| done].
  rewrite <- !app_assoc. done.
Qed.

(** C6, what the code does: [continue()] pushes a [Run] command and starts
    the queue; [step()] only starts the queue: it pushes no command and
    writes nothing to the subprocess.  So a [start] with [stopOnEntry] that
    gets through has written the tool settings, [Device], [Hwtool] and
    [Program] and no step command (nor [Run]), and has pushed nothing on the
    queue after [verifyBreakpoints]. *)
Theorem step_submits_no_command fuel config args elfBytes event rt rt' :
  (_commandQueue (continue rt)
   = _commandQueue rt ++ [mkJob "Run" (ExpectString "Running") NoCallback]
   /\ _commandQueue (step event rt) = _commandQueue rt
   /\ stdin (step event rt) = stdin rt)
  /\ (start normalizePath basename fuel config args elfBytes rt = Normal rt' ->
      stopOnEntry args = true ->
      stdin rt'
      = stdin rt
        ++ map (fun c => (("Set " ++ c ++ LF) ++ LF)%string) (toolConfiguration args)
        ++ [(("Device " ++ chip config) ++ LF)%string;
            (("Hwtool " ++ tool config) ++ LF)%string;
            (("Program " ++ DQUOTE ++ program args ++ DQUOTE) ++ LF)%string]
      /\ _commandQueue rt'
         = _commandQueue (verifyBreakpoints normalizePath basename EmptyString rt)).
Proof.
  split; [done |]. apply start_stopOnEntry_commands.
Qed.

(** C7, what the code does: [processElfFile] does not look at the result of
    [load] and reads [elfSymbolTables[0].symTabEntries]; whenever [load]
    returned without a symbol table, as it does when it stops with
    [INVALID_ELF] at the header or at the program or section header tables,
    that read throws a [TypeError] and [start] fails with it. *)
Theorem start_fails_without_symbol_table fuel config args elfBytes rt result elfFile :
  ELFFile_load fuel elfBytes = Normal (result, elfFile) ->
  elfSymbolTables elfFile = [] ->
  processElfFile fuel elfBytes rt = Throws TypeError
  /\ start normalizePath basename fuel config args elfBytes rt = Throws TypeError.
Proof.
  intros Hload Hnone.
  assert (forall rt0, processElfFile fuel elfBytes rt0 = Throws TypeError) as Hthrow.
  { intros rt0. unfold processElfFile. rewrite Hload. simpl. rewrite Hnone. done. }
  split; [apply Hthrow |]. unfold start. rewrite Hthrow. done.
Qed.

(** The case of the bounds check on the program header table: [load]
    returns [INVALID_ELF] and [start] fails. *)
Lemma start_fails_on_program_headers_out_of_bounds fuel config args elfBytes rt h :
  ELFHeader_load elfBytes = Normal (Some h) ->
  byteLength elfBytes <
    Get32BitValue (littleEndian h) (E_PhOff h)
    + Get32BitValue (littleEndian h) (E_Phnum h)
      * Get32BitValue (littleEndian h) (E_Phentsize h) ->
  fst <$> ELFFile_load fuel elfBytes = Normal INVALID_ELF
  /\ start normalizePath basename fuel config args elfBytes rt = Throws TypeError.
Proof.
  intros Hheader Hbeyond. apply Z.ltb_lt in Hbeyond.
  unfold start, processElfFile, ELFFile_load. rewrite Hheader. simpl.
  unfold loadProgramHeaderTables, table_out_of_bounds.
  rewrite Hbeyond, orb_true_r. done.
Qed.

End SessionClaims.

Lemma start_fails_without_symbol_table_witness :
  fst <$> ELFFile_load 0 image_ph_beyond_end = Normal INVALID_ELF
  /\ start (fun p => p) (fun p => p) 0 (mkConfig "PICkit3" "PIC32MX470F512H" "mdb.sh" 30000)
       (mkLaunch "firmware.elf" false []) image_ph_beyond_end new_MDBRuntime
     = Throws TypeError.
Proof.
  split; [vm_compute; reflexivity |].
  refine (proj2 (start_fails_without_symbol_table (fun p => p) (fun p => p) 0 _ _
                   image_ph_beyond_end new_MDBRuntime INVALID_ELF _ _ _)).
  - vm_compute; reflexivity.
  - vm_compute; reflexivity.
Defined.

(** [start] with [stopOnEntry] on a loadable image: three commands are
    written, none of them a step, and the queue is empty. *)
Lemma step_submits_no_command_witness :
  exists rt',
    start (fun p => p) (fun p => p) 2 (mkConfig "PICkit3" "PIC32MX470F512H" "mdb.sh" 30000)
      (mkLaunch "firmware.elf" true []) image_symtab_24_16 new_MDBRuntime
    = Normal rt'
    /\ stdin rt'
       = [("Device PIC32MX470F512H" ++ LF)%string; ("Hwtool PICkit3" ++ LF)%string;
          ("Program " ++ DQUOTE ++ "firmware.elf" ++ DQUOTE ++ LF)%string]
    /\ _commandQueue rt' = [].
Proof.
  eexists. split; [vm_compute; reflexivity |].
  refine (proj2 (step_submits_no_command (fun p => p) (fun p => p) 2
                   (mkConfig "PICkit3" "PIC32MX470F512H" "mdb.sh" 30000)
                   (mkLaunch "firmware.elf" true []) image_symtab_24_16 "stopOnEntry"
                   new_MDBRuntime _) _ _).
  - vm_compute; reflexivity.
  - reflexivity.
Defined.

(** * Properties of the waits on the subprocess's output *)

Section WaitClaims.

(** The interval callback touches the countdown and the promise, never the
    listeners of the stream. *)
Lemma interval_tick_keeps_listeners w out :
  listeners (interval_tick w out) = listeners out.
Proof.
  unfold interval_tick. destruct (waits out !! w) as [wait|]; [| done].
  destruct (intervalId wait); done.
Qed.

(** A wait whose countdown reaches zero is rejected. *)
Lemma interval_tick_rejects w out wait :
  waits out !! w = Some wait -> intervalId wait = true -> settled wait = None ->
  timeLeft wait <= 1 ->
  (fun x => (settled x, intervalId x)) <$> waits (interval_tick w out) !! w
  = Some (Some RejectedOnTimeout, false).
Proof.
  intros Hw Hint Hset Hleft. unfold interval_tick. rewrite Hw, Hint. simpl.
  assert ((timeLeft wait - 1 <=? 0) = true) as -> by (apply Z.leb_le; lia).
  rewrite list_lookup_insert_eq by (apply lookup_lt_Some in Hw; done).
  unfold settle. simpl. rewrite Hset. done.
Qed.

(** C2, what the code does on the timeout path.  The interval callback
    never detaches a listener.  A wait for [Running] with a budget of one
    tick is rejected by the first tick, and its listener stays attached.
    A later, unrelated wait for the prompt is then made; the chunk that
    answers it reaches both listeners: the new wait resolves, and the
    abandoned listener matches the same chunk and only then takes itself
    off the stream. *)
Theorem timeout_leaves_listener_attached :
  (forall w out, listeners (interval_tick w out) = listeners out)
  /\
  let '(w1, out1) := waitForStdOut (PString "Running") 1 new_Stdout in
  let out2 := interval_tick w1 out1 in
  let '(w2, out3) := waitForStdOut (PString ">") 30000 out2 in
  let out4 := emit_data "Running >" out3 in
  settled <$> waits out2 !! w1 = Some (Some RejectedOnTimeout)
  /\ listeners out2 = [w1]
  /\ listeners out3 = [w1; w2]
  /\ settled <$> waits out4 !! w2 = Some (Some (Resolved "Running >"))
  /\ settled <$> waits out4 !! w1 = Some (Some RejectedOnTimeout)
  /\ listeners out4 = []
  /\ listeners (emit_data ">" out3) = [w1].
Proof.
  split; [apply interval_tick_keeps_listeners |].
  vm_compute. repeat split; reflexivity.
Qed.

End WaitClaims.

(** * Properties of the stop-event parser *)

Section ParserClaims.

(** C5, what the code does on [stop_chunk], the first chunk of a stop
    notification, with the marker, the address and the file and not yet
    the source line.  The marker message is put in the buffer twice, the field pattern then matches four times (address and
    file, twice each), and three matches are enough for the parser: it
    emits a [STOP_AT] event that has the address, read as a hexadecimal
    number, and the file, and no source line. *)
Theorem parseStdOutMessage_fires_without_line :
  let '(rt, event) := parseStdOutMessage (fun p => p) stop_chunk new_MDBRuntime in
  match_all field_regex (replace_char LF_char [] (chars (stop_chunk ++ stop_chunk)))
  = ["address:0x9D001234"; "file:/src/main.c"; "address:0x9D001234"; "file:/src/main.c"]%string
  /\ data_eventType <$> event = Some (Some STOP_AT)
  /\ (fun e => map_to_list (fields e)) <$> event
     = Some [("address"%string, EvNumber (Some 2634027572));
             ("file"%string, EvString "/src/main.c")]
  /\ (fun e => fields e !! "line"%string) <$> event = Some None
  /\ sentEvents rt
     = [stopOnException
          (mkEventData
             (<["file"%string := EvString "/src/main.c"]>
                (<["address"%string := EvNumber (Some 2634027572)]> ∅))
             (Some STOP_AT))].
Proof. vm_compute. repeat split; reflexivity. Qed.

(** The whole notification in one chunk gives the three fields, the source
    line read as a decimal number. *)
Lemma parseStdOutMessage_whole_notification :
  (fun e => map_to_list (fields e))
    <$> snd (parseStdOutMessage (fun p => p)
               (stop_chunk ++ "source line:12" ++ CRLF)%string new_MDBRuntime)
  = Some [("address"%string, EvNumber (Some 2634027572));
          ("file"%string, EvString "/src/main.c");
          ("line"%string, EvNumber (Some 12))].
Proof. vm_compute. reflexivity. Qed.

End ParserClaims.

(** * Properties of the matcher and of stack *)

Section MatcherFacts.

Implicit Types (r : regex) (s : list ascii) (c : captures).



Lemma take_prefix_by_length (s1 s2 : list ascii) :
  take (length (s1 ++ s2) - length s2) (s1 ++ s2) = s1.
Proof.
  rewrite length_app. replace (length s1 + length s2 - length s2)%nat with (length s1) by lia.
  apply take_app_length.
Qed.






End MatcherFacts.

Section StackClaims.













Lemma chars_app (a b : string) : chars (a ++ b) = chars a ++ chars b.
Proof. induction a as [|x a IH]; simpl; [done | by rewrite IH]. Qed.












End StackClaims.


(** * More about the ELF reader *)

Section ELFValues.

Implicit Types (buf : ArrayBuffer) (h : ELFHeader) (sec : ELFSectionHeaderTable).

Lemma byte_val_range b : 0 <= byte_val b < 256.
Proof. unfold byte_val. pose proof (Byte.to_N_bounded b). lia. Qed.

Lemma be_value_range (bs : list Byte.byte) : forall acc k,
  0 <= k -> 0 <= acc < 256 ^ k ->
  0 <= fold_left (fun acc b => acc * 256 + byte_val b) bs acc
    < 256 ^ (k + Z.of_nat (length bs)).
Proof.
  induction bs as [|b bs IH]; intros acc k Hk Hacc; simpl.
  - rewrite Z.add_0_r. done.
  - pose proof (byte_val_range b) as Hb.
    replace (k + Z.of_nat (S (length bs))) with (Z.succ k + Z.of_nat (length bs)) by lia.
    apply IH; [lia |]. rewrite Z.pow_succ_r by done. lia.
Qed.

Lemma getUint_Normal n buf off le v :
  getUint n buf off le = Normal v ->
  0 <= off /\ off + Z.of_nat n <= byteLength buf /\ 0 <= v < 256 ^ Z.of_nat n.
Proof.
  unfold getUint.
  destruct ((0 <=? off) && (off + Z.of_nat n <=? byteLength buf)) eqn:Hin; [| done].
  apply andb_true_iff in Hin as [Hlo Hhi]. apply Z.leb_le in Hlo, Hhi.
  intros [= <-]. split; [done |]. split; [done |].
  set (bs := take n (drop (Z.to_nat off) buf)).
  assert (length bs = n) as Hlen.
  { unfold bs. rewrite length_take, length_drop. unfold byteLength in Hhi. lia. }
  assert (length (if le then rev bs else bs) = n) as Hlen'.
  { destruct le; [rewrite length_rev |]; done. }
  pose proof (be_value_range (if le then rev bs else bs) 0 0) as Hr.
  rewrite Hlen' in Hr. simpl in Hr. apply Hr; lia.
Qed.

Lemma ELFElement_new_Normal buf le off size e :
  ELFElement_new buf le off size = Normal e ->
  offset e = off /\ valueSizeInBytes e = size
  /\ 0 <= value e < 2 ^ 32
  /\ (size = 1 \/ size = 2 \/ size = 4 \/ size = 8 ->
      0 <= off /\ off + size <= byteLength buf)
  /\ (size = 1 \/ size = 2 \/ size = 4 -> value e < 256 ^ size)
  /\ match value2 e with
     | Some v2 => size = 8 /\ 0 <= v2 < 2 ^ 32
     | None => size <> 8
     end.
Proof.
  unfold ELFElement_new, getUint8, getUint16, getUint32.
  destruct (size =? 1) eqn:H1; [apply Z.eqb_eq in H1 | apply Z.eqb_neq in H1].
  { destruct (getUint 1 buf off false) as [v| |] eqn:Hv; simpl; [| done | done].
    intros [= <-]. apply getUint_Normal in Hv. simpl. subst size.
    change (256 ^ Z.of_nat 1) with 256 in Hv. change (256 ^ 1) with 256.
    repeat split; try lia; try done. }
  destruct (size =? 2) eqn:H2; [apply Z.eqb_eq in H2 | apply Z.eqb_neq in H2].
  { destruct (getUint 2 buf off le) as [v| |] eqn:Hv; simpl; [| done | done].
    intros [= <-]. apply getUint_Normal in Hv. simpl. subst size.
    change (256 ^ Z.of_nat 2) with 65536 in Hv. change (256 ^ 2) with 65536.
    repeat split; try lia; try done. }
  destruct (size =? 4) eqn:H4; [apply Z.eqb_eq in H4 | apply Z.eqb_neq in H4].
  { destruct (getUint 4 buf off le) as [v| |] eqn:Hv; simpl; [| done | done].
    intros [= <-]. apply getUint_Normal in Hv. simpl. subst size.
    change (256 ^ Z.of_nat 4) with 4294967296 in Hv. change (256 ^ 4) with 4294967296.
    repeat split; try lia; try done. }
  destruct (size =? 8) eqn:H8; [apply Z.eqb_eq in H8 | apply Z.eqb_neq in H8].
  { destruct (getUint 4 buf off le) as [v| |] eqn:Hv; simpl; [| done | done].
    destruct (getUint 4 buf (off + 4) le) as [v2| |] eqn:Hv2; simpl; [| done | done].
    intros [= <-]. apply getUint_Normal in Hv, Hv2. simpl. subst size.
    change (256 ^ Z.of_nat 4) with 4294967296 in Hv, Hv2.
    repeat split; try lia; try done. }
  intros [= <-]. simpl. repeat split; try lia; try done.
Qed.

Lemma Get32BitValue_range buf le off size e :
  ELFElement_new buf le off size = Normal e -> 0 <= Get32BitValue le e < 2 ^ 32.
Proof.
  intros He. apply ELFElement_new_Normal in He as (_ & Hsize & Hv & _ & _ & H8).
  unfold Get32BitValue. destruct (valueSizeInBytes e <=? 4) eqn:Hle; [done |].
  destruct le; [done |].
  destruct (value2 e); simpl; lia.
Qed.

Lemma ELFElement_new_not_NoFuel buf le off size : ELFElement_new buf le off size <> NoFuel.
Proof.
  unfold ELFElement_new, getUint8, getUint16, getUint32, getUint.
  repeat case_match; simpl; done.
Qed.

End ELFValues.

Section ELFHeaders.

Implicit Types (buf : ArrayBuffer) (h : ELFHeader) (sec : ELFSectionHeaderTable).

(** The fields [ELFHeader.load] leaves in the header are elements it built
    from the buffer, the offsets with the width of the class. *)
Lemma ELFHeader_load_fields buf h :
  ELFHeader_load buf = Normal (Some h) ->
  52 <= byteLength buf
  /\ ELFElement_new buf false 4 1 = Normal (E_ident_class h)
  /\ (exists o, ELFElement_new buf (littleEndian h) o (if isELF64 h then 8 else 4)
                = Normal (E_PhOff h))
  /\ (exists o, ELFElement_new buf (littleEndian h) o (if isELF64 h then 8 else 4)
                = Normal (E_ShOff h))
  /\ (exists o, ELFElement_new buf (littleEndian h) o 2 = Normal (E_Phentsize h))
  /\ (exists o, ELFElement_new buf (littleEndian h) o 2 = Normal (E_Phnum h))
  /\ (exists o, ELFElement_new buf (littleEndian h) o 2 = Normal (E_Shentsize h))
  /\ (exists o, ELFElement_new buf (littleEndian h) o 2 = Normal (E_Shnum h))
  /\ ELFElement_new buf (littleEndian h)
       (if isELF64 h then 62 else 50) 2 = Normal (E_Shstrndx h).
Proof.
  unfold ELFHeader_load.
  destruct (byteLength buf <? 52) eqn:Hlen; [done |]. apply Z.ltb_ge in Hlen.
  cbv zeta.
  destruct (ELFElement_new buf false 0 4) as [mag| |]; simpl; [| done | done].
  destruct (ELFElement_new buf false (0 + 4) 1) as [cls| |] eqn:Hcls; simpl; [| done | done].
  destruct (ELFElement_new buf false (0 + 4 + 1) 1) as [dat| |]; simpl; [| done | done].
  unfold isELF64.
  destruct (class_is_ELF64 cls) eqn:H64.
  all: repeat match goal with
  | |- context [ELFElement_new ?b ?l ?o ?sz] =>
      let e := fresh "e" in let He := fresh "He" in
      destruct (ELFElement_new b l o sz) as [e| |] eqn:He; simpl; [| done | done]
  end.
  all: intros [= <-]; simpl; rewrite H64.
  all: repeat split; eauto.
Qed.

End ELFHeaders.

Section ELFOutcomes.

Implicit Types (buf : ArrayBuffer) (h : ELFHeader) (sec : ELFSectionHeaderTable).


(** X2.  The three outcomes of [ELFHeader.load]: an image below 52 bytes
    is refused before anything is read; an image of 52 bytes or more whose
    class byte is not ELF64, or that has all 64 header bytes, gives a
    header with that class; an ELF64 image of 52 to 63 bytes ends in the
    [RangeError] of a read past the end. *)
Theorem ELFHeader_load_outcome buf :
  (byteLength buf < 52 -> ELFHeader_load buf = Normal None)
  /\ (52 <= byteLength buf ->
      forall cls, ELFElement_new buf false 4 1 = Normal cls ->
        (class_is_ELF64 cls = false \/ 64 <= byteLength buf ->
           exists h, ELFHeader_load buf = Normal (Some h) /\ E_ident_class h = cls)
        /\ (class_is_ELF64 cls = true -> byteLength buf < 64 ->
              ELFHeader_load buf = Throws RangeError)).
Proof.
  split.
  - intros Hlen. unfold ELFHeader_load.
    assert ((byteLength buf <? 52) = true) as -> by (apply Z.ltb_lt; done). done.
  - intros Hlen cls Hcls. split.
    + intros Hfull.
      destruct (ELFHeader_load_reads_header buf Hlen) as [h Hh].
      { intros cls' Hcls' H64. rewrite Hcls in Hcls'. injection Hcls' as <-.
        destruct Hfull; [congruence | done]. }
      exists h. split; [done |].
      apply ELFHeader_load_fields in Hh as (_ & Hc & _). congruence.
    + intros H64 Hcut. unfold ELFHeader_load.
      assert ((byteLength buf <? 52) = false) as -> by (apply Z.ltb_ge; done).
      cbv zeta. change (0 + 4) with 4. rewrite Hcls. 
      destruct (ELFElement_new buf false 0 4) as [mag| e |] eqn:Hmag; simpl.
      2: { pose proof (ELFElement_new_throws buf false 0 4) as Ht.
           rewrite Hmag in Ht. simpl in Ht. by subst. }
      2: { by apply ELFElement_new_not_NoFuel in Hmag. }
      rewrite H64.
      repeat match goal with
      | |- context [ELFElement_new ?b ?l ?o ?sz] =>
          let e := fresh "e" in let He := fresh "He" in
          destruct (ELFElement_new b l o sz) as [e| e |] eqn:He; simpl;
          [ | pose proof (ELFElement_new_throws b l o sz) as Ht;
              rewrite He in Ht; simpl in Ht; by subst
            | by apply ELFElement_new_not_NoFuel in He ]
      end.
      exfalso.
      match goal with
      | H : ELFElement_new _ _ (16 + 2 + 2 + 4 + 8 + 8 + 8 + 4 + 2 + 2 + 2 + 2 + 2) 2 = Normal _ |- _ =>
          apply ELFElement_new_Normal in H as (_ & _ & _ & Hfit & _)
      end.
      destruct Hfit as [_ Hfit]; [lia | lia].
Qed.

Lemma ELFHeader_load_outcome_witness :
  ELFHeader_load image_elf64_cut = Throws RangeError.
Proof.
  destruct (ELFHeader_load_outcome image_elf64_cut) as [_ Hlong].
  destruct (Hlong ltac:(vm_compute; discriminate) (mkElement 4 2 None 1)
              ltac:(vm_compute; reflexivity)) as [_ Hcut].
  apply Hcut; vm_compute; reflexivity.
Defined.

End ELFOutcomes.

Section ELFTables.

Implicit Types (buf : ArrayBuffer) (h : ELFHeader) (sec : ELFSectionHeaderTable).

Lemma load_each_Normal {A} (f : Z -> completion A) (count : nat) : forall start xs,
  load_each f count start = Normal xs ->
  length xs = count
  /\ forall i x, xs !! i = Some x -> f (start + Z.of_nat i) = Normal x.
Proof.
  induction count as [|count IH]; intros start xs; simpl.
  - intros [= <-]. split; [done |]. intros i x Hi. by rewrite lookup_nil in Hi.
  - destruct (f start) as [x0| |] eqn:Hx0; simpl; [| done | done].
    destruct (load_each f count (start + 1)) as [xs0| |] eqn:Hrest; simpl; [| done | done].
    intros [= <-]. destruct (IH _ _ Hrest) as [Hlen Hnth]. split; [simpl; lia |].
    intros [|i] x Hi; simpl in Hi.
    + injection Hi as <-. rewrite Z.add_0_r. done.
    + apply Hnth in Hi. rewrite <- Hi. f_equal. lia.
Qed.

Lemma ELFProgramHeaderTable_load_index buf h i a ph :
  ELFProgramHeaderTable_load buf h i a = Normal ph -> ph_headerIndex ph = i.
Proof.
  unfold ELFProgramHeaderTable_load. cbv zeta. destruct (isELF64 h).
  all: repeat match goal with
  | |- context [ELFElement_new ?b ?l ?o ?sz] =>
      destruct (ELFElement_new b l o sz) as [?| |]; simpl; [| done | done]
  end.
  all: by intros [= <-].
Qed.

Lemma ELFSectionHeaderTable_load_index buf h i a s :
  ELFSectionHeaderTable_load buf h i a = Normal s -> sh_headerIndex s = i.
Proof.
  unfold ELFSectionHeaderTable_load. cbv zeta.
  repeat match goal with
  | |- context [ELFElement_new ?b ?l ?o ?sz] =>
      destruct (ELFElement_new b l o sz) as [?| |]; simpl; [| done | done]
  end.
  by intros [= <-].
Qed.

Lemma loadSymbolTables_sections fuel buf h sections : forall r tabs,
  loadSymbolTables fuel buf h sections = Normal (r, tabs) ->
  map sectionTable tabs
  = filter (fun s => is_symbol_section (littleEndian h) s = true) sections.
Proof.
  induction sections as [|s rest IH]; intros r tabs; simpl.
  - by intros [= <- <-].
  - rewrite filter_cons. destruct (is_symbol_section (littleEndian h) s) eqn:Hs.
    + rewrite decide_True by done.
      unfold ELFSymbolTable_load.
      destruct (symTab_loop _ _ _ _ _ _ _) as [es| |]; simpl; [| done | done].
      destruct (loadSymbolTables fuel buf h rest) as [[r' tabs']| |]; simpl; [| done | done].
      intros [= <- <-]. simpl. f_equal. by eapply IH.
    + rewrite decide_False by done. apply IH.
Qed.

Lemma loadNoteTables_sections fuel buf h sections : forall tabs,
  loadNoteTables fuel buf h sections = Normal (OK, tabs) ->
  map note_sectionTable tabs
  = filter (fun s => Get32BitValue (littleEndian h) (Sh_Type s) = SHT_NOTE) sections.
Proof.
  induction sections as [|s rest IH]; intros tabs; simpl.
  - by intros [= <-].
  - rewrite filter_cons.
    destruct (Get32BitValue (littleEndian h) (Sh_Type s) =? SHT_NOTE) eqn:Hs.
    + apply Z.eqb_eq in Hs. rewrite decide_True by done.
      unfold ELFNoteTable_load.
      destruct (note_loop _ _ _ _ _ _ _) as [[r es]| |]; simpl; [| done | done].
      destruct r; simpl; [| done].
      destruct (loadNoteTables fuel buf h rest) as [[r' tabs']| |]; simpl; [| done | done].
      intros [= -> <-]. simpl. f_equal. by apply IH.
    + apply Z.eqb_neq in Hs. rewrite decide_False by done. apply IH.
Qed.

(** X3.  When [ELFFile.load] returns [OK], the file object holds exactly
    [e_phnum] program headers and [e_shnum] section headers, each with its
    position as [headerIndex], one symbol table per [SYMTAB] or [DYNSYM]
    section and one note table per [NOTE] section, in section order. *)
Theorem ELFFile_load_OK_tables fuel buf f :
  ELFFile_load fuel buf = Normal (OK, f) ->
  exists h,
    elfHeader f = Some h
    /\ ELFHeader_load buf = Normal (Some h)
    /\ length (elfProgramHeaderTables f)
       = Z.to_nat (Get32BitValue (littleEndian h) (E_Phnum h))
    /\ length (elfSectionHeaderTables f)
       = Z.to_nat (Get32BitValue (littleEndian h) (E_Shnum h))
    /\ (forall i ph, elfProgramHeaderTables f !! i = Some ph ->
          ph_headerIndex ph = Z.of_nat i)
    /\ (forall i s, elfSectionHeaderTables f !! i = Some s ->
          sh_headerIndex s = Z.of_nat i)
    /\ map sectionTable (elfSymbolTables f)
       = filter (fun s => is_symbol_section (littleEndian h) s = true)
           (elfSectionHeaderTables f)
    /\ map note_sectionTable (elfNoteTables f)
       = filter (fun s => Get32BitValue (littleEndian h) (Sh_Type s) = SHT_NOTE)
           (elfSectionHeaderTables f).
Proof.
  unfold ELFFile_load.
  destruct (ELFHeader_load buf) as [[h|]| |] eqn:Hh; simpl; [| done | done | done].
  destruct (loadProgramHeaderTables buf h) as [[r1 phs]| |] eqn:Hph; simpl; [| done | done].
  destruct r1; simpl; [| done].
  destruct (loadSectionHeaderTables buf h) as [[r2 shs]| |] eqn:Hsh; simpl; [| done | done].
  destruct r2; simpl; [| done].
  destruct (loadSymbolTables fuel buf h shs) as [[r3 syms]| |] eqn:Hsym; simpl;
    [| done | done].
  destruct r3; simpl; [| done].
  destruct (loadNoteTables fuel buf h shs) as [[r4 notes]| |] eqn:Hnote; simpl;
    [| done | done].
  intros [= -> <-]. simpl. exists h. split; [done |]. split; [done |].
  unfold loadProgramHeaderTables in Hph. unfold loadSectionHeaderTables in Hsh.
  destruct (table_out_of_bounds buf _ (E_PhOff h) _ _); [done |].
  destruct (table_out_of_bounds buf _ (E_ShOff h) _ _); [done |].
  destruct (load_each _ _ _) as [phs'| |] eqn:Hphs in Hph; simpl in Hph; [| done | done].
  destruct (load_each _ _ _) as [shs'| |] eqn:Hshs in Hsh; simpl in Hsh; [| done | done].
  injection Hph as <-. injection Hsh as <-.
  apply load_each_Normal in Hphs as [Hlen1 Hnth1].
  apply load_each_Normal in Hshs as [Hlen2 Hnth2].
  split; [done |]. split; [done |].
  split; [| split; [| split]].
  - intros i ph Hi. apply Hnth1 in Hi.
    apply ELFProgramHeaderTable_load_index in Hi. lia.
  - intros i s Hi. apply Hnth2 in Hi.
    apply ELFSectionHeaderTable_load_index in Hi. lia.
  - by eapply loadSymbolTables_sections.
  - by eapply loadNoteTables_sections.
Qed.

Lemma ELFFile_load_OK_tables_witness :
  exists f h,
    ELFFile_load 2 image_symtab_24_16 = Normal (OK, f)
    /\ elfHeader f = Some h
    /\ length (elfSectionHeaderTables f)
       = Z.to_nat (Get32BitValue (littleEndian h) (E_Shnum h))
    /\ length (elfSectionHeaderTables f) = 1%nat
    /\ length (elfSymbolTables f) = 1%nat.
Proof.
  destruct (ELFFile_load 2 image_symtab_24_16) as [[r f]| |] eqn:Hload;
    [| vm_compute in Hload; discriminate | vm_compute in Hload; discriminate].
  assert (r = OK) as -> by (vm_compute in Hload; congruence).
  destruct (ELFFile_load_OK_tables 2 image_symtab_24_16 f Hload)
    as (h & Hh & _ & _ & Hsh & _).
  exists f, h. split; [done |]. split; [done |]. split; [done |].
  vm_compute in Hload. injection Hload as <-. split; reflexivity.
Defined.

(** X4.  The bounds check on the section header table: once the header
    and the program headers are loaded, if [e_shoff + e_shnum * e_shentsize]
    (on the 32-bit values) exceeds the buffer length, [ELFFile.load]
    returns [INVALID_ELF], keeping the program headers and loading no
    section. *)
Theorem ELFFile_load_section_headers_out_of_bounds fuel buf h phs :
  ELFHeader_load buf = Normal (Some h) ->
  loadProgramHeaderTables buf h = Normal (OK, phs) ->
  byteLength buf <
    Get32BitValue (littleEndian h) (E_ShOff h)
    + Get32BitValue (littleEndian h) (E_Shnum h)
      * Get32BitValue (littleEndian h) (E_Shentsize h) ->
  ELFFile_load fuel buf = Normal (INVALID_ELF, mkELFFile (Some h) phs [] [] []).
Proof.
  intros Hheader Hph Hbeyond. unfold ELFFile_load. rewrite Hheader. simpl.
  rewrite Hph. simpl.
  unfold loadSectionHeaderTables, table_out_of_bounds.
  apply Z.ltb_lt in Hbeyond. rewrite Hbeyond, orb_true_r. done.
Qed.

(** X5.  A zero [e_phoff] is refused only for ELF64.  For an ELF32 header
    the second half of the offset is [undefined], [undefined == 0] is
    false, and [loadProgramHeaderTables] returns [INVALID_ELF] exactly when
    the table runs past the end of the buffer; for an ELF64 header with both
    halves zero it returns [INVALID_ELF]. *)
Theorem zero_table_offset_refused_only_for_ELF64 buf h :
  ELFHeader_load buf = Normal (Some h) ->
  (isELF64 h = false ->
     forall r phs, loadProgramHeaderTables buf h = Normal (r, phs) ->
       (r = INVALID_ELF <->
        byteLength buf <
          Get32BitValue (littleEndian h) (E_PhOff h)
          + Get32BitValue (littleEndian h) (E_Phnum h)
            * Get32BitValue (littleEndian h) (E_Phentsize h)))
  /\ (isELF64 h = true ->
      value (E_PhOff h) = 0 -> value2 (E_PhOff h) = Some 0 ->
      loadProgramHeaderTables buf h = Normal (INVALID_ELF, [])).
Proof.
  intros Hh. apply ELFHeader_load_fields in Hh as (_ & _ & [o Hoff] & _).
  split.
  - intros H32 r phs. rewrite H32 in Hoff.
    apply ELFElement_new_Normal in Hoff as (_ & _ & _ & _ & _ & H2).
    destruct (value2 (E_PhOff h)) as [v2|] eqn:Hv2; [lia |].
    unfold loadProgramHeaderTables, table_out_of_bounds. rewrite Hv2. simpl.
    rewrite andb_false_r. simpl.
    destruct (byteLength buf <? _) eqn:Hb.
    + apply Z.ltb_lt in Hb. intros [= <- <-]. done.
    + apply Z.ltb_ge in Hb.
      destruct (load_each _ _ _) as [tables| |]; simpl; [| done | done].
      intros [= <- <-]. split; [done | lia].
  - intros _ Hv Hv2. unfold loadProgramHeaderTables, table_out_of_bounds.
    rewrite Hv, Hv2. done.
Qed.

End ELFTables.

Section ELFStrings.

Implicit Types (buf : ArrayBuffer) (h : ELFHeader) (sec : ELFSectionHeaderTable).

Lemma until_nul_take (s tail : list Byte.byte) :
  Forall (fun b => byte_val b <> 0) s ->
  (tail = [] \/ exists post, tail = Byte.x00 :: post) ->
  forall m, until_nul (take m (s ++ tail)) = take m s.
Proof.
  intros Hs Htail. induction Hs as [|b s Hb Hs IH]; intros [|m]; simpl; try done.
  - destruct Htail as [-> | [post ->]]; done.
  - apply Z.eqb_neq in Hb. rewrite Hb. f_equal. apply IH.
Qed.

Lemma until_nul_length (bs : list Byte.byte) :
  (length (until_nul bs) <= length bs)%nat.
Proof. induction bs as [|b bs IH]; simpl; [done |]. case_match; simpl; lia. Qed.

Lemma until_nul_no_nul (bs : list Byte.byte) :
  Forall (fun b => byte_val b <> 0) (until_nul bs).
Proof.
  induction bs as [|b bs IH]; simpl; [done |].
  destruct (byte_val b =? 0) eqn:Hb; [done |]. apply Z.eqb_neq in Hb. by constructor.
Qed.

Lemma length_string_of_list_byte (bs : list Byte.byte) :
  String.length (string_of_list_byte bs) = length bs.
Proof. induction bs as [|b bs IH]; simpl; [done |]. by rewrite <- IH. Qed.

Lemma ReadByteString_length buf off max :
  Z.of_nat (String.length (ReadByteString buf off max)) <= Z.max 0 max.
Proof.
  unfold ReadByteString. rewrite length_string_of_list_byte.
  pose proof (until_nul_length (take (Z.to_nat max) (drop (Z.to_nat off) buf))) as Hl.
  rewrite length_take in Hl. lia.
Qed.

(** X6.  [ReadByteString] reads back a stored string: at the offset of a
    run [s] of non-zero bytes that is followed by a NUL or by the end of the
    buffer, it returns the first [strMaxLength] characters of [s], all of
    [s] when [strMaxLength] exceeds its length. *)
Theorem ReadByteString_reads_terminated_string (pre s tail : list Byte.byte) max :
  Forall (fun b => byte_val b <> 0) s ->
  (tail = [] \/ exists post, tail = Byte.x00 :: post) ->
  ReadByteString (pre ++ s ++ tail) (Z.of_nat (length pre)) max
  = string_of_list_byte (take (Z.to_nat max) s).
Proof.
  intros Hs Htail. unfold ReadByteString.
  rewrite Nat2Z.id, drop_app_length. by rewrite until_nul_take.
Qed.

End ELFStrings.

Section ELFNotes.

Implicit Types (buf : ArrayBuffer) (h : ELFHeader) (sec : ELFSectionHeaderTable).

Lemma getUint8_at buf off b :
  0 <= off -> buf !! Z.to_nat off = Some b -> getUint8 buf off = Normal (byte_val b).
Proof.
  intros Hoff Hb. unfold getUint8, getUint.
  pose proof (lookup_lt_Some _ _ _ Hb) as Hlt.
  assert ((0 <=? off) && (off + Z.of_nat 1 <=? byteLength buf) = true) as ->.
  { apply andb_true_iff. unfold byteLength. split; apply Z.leb_le; lia. }
  rewrite (drop_S _ _ _ Hb). simpl. unfold be_value. simpl. done.
Qed.

Lemma getUint8_beyond buf off :
  byteLength buf <= off -> getUint8 buf off = Throws RangeError.
Proof.
  intros Hoff. unfold getUint8, getUint.
  assert ((off + Z.of_nat 1 <=? byteLength buf) = false) as -> by (apply Z.leb_gt; lia).
  by rewrite andb_false_r.
Qed.

Lemma desc_loop_run buf d : forall fuel i curOff acc,
  0 <= curOff -> i < d -> (Z.to_nat (d - i) <= fuel)%nat ->
  desc_loop fuel buf d i curOff acc =
    if byteLength buf <? curOff then Normal (acc, curOff, true)
    else if curOff + (d - i) <=? byteLength buf then
      Normal (acc ++ map byte_val (take (Z.to_nat (d - i)) (drop (Z.to_nat curOff) buf)),
              curOff + (d - i), false)
    else Throws RangeError.
Proof.
  induction fuel as [|fuel IH]; intros i curOff acc Hoff Hi Hfuel; [lia |].
  simpl. assert ((i <? d) = true) as -> by (apply Z.ltb_lt; done).
  destruct (byteLength buf <? curOff) eqn:Hpast; [done |]. apply Z.ltb_ge in Hpast.
  destruct (Z.eq_dec curOff (byteLength buf)) as [Heq | Hne].
  - rewrite getUint8_beyond by lia. simpl.
    assert ((curOff + (d - i) <=? byteLength buf) = false) as -> by (apply Z.leb_gt; lia).
    done.
  - assert (Z.to_nat curOff < length buf)%nat as Hlt by (unfold byteLength in *; lia).
    destruct (lookup_lt_is_Some_2 buf _ Hlt) as [b Hb].
    rewrite (getUint8_at _ _ _ Hoff Hb). simpl.
    destruct (Z.eq_dec (i + 1) d) as [Hlast | Hmore].
    + destruct fuel; simpl; (assert ((i + 1 <? d) = false) as -> by (apply Z.ltb_ge; lia)).
      all: assert ((curOff + (d - i) <=? byteLength buf) = true) as ->
             by (apply Z.leb_le; lia).
      all: replace (d - i) with 1 by lia; rewrite (drop_S _ _ _ Hb); simpl; done.
    + rewrite IH by lia.
      assert ((byteLength buf <? curOff + 1) = false) as -> by (apply Z.ltb_ge; lia).
      replace (curOff + 1 + (d - (i + 1))) with (curOff + (d - i)) by lia.
      destruct (curOff + (d - i) <=? byteLength buf); [| done].
      rewrite <- app_assoc, (drop_S _ _ _ Hb).
      replace (Z.to_nat (d - i)) with (S (Z.to_nat (d - (i + 1)))) by lia.
      replace (Z.to_nat (curOff + 1)) with (S (Z.to_nat curOff)) by lia.
      done.
Qed.

(** X7.  The loop over a note's description bytes, started at [curOff]
    for [descsz > 0] bytes: it flags the note invalid only when [curOff] is
    already beyond the end of the buffer; it returns the [descsz] bytes when
    they all lie inside; and when the description starts inside (or at the
    end of) the buffer and runs past its end, the read at the end throws
    [RangeError]. *)
Theorem desc_loop_outcome fuel buf descsz curOff :
  0 <= curOff -> 0 < descsz -> (Z.to_nat descsz <= fuel)%nat ->
  desc_loop fuel buf descsz 0 curOff [] =
    if byteLength buf <? curOff then Normal ([], curOff, true)
    else if curOff + descsz <=? byteLength buf then
      Normal (map byte_val (take (Z.to_nat descsz) (drop (Z.to_nat curOff) buf)),
              curOff + descsz, false)
    else Throws RangeError.
Proof.
  intros Hoff Hd Hfuel. rewrite desc_loop_run by lia.
  rewrite Z.sub_0_r. done.
Qed.

Lemma desc_loop_terminates buf d : forall fuel i curOff acc,
  (Z.to_nat (byteLength buf - curOff) + 2 <= fuel)%nat ->
  match desc_loop fuel buf d i curOff acc with
  | Normal (_, off, _) => curOff <= off
  | Throws _ => True
  | NoFuel => False
  end.
Proof.
  induction fuel as [|fuel IH]; intros i curOff acc Hfuel; [lia |].
  simpl. destruct (i <? d); [| simpl; lia].
  destruct (byteLength buf <? curOff) eqn:Hpast; [simpl; lia |]. apply Z.ltb_ge in Hpast.
  destruct (getUint8 buf curOff) as [b| e |] eqn:Hb; simpl; [| done |].
  - apply getUint_Normal in Hb as (Hlo & Hhi & _).
    specialize (IH (i + 1) (curOff + 1) (acc ++ [b]) ltac:(lia)).
    destruct (desc_loop fuel buf d (i + 1) (curOff + 1) (acc ++ [b])) as [[[? ?] ?]| |];
      [lia | done | done].
  - unfold getUint8, getUint in Hb. by case_match.
Qed.

Lemma padding4_range v : 0 <= padding4 v < 4.
Proof. unfold padding4. apply Z.mod_pos_bound. lia. Qed.

Lemma note_loop_terminates buf le sec : forall fuel curOff result entries,
  (Z.to_nat (Get32BitValue le (Sh_Offset sec) + Get32BitValue le (Sh_Size sec) - curOff)
   + Z.to_nat (byteLength buf) + 2 <= fuel)%nat ->
  note_loop fuel buf le sec curOff result entries <> NoFuel.
Proof.
  induction fuel as [|fuel IH]; intros curOff result entries Hfuel; [lia |].
  simpl.
  destruct (curOff + 24 <=? _) eqn:Hgo; [| done]. apply Z.leb_le in Hgo.
  destruct (ELFElement_new buf le curOff 4) as [namesz| e |] eqn:Hn; simpl; [| done |].
  2: { by apply ELFElement_new_not_NoFuel in Hn. }
  destruct (ELFElement_new buf le (curOff + 4) 4) as [descsz| e |] eqn:Hd; simpl; [| done |].
  2: { by apply ELFElement_new_not_NoFuel in Hd. }
  destruct (ELFElement_new buf le (curOff + 4 + 4) 4) as [type| e |] eqn:Ht; simpl; [| done |].
  2: { by apply ELFElement_new_not_NoFuel in Ht. }
  pose proof (Get32BitValue_range _ _ _ _ _ Hn) as Hnr.
  apply ELFElement_new_Normal in Hn as (_ & _ & _ & Hfit & _). 
  destruct Hfit as [Hoff0 _]; [lia |].
  set (n := Get32BitValue le namesz) in *.
  set (dsz := Get32BitValue le descsz) in *.
  destruct ((0 <? n) && (byteLength buf <? curOff + 4 + 4 + 4 + n)); [done |].
  pose proof (padding4_range n) as Hpn. pose proof (padding4_range dsz) as Hpd.
  set (off1 := if 0 <? n then curOff + 4 + 4 + 4 + n + padding4 n else curOff + 4 + 4 + 4).
  assert (curOff + 12 <= off1) as Hoff1 by (unfold off1; destruct (0 <? n); lia).
  destruct (0 <? dsz).
  - pose proof (desc_loop_terminates buf dsz fuel 0 off1 [] ltac:(lia)) as Hdesc.
    destruct (desc_loop fuel buf dsz 0 off1 []) as [[[desc off2] inv]| e |]; simpl;
      [| done | done].
    apply IH. lia.
  - simpl. apply IH. lia.
Qed.

(** X8.  [ELFNoteTable.load] always finishes: every round of its loop
    moves [curOff] forward by at least 12 bytes, so a budget of
    [sh_size + byteLength + 2] steps is never used up, whatever the section
    and the buffer hold. *)
Theorem ELFNoteTable_load_terminates fuel buf h sec :
  (Z.to_nat (Get32BitValue (littleEndian h) (Sh_Size sec)) + length buf + 2 <= fuel)%nat ->
  ELFNoteTable_load fuel buf h sec <> NoFuel.
Proof.
  intros Hfuel. unfold ELFNoteTable_load.
  pose proof (note_loop_terminates buf (littleEndian h) sec fuel
                (Get32BitValue (littleEndian h) (Sh_Offset sec)) OK []) as Hloop.
  destruct (note_loop _ _ _ _ _ _ _) as [[r es]| e |]; simpl; [done | done |].
  exfalso. apply Hloop; [| done]. unfold byteLength. lia.
Qed.

End ELFNotes.

Section ELFTermination.

Implicit Types (buf : ArrayBuffer) (h : ELFHeader) (sec : ELFSectionHeaderTable).

(** The reads of a loader, one after the other: a read that throws ends the
    load, and none runs out of steps. *)
Ltac reads_use_no_fuel :=
  repeat match goal with
  | |- context [ELFElement_new ?b ?l ?o ?sz] =>
      let He := fresh "He" in
      destruct (ELFElement_new b l o sz) as [?| |] eqn:He; simpl;
      [| done | by apply ELFElement_new_not_NoFuel in He]
  end.

Lemma ELFSectionHeaderTable_load_fields buf h i a s :
  ELFSectionHeaderTable_load buf h i a = Normal s ->
  (exists o w, ELFElement_new buf (littleEndian h) o w = Normal (Sh_Name s))
  /\ (exists o w, ELFElement_new buf (littleEndian h) o w = Normal (Sh_Offset s))
  /\ (exists o w, ELFElement_new buf (littleEndian h) o w = Normal (Sh_Size s))
  /\ (exists o w, ELFElement_new buf (littleEndian h) o w = Normal (Sh_Entsize s)).
Proof.
  unfold ELFSectionHeaderTable_load. cbv zeta.
  repeat match goal with
  | |- context [ELFElement_new ?b ?l ?o ?sz] =>
      let e := fresh "e" in let He := fresh "He" in
      destruct (ELFElement_new b l o sz) as [e| |] eqn:He; simpl; [| done | done]
  end.
  intros [= <-]. simpl. repeat split; eauto.
Qed.

Lemma loadSectionHeaderTables_fields buf h r shs s :
  loadSectionHeaderTables buf h = Normal (r, shs) -> s ∈ shs ->
  0 <= Get32BitValue (littleEndian h) (Sh_Name s) < 2 ^ 32
  /\ 0 <= Get32BitValue (littleEndian h) (Sh_Offset s) < 2 ^ 32
  /\ 0 <= Get32BitValue (littleEndian h) (Sh_Size s) < 2 ^ 32
  /\ 0 <= Get32BitValue (littleEndian h) (Sh_Entsize s) < 2 ^ 32.
Proof.
  unfold loadSectionHeaderTables.
  destruct (table_out_of_bounds _ _ _ _ _).
  { intros [= <- <-] Hs. by apply elem_of_nil in Hs. }
  destruct (load_each _ _ _) as [tables| |] eqn:Hl; simpl; [| done | done].
  intros [= <- <-] Hs. apply list_elem_of_lookup in Hs as [i Hi].
  apply load_each_Normal in Hl as [_ Hnth]. apply Hnth in Hi.
  apply ELFSectionHeaderTable_load_fields in Hi
    as ((? & ? & H1) & (? & ? & H2) & (? & ? & H3) & (? & ? & H4)).
  repeat split; eapply Get32BitValue_range; eauto.
Qed.

Lemma ELFSymbolTableEntry_load_not_NoFuel buf h i a :
  ELFSymbolTableEntry_load buf h i a <> NoFuel.
Proof.
  unfold ELFSymbolTableEntry_load. cbv zeta. destruct (isELF64 h).
  all: repeat match goal with
  | |- context [ELFElement_new ?b ?l ?o ?sz] =>
      let He := fresh "He" in
      destruct (ELFElement_new b l o sz) as [?| |] eqn:He; simpl;
      [| done | by apply ELFElement_new_not_NoFuel in He]
  end.
  all: done.
Qed.

Lemma symTab_loop_terminates buf h sec a b : forall fuel i entries,
  0 < b -> 0 <= i -> (Z.to_nat (a - i) <= fuel)%nat ->
  symTab_loop fuel buf h sec (QRatio a b) i entries <> NoFuel.
Proof.
  induction fuel as [|fuel IH]; intros i entries Hb Hi Hfuel; simpl.
  - assert ((i * b <? a) = false) as -> by (apply Z.ltb_ge; nia). done.
  - destruct (i * b <? a) eqn:Hlt; [| done]. apply Z.ltb_lt in Hlt.
    destruct (ELFSymbolTableEntry_load buf h i _) as [e| |] eqn:He; simpl; [| done |].
    + apply IH; [done | lia | nia].
    + by apply ELFSymbolTableEntry_load_not_NoFuel in He.
Qed.

Lemma ELFSymbolTable_load_terminates fuel buf h sec :
  0 <= Get32BitValue (littleEndian h) (Sh_Size sec) ->
  0 <= Get32BitValue (littleEndian h) (Sh_Entsize sec) ->
  (Get32BitValue (littleEndian h) (Sh_Entsize sec) = 0 ->
   Get32BitValue (littleEndian h) (Sh_Size sec) = 0) ->
  (Z.to_nat (Get32BitValue (littleEndian h) (Sh_Size sec)) <= fuel)%nat ->
  ELFSymbolTable_load fuel buf h sec <> NoFuel.
Proof.
  intros Ha Hb Hzero Hfuel. unfold ELFSymbolTable_load. cbv zeta. unfold js_div.
  destruct (Get32BitValue (littleEndian h) (Sh_Entsize sec) =? 0) eqn:Hb0.
  - apply Z.eqb_eq in Hb0. rewrite (Hzero Hb0). simpl.
    destruct fuel; simpl; done.
  - apply Z.eqb_neq in Hb0.
    pose proof (symTab_loop_terminates buf h sec
                  (Get32BitValue (littleEndian h) (Sh_Size sec))
                  (Get32BitValue (littleEndian h) (Sh_Entsize sec)) fuel 0 []) as Hloop.
    destruct (symTab_loop _ _ _ _ _ _ _); simpl; [done | done |].
    exfalso. apply Hloop; [lia | lia | lia | done].
Qed.

Lemma loadSymbolTables_terminates fuel buf h sections :
  (forall sec, sec ∈ sections ->
     0 <= Get32BitValue (littleEndian h) (Sh_Size sec)
     /\ 0 <= Get32BitValue (littleEndian h) (Sh_Entsize sec)
     /\ (Z.to_nat (Get32BitValue (littleEndian h) (Sh_Size sec)) <= fuel)%nat
     /\ (is_symbol_section (littleEndian h) sec = true ->
         Get32BitValue (littleEndian h) (Sh_Entsize sec) = 0 ->
         Get32BitValue (littleEndian h) (Sh_Size sec) = 0)) ->
  loadSymbolTables fuel buf h sections <> NoFuel.
Proof.
  induction sections as [|sec rest IH]; intros Hall; simpl; [done |].
  assert (loadSymbolTables fuel buf h rest <> NoFuel) as Hrest.
  { apply IH. intros s Hs. apply Hall. by apply list_elem_of_further. }
  destruct (is_symbol_section (littleEndian h) sec) eqn:Hsym; [| done].
  destruct (Hall sec (list_elem_of_here _ _)) as (Ha & Hb & Hfuel & Hzero).
  pose proof (ELFSymbolTable_load_terminates fuel buf h sec Ha Hb (Hzero Hsym) Hfuel) as Ht.
  destruct (ELFSymbolTable_load fuel buf h sec); simpl; [| done | done].
  destruct (loadSymbolTables fuel buf h rest) as [[? ?]| |]; simpl; done.
Qed.

Lemma loadNoteTables_terminates fuel buf h sections :
  (forall sec, sec ∈ sections ->
     (Z.to_nat (Get32BitValue (littleEndian h) (Sh_Size sec)) + length buf + 2
      <= fuel)%nat) ->
  loadNoteTables fuel buf h sections <> NoFuel.
Proof.
  induction sections as [|sec rest IH]; intros Hall; simpl; [done |].
  assert (loadNoteTables fuel buf h rest <> NoFuel) as Hrest.
  { apply IH. intros s Hs. apply Hall. by apply list_elem_of_further. }
  destruct (Get32BitValue (littleEndian h) (Sh_Type sec) =? SHT_NOTE); [| done].
  unfold ELFNoteTable_load.
  pose proof (note_loop_terminates buf (littleEndian h) sec fuel
                (Get32BitValue (littleEndian h) (Sh_Offset sec)) OK []) as Hloop.
  destruct (note_loop _ _ _ _ _ _ _) as [[r es]| e |]; simpl; [| done |].
  - destruct (result_is_ok r); [| done].
    destruct (loadNoteTables fuel buf h rest) as [[? ?]| |]; simpl; done.
  - exfalso. apply Hloop; [| done].
    specialize (Hall sec (list_elem_of_here _ _)). unfold byteLength. lia.
Qed.

Lemma ELFHeader_load_not_NoFuel buf : ELFHeader_load buf <> NoFuel.
Proof.
  unfold ELFHeader_load. destruct (byteLength buf <? 52); [done |].
  cbv zeta. reads_use_no_fuel. done.
Qed.

Lemma load_each_not_NoFuel {A} (f : Z -> completion A) (count : nat) : forall start,
  (forall i, f i <> NoFuel) -> load_each f count start <> NoFuel.
Proof.
  induction count as [|count IH]; intros start Hf; simpl; [done |].
  specialize (Hf start) as Hx. destruct (f start); simpl; [| done | done].
  specialize (IH (start + 1) Hf). destruct (load_each f count (start + 1)); done.
Qed.

Lemma loadProgramHeaderTables_not_NoFuel buf h : loadProgramHeaderTables buf h <> NoFuel.
Proof.
  unfold loadProgramHeaderTables. cbv zeta. destruct (table_out_of_bounds _ _ _ _ _); [done |].
  match goal with |- context [load_each ?f ?n ?s] =>
    pose proof (load_each_not_NoFuel f n s) as Hl; destruct (load_each f n s) end;
    simpl; [done | done |].
  exfalso. apply Hl; [| done]. intros i.
  unfold ELFProgramHeaderTable_load. cbv zeta. destruct (isELF64 h); reads_use_no_fuel; done.
Qed.

Lemma loadSectionHeaderTables_not_NoFuel buf h : loadSectionHeaderTables buf h <> NoFuel.
Proof.
  unfold loadSectionHeaderTables. cbv zeta. destruct (table_out_of_bounds _ _ _ _ _); [done |].
  match goal with |- context [load_each ?f ?n ?s] =>
    pose proof (load_each_not_NoFuel f n s) as Hl; destruct (load_each f n s) end;
    simpl; [done | done |].
  exfalso. apply Hl; [| done]. intros i.
  unfold ELFSectionHeaderTable_load. cbv zeta. reads_use_no_fuel; done.
Qed.

(** X9.  [ELFFile.load] finishes (with a result or an exception) on every
    image none of whose symbol sections has [sh_entsize = 0] together with
    a non-zero [sh_size]: there is a budget from which on the model never
    runs out of steps. *)
Theorem ELFFile_load_terminates buf :
  (forall h shs sec,
     ELFHeader_load buf = Normal (Some h) ->
     loadSectionHeaderTables buf h = Normal (OK, shs) ->
     sec ∈ shs -> is_symbol_section (littleEndian h) sec = true ->
     Get32BitValue (littleEndian h) (Sh_Entsize sec) = 0 ->
     Get32BitValue (littleEndian h) (Sh_Size sec) = 0) ->
  exists fuel0, forall fuel, (fuel0 <= fuel)%nat -> ELFFile_load fuel buf <> NoFuel.
Proof.
  intros Hsym. unfold ELFFile_load.
  pose proof (ELFHeader_load_not_NoFuel buf) as Hh0.
  destruct (ELFHeader_load buf) as [[h|]| |] eqn:Hh; simpl;
    [| by exists 0%nat | by exists 0%nat | done].
  pose proof (loadProgramHeaderTables_not_NoFuel buf h) as Hph0.
  destruct (loadProgramHeaderTables buf h) as [[r1 phs]| |] eqn:Hph; simpl;
    [| by exists 0%nat | done].
  destruct r1; simpl; [| by exists 0%nat].
  pose proof (loadSectionHeaderTables_not_NoFuel buf h) as Hsh0.
  destruct (loadSectionHeaderTables buf h) as [[r2 shs]| |] eqn:Hsh; simpl;
    [| by exists 0%nat | done].
  destruct r2; simpl; [| by exists 0%nat].
  set (need := fun s : ELFSectionHeaderTable =>
         (Z.to_nat (Get32BitValue (littleEndian h) (Sh_Size s)) + length buf + 2)%nat).
  exists (max_list (map need shs)). intros fuel Hfuel.
  assert (forall s, s ∈ shs -> (need s <= fuel)%nat) as Hneed.
  { intros s Hs. etrans; [| exact Hfuel].
    apply max_list_elem_of_le, list_elem_of_fmap. by exists s. }
  assert (forall s, s ∈ shs ->
            0 <= Get32BitValue (littleEndian h) (Sh_Size s) < 2 ^ 32
            /\ 0 <= Get32BitValue (littleEndian h) (Sh_Entsize s) < 2 ^ 32) as Hrange.
  { intros s Hs. by destruct (loadSectionHeaderTables_fields _ _ _ _ _ Hsh Hs)
      as (_ & _ & ? & ?). }
  pose proof (loadSymbolTables_terminates fuel buf h shs) as Hs.
  pose proof (loadNoteTables_terminates fuel buf h shs) as Hn.
  destruct (loadSymbolTables fuel buf h shs) as [[r3 syms]| |]; simpl; [| done |].
  2: { exfalso. apply Hs; [| done]. intros s Hin. destruct (Hrange s Hin) as [? ?].
       specialize (Hneed s Hin). unfold need in Hneed.
       repeat split; try lia. intros ? ?. by eapply Hsym. }
  destruct r3; simpl; [| done].
  destruct (loadNoteTables fuel buf h shs) as [[r4 notes]| |]; simpl; [done | done |].
  exfalso. apply Hn; [| done]. intros s Hin. apply (Hneed s Hin).
Qed.

End ELFTermination.

Section ELFNames.

Implicit Types (buf : ArrayBuffer) (h : ELFHeader) (sec : ELFSectionHeaderTable).

Lemma ELFFile_load_OK_sections fuel buf f :
  ELFFile_load fuel buf = Normal (OK, f) ->
  exists h, elfHeader f = Some h
    /\ ELFHeader_load buf = Normal (Some h)
    /\ loadSectionHeaderTables buf h = Normal (OK, elfSectionHeaderTables f).
Proof.
  unfold ELFFile_load.
  destruct (ELFHeader_load buf) as [[h|]| |] eqn:Hh; simpl; [| done | done | done].
  destruct (loadProgramHeaderTables buf h) as [[r1 phs]| |]; simpl; [| done | done].
  destruct r1; simpl; [| done].
  destruct (loadSectionHeaderTables buf h) as [[r2 shs]| |] eqn:Hsh; simpl; [| done | done].
  destruct r2; simpl; [| done].
  destruct (loadSymbolTables fuel buf h shs) as [[r3 syms]| |]; simpl; [| done | done].
  destruct r3; simpl; [| done].
  destruct (loadNoteTables fuel buf h shs) as [[r4 notes]| |]; simpl; [| done | done].
  intros [= -> <-]. simpl. eauto.
Qed.

Lemma loadSectionHeaderTables_length buf h shs :
  loadSectionHeaderTables buf h = Normal (OK, shs) ->
  length shs = Z.to_nat (Get32BitValue (littleEndian h) (E_Shnum h)).
Proof.
  unfold loadSectionHeaderTables. destruct (table_out_of_bounds _ _ _ _ _); [done |].
  destruct (load_each _ _ _) as [tables| |] eqn:Hl; simpl; [| done | done].
  intros [= <-]. by apply load_each_Normal in Hl as [? _].
Qed.

(** X10.  The name of a section of a loaded file: empty when
    [e_shstrndx] is 0; read from the section [e_shstrndx] points to, and
    then no longer than what that section has left after [sh_name], when
    [e_shstrndx] is below [e_shnum]; and a [TypeError] when [e_shstrndx] is
    [e_shnum] or more, for the index is not checked. *)
Theorem section_name_outcome fuel buf f h sec :
  ELFFile_load fuel buf = Normal (OK, f) -> elfHeader f = Some h ->
  sec ∈ elfSectionHeaderTables f ->
  let shstrndx := value (E_Shstrndx h) in
  let shnum := Get32BitValue (littleEndian h) (E_Shnum h) in
  match getDescription_Name buf h (elfSectionHeaderTables f) sec with
  | Normal name =>
      (shstrndx = 0 /\ name = EmptyString)
      \/ (0 < shstrndx < shnum
          /\ exists strSec,
               elfSectionHeaderTables f !! Z.to_nat shstrndx = Some strSec
               /\ Z.of_nat (String.length name)
                  <= Z.max 0 (Get32BitValue (littleEndian h) (Sh_Size strSec)
                              - Get32BitValue (littleEndian h) (Sh_Name sec)))
  | Throws e => e = TypeError /\ 0 < shnum <= shstrndx
  | NoFuel => False
  end.
Proof.
  intros Hload Hhdr Hsec shstrndx shnum.
  destruct (ELFFile_load_OK_sections _ _ _ Hload) as (h' & Hh' & Hheader & Hsh).
  assert (h' = h) as -> by congruence.
  pose proof (loadSectionHeaderTables_length _ _ _ Hsh) as Hlen. fold shnum in Hlen.
  apply ELFHeader_load_fields in Hheader as (_ & _ & _ & _ & _ & _ & _ & [o Hnum] & Hndx).
  apply ELFElement_new_Normal in Hndx as (_ & _ & Hndx & _).
  apply Get32BitValue_range in Hnum. fold shnum in Hnum. fold shstrndx in Hndx.
  assert (0 < shnum) as Hpos.
  { apply list_elem_of_lookup in Hsec as [i Hi]. apply lookup_lt_Some in Hi. lia. }
  unfold getDescription_Name. cbv zeta. fold shstrndx.
  destruct (shstrndx =? 0) eqn:Hz; simpl.
  { apply Z.eqb_eq in Hz. by left. }
  apply Z.eqb_neq in Hz.
  destruct (elfSectionHeaderTables f !! Z.to_nat shstrndx) as [strSec|] eqn:Hstr.
  - right. apply lookup_lt_Some in Hstr as Hlt. split; [lia |].
    exists strSec. split; [done |].
    etrans; [apply ReadByteString_length |]. lia.
  - apply lookup_ge_None in Hstr. split; [done | lia].
Qed.

End ELFNames.


Lemma ELFFile_load_section_headers_out_of_bounds_witness :
  exists h,
    ELFHeader_load image_sh_beyond_end = Normal (Some h)
    /\ loadProgramHeaderTables image_sh_beyond_end h = Normal (OK, [])
    /\ ELFFile_load 0 image_sh_beyond_end
       = Normal (INVALID_ELF, mkELFFile (Some h) [] [] [] []).
Proof.
  eexists. split; [vm_compute; reflexivity |]. split; [vm_compute; reflexivity |].
  apply (ELFFile_load_section_headers_out_of_bounds 0 image_sh_beyond_end);
    vm_compute; reflexivity.
Defined.

Lemma zero_table_offset_refused_only_for_ELF64_witness :
  (exists h,
     ELFHeader_load image_zero_offsets = Normal (Some h)
     /\ isELF64 h = false /\ value (E_PhOff h) = 0
     /\ loadProgramHeaderTables image_zero_offsets h = Normal (OK, [])
     /\ (OK = INVALID_ELF <->
         byteLength image_zero_offsets <
           Get32BitValue (littleEndian h) (E_PhOff h)
           + Get32BitValue (littleEndian h) (E_Phnum h)
             * Get32BitValue (littleEndian h) (E_Phentsize h)))
  /\ (exists h,
        ELFHeader_load image_elf64_zero_phoff = Normal (Some h)
        /\ isELF64 h = true
        /\ loadProgramHeaderTables image_elf64_zero_phoff h = Normal (INVALID_ELF, [])).
Proof.
  split.
  - eexists. split; [vm_compute; reflexivity |]. split; [reflexivity |].
    split; [reflexivity |]. split; [vm_compute; reflexivity |].
    refine (proj1 (zero_table_offset_refused_only_for_ELF64 image_zero_offsets _ _)
              _ OK [] _); vm_compute; reflexivity.
  - eexists. split; [vm_compute; reflexivity |]. split; [reflexivity |].
    refine (proj2 (zero_table_offset_refused_only_for_ELF64 image_elf64_zero_phoff _ _)
              _ _ _); vm_compute; reflexivity.
Defined.

Lemma ReadByteString_reads_terminated_string_witness :
  ReadByteString (bytes ([0] ++ codes "main" ++ [0; 120])) 1 10 = "main"%string
  /\ ReadByteString (bytes ([0] ++ codes "main" ++ [0; 120])) 1 2 = "ma"%string
  /\ ReadByteString (bytes ([0] ++ codes "main")) 1 10 = "main"%string.
Proof.
  assert (Forall (fun b => byte_val b <> 0) (bytes (codes "main"))) as Hmain.
  { repeat constructor; vm_compute; discriminate. }
  split; [| split].
  - exact (ReadByteString_reads_terminated_string (bytes [0]) (bytes (codes "main"))
             (bytes [0; 120]) 10 Hmain (or_intror (ex_intro _ (bytes [120]) eq_refl))).
  - exact (ReadByteString_reads_terminated_string (bytes [0]) (bytes (codes "main"))
             (bytes [0; 120]) 2 Hmain (or_intror (ex_intro _ (bytes [120]) eq_refl))).
  - exact (ReadByteString_reads_terminated_string (bytes [0]) (bytes (codes "main"))
             [] 10 Hmain (or_introl eq_refl)).
Defined.

Lemma desc_loop_outcome_witness :
  desc_loop 4 (bytes [1; 2; 3; 4; 5; 6]) 4 0 1 [] = Normal ([2; 3; 4; 5], 5, false)
  /\ desc_loop 4 (bytes [1; 2; 3; 4; 5; 6]) 4 0 4 [] = Throws RangeError
  /\ desc_loop 4 (bytes [1; 2; 3; 4; 5; 6]) 4 0 7 [] = Normal ([], 7, true).
Proof.
  split; [| split].
  - exact (desc_loop_outcome 4 (bytes [1; 2; 3; 4; 5; 6]) 4 1
             ltac:(lia) ltac:(lia) ltac:(vm_compute; lia)).
  - exact (desc_loop_outcome 4 (bytes [1; 2; 3; 4; 5; 6]) 4 4
             ltac:(lia) ltac:(lia) ltac:(vm_compute; lia)).
  - exact (desc_loop_outcome 4 (bytes [1; 2; 3; 4; 5; 6]) 4 7
             ltac:(lia) ltac:(lia) ltac:(vm_compute; lia)).
Defined.

Lemma ELFNoteTable_load_terminates_witness :
  exists h sec,
    ELFHeader_load image_note = Normal (Some h)
    /\ loadSectionHeaderTables image_note h = Normal (OK, [sec])
    /\ ELFNoteTable_load 4122 image_note h sec <> NoFuel.
Proof.
  eexists _, _. split; [vm_compute; reflexivity |]. split; [vm_compute; reflexivity |].
  apply ELFNoteTable_load_terminates. apply Nat.leb_le. vm_compute. reflexivity.
Defined.

Lemma ELFFile_load_terminates_witness :
  exists fuel0, forall fuel, (fuel0 <= fuel)%nat ->
    ELFFile_load fuel image_symtab_24_16 <> NoFuel.
Proof.
  apply ELFFile_load_terminates.
  intros h shs sec Hh Hsh Hin Hsym Hent.
  vm_compute in Hh. injection Hh as <-.
  vm_compute in Hsh. injection Hsh as <-.
  apply list_elem_of_singleton in Hin. subst sec.
  vm_compute in Hent. discriminate.
Defined.

Lemma section_name_outcome_witness :
  (exists f h sec,
     ELFFile_load 2 image_named_sections = Normal (OK, f)
     /\ elfHeader f = Some h
     /\ elfSectionHeaderTables f !! 0%nat = Some sec
     /\ getDescription_Name image_named_sections h (elfSectionHeaderTables f) sec
        = Normal ".symtab"%string
     /\ match getDescription_Name image_named_sections h (elfSectionHeaderTables f) sec with
        | Normal name =>
            (value (E_Shstrndx h) = 0 /\ name = EmptyString)
            \/ (0 < value (E_Shstrndx h) < Get32BitValue (littleEndian h) (E_Shnum h)
                /\ exists strSec,
                     elfSectionHeaderTables f !! Z.to_nat (value (E_Shstrndx h))
                     = Some strSec
                     /\ Z.of_nat (String.length name)
                        <= Z.max 0 (Get32BitValue (littleEndian h) (Sh_Size strSec)
                                    - Get32BitValue (littleEndian h) (Sh_Name sec)))
        | Throws e =>
            e = TypeError
            /\ 0 < Get32BitValue (littleEndian h) (E_Shnum h) <= value (E_Shstrndx h)
        | NoFuel => False
        end)
  /\ (exists f h sec,
        ELFFile_load 2 image_shstrndx_beyond = Normal (OK, f)
        /\ elfHeader f = Some h
        /\ elfSectionHeaderTables f !! 0%nat = Some sec
        /\ getDescription_Name image_shstrndx_beyond h (elfSectionHeaderTables f) sec
           = Throws TypeError).
Proof.
  split.
  - destruct (ELFFile_load 2 image_named_sections) as [[r f]| |] eqn:Hload;
      [| vm_compute in Hload; discriminate | vm_compute in Hload; discriminate].
    assert (r = OK) as -> by (vm_compute in Hload; congruence).
    destruct (elfHeader f) as [h|] eqn:Hh;
      [| vm_compute in Hload; injection Hload as <-; discriminate].
    destruct (elfSectionHeaderTables f !! 0%nat) as [sec|] eqn:Hsec;
      [| vm_compute in Hload; injection Hload as <-; discriminate].
    exists f, h, sec. split; [reflexivity |]. split; [exact Hh |]. split; [exact Hsec |].
    split.
    + vm_compute in Hload. injection Hload as <-.
      vm_compute in Hh. injection Hh as <-.
      vm_compute in Hsec. injection Hsec as <-.
      vm_compute. reflexivity.
    + apply (section_name_outcome 2 image_named_sections f h sec Hload Hh).
      by eapply list_elem_of_lookup_2.
  - eexists _, _, _. split; [vm_compute; reflexivity |]. split; [reflexivity |].
    split; [reflexivity |]. vm_compute. reflexivity.
Defined.

Section ELFHeaderTables.

Implicit Types (buf : ArrayBuffer) (h : ELFHeader) (sec : ELFSectionHeaderTable).

Lemma ELFProgramHeaderTable_load_in_bounds buf h i a :
  0 <= a -> a + (if isELF64 h then 56 else 32) <= byteLength buf ->
  exists ph, ELFProgramHeaderTable_load buf h i a = Normal ph.
Proof.
  intros Hlo Hhi. unfold ELFProgramHeaderTable_load. cbv zeta.
  destruct (isELF64 h).
  all: repeat match goal with
  | |- context [ELFElement_new ?b ?l ?o ?s] =>
      let e := fresh "e" in let He := fresh "He" in
      destruct (ELFElement_new_fits b l o s) as [e He]; [lia | lia | lia |];
      rewrite He; simpl
  end; eauto.
Qed.

Lemma ELFSectionHeaderTable_load_in_bounds buf h i a :
  0 <= a -> a + (if isELF64 h then 64 else 40) <= byteLength buf ->
  exists s, ELFSectionHeaderTable_load buf h i a = Normal s.
Proof.
  intros Hlo Hhi. unfold ELFSectionHeaderTable_load. cbv zeta.
  destruct (isELF64 h).
  all: repeat match goal with
  | |- context [ELFElement_new ?b ?l ?o ?s] =>
      let e := fresh "e" in let He := fresh "He" in
      destruct (ELFElement_new_fits b l o s) as [e He]; [lia | lia | lia |];
      rewrite He; simpl
  end; eauto.
Qed.

Lemma load_each_in_bounds {A} (f : Z -> completion A) (count : nat) : forall start,
  (forall i, start <= i < start + Z.of_nat count -> exists x, f i = Normal x) ->
  exists xs, load_each f count start = Normal xs.
Proof.
  induction count as [|count IH]; intros start Hf; simpl; [eauto |].
  destruct (Hf start) as [x ->]; [lia |]. simpl.
  destruct (IH (start + 1)) as [xs ->]; [| simpl; eauto].
  intros i Hi. apply Hf. lia.
Qed.

(** X29.  Header tables whose entries are large enough load completely:
    when the header is loaded, the bounds check on a table passes and the
    declared entry size ([e_phentsize], [e_shentsize]) is at least the
    number of bytes the reader takes from an entry (32 or 56 for a program
    header, 40 or 64 for a section header, by the ELF class), the table
    loads without an exception, with result [OK] and exactly as many
    entries as the header counts ([e_phnum], [e_shnum]). *)
Theorem header_tables_load_when_entries_fit buf h :
  ELFHeader_load buf = Normal (Some h) ->
  let le := littleEndian h in
  (table_out_of_bounds buf le (E_PhOff h) (E_Phnum h) (E_Phentsize h) = false ->
   (if isELF64 h then 56 else 32) <= Get32BitValue le (E_Phentsize h) ->
   exists phs,
     loadProgramHeaderTables buf h = Normal (OK, phs)
     /\ length phs = Z.to_nat (Get32BitValue le (E_Phnum h)))
  /\ (table_out_of_bounds buf le (E_ShOff h) (E_Shnum h) (E_Shentsize h) = false ->
      (if isELF64 h then 64 else 40) <= Get32BitValue le (E_Shentsize h) ->
      exists shs,
        loadSectionHeaderTables buf h = Normal (OK, shs)
        /\ length shs = Z.to_nat (Get32BitValue le (E_Shnum h))).
Proof.
  intros Hh. cbv zeta.
  apply ELFHeader_load_fields in Hh
    as (_ & _ & [o1 Hphoff] & [o2 Hshoff] & _ & [o3 Hphnum] & _ & [o4 Hshnum] & _).
  apply Get32BitValue_range in Hphoff, Hshoff, Hphnum, Hshnum.
  split.
  - intros Hguard Hsize. unfold loadProgramHeaderTables. rewrite Hguard.
    unfold table_out_of_bounds in Hguard. apply orb_false_iff in Hguard as [_ Hfit].
    apply Z.ltb_ge in Hfit.
    match goal with |- context [load_each ?f ?n ?s] =>
      destruct (load_each_in_bounds f n s) as [phs Hphs]
    end.
    { intros i Hi.
      assert (0 <= i * Get32BitValue (littleEndian h) (E_Phentsize h))
        by (apply Z.mul_nonneg_nonneg; destruct (isELF64 h); lia).
      assert ((i + 1) * Get32BitValue (littleEndian h) (E_Phentsize h)
              <= Get32BitValue (littleEndian h) (E_Phnum h)
                 * Get32BitValue (littleEndian h) (E_Phentsize h))
        by (apply Z.mul_le_mono_nonneg_r; destruct (isELF64 h); lia).
      apply ELFProgramHeaderTable_load_in_bounds; [lia |].
      destruct (isELF64 h); lia. }
    rewrite Hphs. simpl. exists phs. split; [done |].
    by apply load_each_Normal in Hphs as [? _].
  - intros Hguard Hsize. unfold loadSectionHeaderTables. rewrite Hguard.
    unfold table_out_of_bounds in Hguard. apply orb_false_iff in Hguard as [_ Hfit].
    apply Z.ltb_ge in Hfit.
    match goal with |- context [load_each ?f ?n ?s] =>
      destruct (load_each_in_bounds f n s) as [shs Hshs]
    end.
    { intros i Hi.
      assert (0 <= i * Get32BitValue (littleEndian h) (E_Shentsize h))
        by (apply Z.mul_nonneg_nonneg; destruct (isELF64 h); lia).
      assert ((i + 1) * Get32BitValue (littleEndian h) (E_Shentsize h)
              <= Get32BitValue (littleEndian h) (E_Shnum h)
                 * Get32BitValue (littleEndian h) (E_Shentsize h))
        by (apply Z.mul_le_mono_nonneg_r; destruct (isELF64 h); lia).
      apply ELFSectionHeaderTable_load_in_bounds; [lia |].
      destruct (isELF64 h); lia. }
    rewrite Hshs. simpl. exists shs. split; [done |].
    by apply load_each_Normal in Hshs as [? _].
Qed.

End ELFHeaderTables.

Lemma header_tables_load_when_entries_fit_witness :
  exists h shs,
    ELFHeader_load image_named_sections = Normal (Some h)
    /\ loadSectionHeaderTables image_named_sections h = Normal (OK, shs)
    /\ length shs = 2%nat.
Proof.
  destruct (ELFHeader_load image_named_sections) as [[h|]| |] eqn:Hh;
    [| vm_compute in Hh; discriminate ..].
  destruct (proj2 (header_tables_load_when_entries_fit image_named_sections h Hh))
    as (shs & Hshs & Hlen).
  - vm_compute in Hh. injection Hh as <-. vm_compute. reflexivity.
  - vm_compute in Hh. injection Hh as <-. vm_compute. discriminate.
  - exists h, shs. split; [reflexivity |]. split; [exact Hshs |].
    rewrite Hlen. vm_compute in Hh. injection Hh as <-. reflexivity.
Defined.

(** * Hexadecimal text *)

Section Hex.

Lemma digit_value_hex_digit d : 0 <= d < 16 -> digit_value 16 (hex_digit d) = Some d.
Proof.
  intros Hd.
  assert (d = 0 \/ d = 1 \/ d = 2 \/ d = 3 \/ d = 4 \/ d = 5 \/ d = 6 \/ d = 7 \/ d = 8
          \/ d = 9 \/ d = 10 \/ d = 11 \/ d = 12 \/ d = 13 \/ d = 14 \/ d = 15) as Hcases
    by lia.
  repeat (destruct Hcases as [-> | Hcases]; [reflexivity |]). subst. reflexivity.
Qed.

Lemma hex_value_snoc l c :
  hex_value (l ++ [c]) = hex_value l * 16 + default 0 (digit_value 16 c).
Proof. unfold hex_value. by rewrite fold_left_app. Qed.

Lemma digits_value_hex l : forall acc,
  Forall (fun c => is_Some (digit_value 16 c)) l ->
  digits_value 16 (Some acc) l
  = Some (fold_left (fun a c => a * 16 + default 0 (digit_value 16 c)) l acc).
Proof.
  induction l as [|c l IH]; intros acc Hl; simpl; [done |].
  apply Forall_cons in Hl as [[v Hv] Hl]. rewrite Hv. simpl. by apply IH.
Qed.

Lemma digits_value_hex_value l :
  l <> [] -> Forall (fun c => is_Some (digit_value 16 c)) l ->
  digits_value 16 None l = Some (hex_value l).
Proof.
  destruct l as [|c l]; [done |]. intros _ Hl.
  apply Forall_cons in Hl as [[v Hv] Hl]. simpl. rewrite Hv.
  rewrite digits_value_hex by done. unfold hex_value. simpl. by rewrite Hv.
Qed.

Lemma hex_digits_rev_value : forall fuel n,
  (0 < fuel)%nat -> 0 <= n < 2 ^ Z.of_nat fuel ->
  hex_digits_rev fuel n <> []
  /\ Forall (fun c => is_Some (digit_value 16 c)) (hex_digits_rev fuel n)
  /\ hex_value (rev (hex_digits_rev fuel n)) = n.
Proof.
  induction fuel as [|fuel IH]; intros n Hfuel Hn; [lia |].
  simpl hex_digits_rev.
  assert (0 <= n mod 16 < 16) as Hmod by (apply Z.mod_pos_bound; lia).
  pose proof (digit_value_hex_digit _ Hmod) as Hd.
  pose proof (Z.div_mod n 16 ltac:(lia)) as Hdm.
  split; [done |].
  destruct (n / 16 =? 0) eqn:Hq.
  - apply Z.eqb_eq in Hq. split; [repeat constructor; by rewrite Hd |].
    simpl. unfold hex_value. simpl. rewrite Hd. simpl. lia.
  - apply Z.eqb_neq in Hq.
    rewrite Nat2Z.inj_succ, Z.pow_succ_r in Hn by lia.
    assert (0 < n / 16 < 2 ^ Z.of_nat fuel) as Hq'.
    { split.
      - assert (0 <= n / 16) by (apply Z.div_pos; lia). lia.
      - apply Z.div_lt_upper_bound; lia. }
    assert (0 < fuel)%nat as Hfuel'.
    { destruct fuel; [simpl in Hq'; lia | lia]. }
    destruct (IH (n / 16) Hfuel' ltac:(lia)) as (_ & Hall & Hval).
    split; [constructor; [by rewrite Hd | done] |].
    simpl rev. rewrite hex_value_snoc, Hval, Hd. simpl. lia.
Qed.

Lemma toString16_digits n :
  0 <= n ->
  let ds := rev (hex_digits_rev (S (Z.to_nat (Z.log2 n))) n) in
  ds <> [] /\ Forall (fun c => is_Some (digit_value 16 c)) ds /\ hex_value ds = n.
Proof.
  intros Hn ds.
  destruct (hex_digits_rev_value (S (Z.to_nat (Z.log2 n))) n) as (Hne & Hall & Hval).
  { lia. }
  { split; [done |]. rewrite Nat2Z.inj_succ, Z2Nat.id by apply Z.log2_nonneg.
    destruct (Z.eq_dec n 0) as [-> | Hnz]; [done |].
    apply Z.log2_spec. lia. }
  split; [| split; [| done]].
  - unfold ds. intros Hrev. apply Hne. by rewrite <- (rev_involutive (hex_digits_rev _ _)), Hrev.
  - unfold ds. by apply Forall_rev.
Qed.

(** X11.  [convertHexToNumber] undoes [convertNumberToHex] on every
    integer from 0 on; a negative number is written [0x-...] and reads back
    as NaN. *)
Theorem convertHexToNumber_convertNumberToHex n :
  convertHexToNumber (convertNumberToHex n) = if 0 <=? n then Some n else None.
Proof.
  unfold convertHexToNumber, convertNumberToHex, toString16, parseInt.
  destruct (0 <=? n) eqn:Hsign.
  - apply Z.leb_le in Hsign.
    assert ((n <? 0) = false) as -> by (apply Z.ltb_ge; done).
    pose proof (toString16_digits n Hsign) as Hds. cbv zeta in Hds.
    remember (rev (hex_digits_rev (S (Z.to_nat (Z.log2 n))) n)) as ds eqn:Eds.
    clear Eds. destruct Hds as (Hne & Hall & Hval).
    rewrite chars_app, list_ascii_of_string_of_list_ascii. simpl. rewrite drop_0.
    rewrite digits_value_hex_value by done. rewrite Hval. simpl.
    f_equal. destruct n; done.
  - apply Z.leb_gt in Hsign.
    assert ((n <? 0) = true) as -> by (apply Z.ltb_lt; done).
    rewrite chars_app. simpl. done.
Qed.

End Hex.

(** * More about the breakpoint registry and the command queue *)

Section RegistryFacts.

Variable normalizePath : string -> string.
Variable basename : string -> string.


Lemma splice_line_first line_ (l1 l2 : list MDBBreakpoint) bp :
  Forall (fun b => line b <> line_) l1 -> line bp = line_ ->
  splice_line line_ (l1 ++ bp :: l2) = Some (bp, l1 ++ l2).
Proof.
  intros Hl1 Hbp. induction Hl1 as [|b l1 Hb Hl1 IH]; simpl.
  - apply Z.eqb_eq in Hbp. by rewrite Hbp.
  - apply Z.eqb_neq in Hb. rewrite Hb, IH. done.
Qed.

Lemma splice_line_None line_ (bps : list MDBBreakpoint) :
  Forall (fun b => line b <> line_) bps -> splice_line line_ bps = None.
Proof.
  intros Hall. induction Hall as [|b bps Hb Hall IH]; simpl; [done |].
  apply Z.eqb_neq in Hb. by rewrite Hb, IH.
Qed.

(** X12.  [clearBreakPoint(file, line)] does nothing when the file has
    no breakpoint on the line (or no breakpoint at all).  Otherwise it
    removes the first breakpoint of the file's array that is on the line,
    pushes one [Delete <id>] command for it, and leaves the id counter and
    the subprocess's input as they were. *)
Theorem clearBreakPoint_outcome filePath line_ rt :
  let bps := default [] (_breakPoints rt !! normalizePath filePath) in
  (Forall (fun b => line b <> line_) bps ->
     clearBreakPoint normalizePath filePath line_ rt = rt)
  /\ (forall l1 bp l2,
        bps = l1 ++ bp :: l2 -> Forall (fun b => line b <> line_) l1 -> line bp = line_ ->
        let rt' := clearBreakPoint normalizePath filePath line_ rt in
        _breakPoints rt' = <[normalizePath filePath := l1 ++ l2]> (_breakPoints rt)
        /\ _commandQueue rt'
           = _commandQueue rt
             ++ [mkJob ("Delete " ++ pretty (id bp)) ExpectPrompt (ReportCleared bp)]
        /\ _breakpointId rt' = _breakpointId rt
        /\ stdin rt' = stdin rt).
Proof.
  intros bps. unfold clearBreakPoint. subst bps. split.
  - intros Hall. destruct (_breakPoints rt !! normalizePath filePath) as [bps|]; [| done].
    simpl in Hall. by rewrite splice_line_None.
  - intros l1 bp l2 Hbps Hl1 Hbp.
    destruct (_breakPoints rt !! normalizePath filePath) as [bps|]; simpl in Hbps.
    + subst bps. rewrite splice_line_first by done. done.
    + by destruct l1.
Qed.

(** X13.  After [setBreakPoint(file, line)], [getBreakpoints(other, from)]
    returns what it returned before, followed by the new breakpoint when
    [other] normalizes to the same path and [from <= line]. *)
Theorem getBreakpoints_setBreakPoint filePath line_ otherPath from rt :
  let '(bp, rt') := setBreakPoint normalizePath basename filePath line_ rt in
  getBreakpoints normalizePath otherPath from rt'
  = getBreakpoints normalizePath otherPath from rt
    ++ (if bool_decide (normalizePath otherPath = normalizePath filePath
                        /\ from <= line_)
        then [bp] else []).
Proof.
  destruct (setBreakPoint normalizePath basename filePath line_ rt) as [bp rt'] eqn:Hset.
  apply setBreakPoint_spec in Hset as (-> & _ & Hreg).
  unfold getBreakpoints. rewrite Hreg.
  destruct (decide (normalizePath otherPath = normalizePath filePath)) as [-> | Hne].
  - rewrite lookup_insert_eq, filter_app, filter_cons, filter_nil. simpl.
    destruct (_breakPoints rt !! normalizePath filePath) as [bps|]; simpl.
    all: destruct (decide (from <= line_)).
    all: try rewrite bool_decide_eq_true_2 by done.
    all: try rewrite bool_decide_eq_false_2 by tauto.
    all: done.
  - rewrite lookup_insert_ne by done.
    rewrite bool_decide_eq_false_2 by tauto. by rewrite app_nil_r.
Qed.

End RegistryFacts.

Section QueueFacts.

Variable normalizePath : string -> string.
Variable basename : string -> string.

Lemma verifyBreakpoints_queue filePath rt :
  _commandQueue (verifyBreakpoints normalizePath basename filePath rt)
  = _commandQueue rt
    ++ map (break_job (basename filePath))
         (filter (fun bp => verified bp = false)
            (default [] (_breakPoints rt !! normalizePath filePath))).
Proof.
  unfold verifyBreakpoints.
  destruct (_breakPoints rt !! normalizePath filePath) as [bps|]; simpl;
    [| by rewrite app_nil_r].
  induction bps as [|bp bps IH] using rev_ind; simpl; [by rewrite app_nil_r |].
  rewrite fold_left_app, filter_app, map_app, filter_cons, filter_nil. simpl.
  destruct (verified bp) eqn:Hv.
  - rewrite decide_False by done. simpl. by rewrite app_nil_r.
  - rewrite decide_True by done. simpl. rewrite IH, <- app_assoc. done.
Qed.






End QueueFacts.

Section DrainFacts.

Variable normalizePath : string -> string.
Variable basename : string -> string.






End DrainFacts.

Section RegistryInvariant.

Variable normalizePath : string -> string.
Variable basename : string -> string.












End RegistryInvariant.

Lemma clearBreakPoint_outcome_witness :
  let rt :=
    snd (setBreakPoints (fun p => p) (fun p => p)
           [("main.c"%string, 10); ("main.c"%string, 12); ("main.c"%string, 10)]
           new_MDBRuntime) in
  clearBreakPoint (fun p => p) "main.c" 11 rt = rt
  /\ _breakPoints (clearBreakPoint (fun p => p) "main.c" 10 rt)
     = <["main.c"%string := [mkBreakpoint 2 12 false; mkBreakpoint 3 10 false]]>
         (_breakPoints rt).
Proof.
  cbv zeta. split.
  - apply (proj1 (clearBreakPoint_outcome (fun p => p) "main.c" 11 _)).
    vm_compute. repeat constructor; discriminate.
  - apply (proj2 (clearBreakPoint_outcome (fun p => p) "main.c" 10 _)
             [] (mkBreakpoint 1 10 false) [mkBreakpoint 2 12 false; mkBreakpoint 3 10 false]).
    + vm_compute. reflexivity.
    + constructor.
    + reflexivity.
Defined.




(** * More about waiting for output *)

Section WaitFacts.

Lemma interval_tick_cleared w out wait :
  waits out !! w = Some wait -> intervalId wait = false -> interval_tick w out = out.
Proof. intros Hw Hint. unfold interval_tick. by rewrite Hw, Hint. Qed.

Lemma interval_ticks_cleared k w : forall out wait,
  waits out !! w = Some wait -> intervalId wait = false -> interval_ticks k w out = out.
Proof.
  induction k as [|k IH]; intros out wait Hw Hint; simpl; [done |].
  rewrite (interval_tick_cleared _ _ _ Hw Hint). by eapply IH.
Qed.

Lemma interval_ticks_pending k w : forall out wait,
  waits out !! w = Some wait -> intervalId wait = true -> settled wait = None ->
  exists wait',
    waits (interval_ticks k w out) !! w = Some wait'
    /\ patternOrString wait' = patternOrString wait
    /\ if Z.of_nat k <? Z.max 1 (timeLeft wait)
       then settled wait' = None /\ intervalId wait' = true
            /\ timeLeft wait' = timeLeft wait - Z.of_nat k
       else settled wait' = Some RejectedOnTimeout /\ intervalId wait' = false.
Proof.
  induction k as [|k IH]; intros out wait Hw Hint Hset.
  - simpl. exists wait. split; [done |]. split; [done |].
    destruct (_ <? _) eqn:Hc; [| apply Z.ltb_ge in Hc; lia].
    repeat split; try done. lia.
  - simpl interval_ticks. unfold interval_tick at 1. rewrite Hw, Hint. cbv zeta. simpl.
    pose proof (lookup_lt_Some _ _ _ Hw) as Hlt.
    destruct (timeLeft wait - 1 <=? 0) eqn:Hzero.
    + apply Z.leb_le in Hzero.
      erewrite interval_ticks_cleared.
      2: { simpl. apply list_lookup_insert_eq. done. }
      2: { unfold settle. simpl. by rewrite Hset. }
      simpl. rewrite list_lookup_insert_eq by done. eexists. split; [done |].
      unfold settle. simpl. rewrite Hset. simpl. split; [done |].
      assert ((Z.of_nat (S k) <? Z.max 1 (timeLeft wait)) = false) as ->
          by (apply Z.ltb_ge; lia).
      done.
    + apply Z.leb_gt in Hzero.
      edestruct (IH (mkStdout (<[w := mkWait (patternOrString wait) (timeLeft wait - 1)
                                        true (settled wait)]> (waits out))
                              (listeners out))) as (wait' & Hw' & Hp & Hk).
      { simpl. apply list_lookup_insert_eq. done. }
      { done. }
      { done. }
      exists wait'. split; [exact Hw' |]. split; [done |]. simpl in Hk.
      destruct (Z.of_nat k <? Z.max 1 (timeLeft wait - 1)) eqn:Hcmp.
      * apply Z.ltb_lt in Hcmp.
        assert ((Z.of_nat (S k) <? Z.max 1 (timeLeft wait)) = true) as ->
            by (apply Z.ltb_lt; lia).
        destruct Hk as (? & ? & ?). repeat split; try done. lia.
      * apply Z.ltb_ge in Hcmp.
        assert ((Z.of_nat (S k) <? Z.max 1 (timeLeft wait)) = false) as ->
            by (apply Z.ltb_ge; lia).
        done.
Qed.

Lemma interval_ticks_keeps_listeners k w : forall out,
  listeners (interval_ticks k w out) = listeners out.
Proof.
  induction k as [|k IH]; intros out; simpl; [done |].
  by rewrite IH, interval_tick_keeps_listeners.
Qed.

(** X19.  A wait made with [waitForStdOut(p, timeout)] that receives no
    data is pending, with its interval running and [timeout - k] ticks
    left, after [k] ticks for every [k] below [max 1 timeout]; from tick
    [max 1 timeout] on it is rejected and its interval is cleared.  Its
    listener stays attached all along. *)
Theorem waitForStdOut_rejects_after_timeout p timeout_ out (k : nat) :
  let '(w, out0) := waitForStdOut p timeout_ out in
  exists wait,
    waits (interval_ticks k w out0) !! w = Some wait
    /\ listeners (interval_ticks k w out0) = listeners out ++ [w]
    /\ if Z.of_nat k <? Z.max 1 timeout_
       then settled wait = None /\ intervalId wait = true
            /\ timeLeft wait = timeout_ - Z.of_nat k
       else settled wait = Some RejectedOnTimeout /\ intervalId wait = false.
Proof.
  unfold waitForStdOut. cbv zeta.
  set (w := length (waits out)).
  set (out0 := mkStdout (waits out ++ [mkWait p timeout_ true None]) (listeners out ++ [w])).
  destruct (interval_ticks_pending k w out0 (mkWait p timeout_ true None))
    as (wait & Hw & _ & Hk); [| done | done |].
  { simpl. by apply list_lookup_middle. }
  exists wait. split; [done |]. split; [| done].
  by rewrite interval_ticks_keeps_listeners.
Qed.

Lemma filter_all {A} (P : A -> Prop) `{!forall x, Decision (P x)} (l : list A) :
  Forall P l -> filter P l = l.
Proof.
  intros Hall. induction Hall as [|x l Hx Hall IH]; [done |].
  by rewrite filter_cons_True, IH.
Qed.

Lemma patternOrString_on_data data wait :
  patternOrString (on_data data wait) = patternOrString wait.
Proof.
  unfold on_data, settle, clearTimeoutInterval.
  repeat case_match; done.
Qed.

Lemma on_data_idempotent data wait :
  on_data data (on_data data wait) = on_data data wait.
Proof.
  unfold on_data. destruct (includes "err" data).
  - unfold settle. destruct (settled wait) eqn:Hs; simpl; by rewrite ?Hs.
  - unfold settle, clearTimeoutInterval. simpl.
    destruct (isMatching (patternOrString wait) data) eqn:Hm; simpl.
    + destruct (settled wait) eqn:Hs; simpl; by rewrite ?Hm, ?Hs.
    + by rewrite Hm.
Qed.

Lemma lookup_insert_fmap_at (ws : list Wait) w wait (f : Wait -> Wait) i :
  ws !! w = Some wait ->
  <[w := f wait]> ws !! i
  = (if bool_decide (i = w) then f else (fun x => x)) <$> ws !! i.
Proof.
  intros Hw. pose proof (lookup_lt_Some _ _ _ Hw) as Hlt.
  destruct (decide (i = w)) as [-> | Hne].
  - rewrite bool_decide_eq_true_2, list_lookup_insert_eq, Hw by done. done.
  - rewrite bool_decide_eq_false_2, list_lookup_insert_ne by done.
    by destruct (ws !! i).
Qed.

Lemma lookup_fmap_at (ws : list Wait) w wait (f : Wait -> Wait) i :
  ws !! w = Some wait -> f wait = wait ->
  ws !! i = (if bool_decide (i = w) then f else (fun x => x)) <$> ws !! i.
Proof.
  intros Hw Hf. destruct (decide (i = w)) as [-> | Hne].
  - rewrite bool_decide_eq_true_2, Hw by done. simpl. by rewrite Hf.
  - rewrite bool_decide_eq_false_2 by done. by destruct (ws !! i).
Qed.

Lemma listener_spec w data out :
  (forall i, waits (listener w data out) !! i
             = (if bool_decide (i = w) then on_data data else (fun x => x))
               <$> waits out !! i)
  /\ listeners (listener w data out)
     = (if detaches data out w then filter (fun l => l <> w) (listeners out)
        else listeners out).
Proof.
  unfold listener, detaches.
  destruct (waits out !! w) as [wait|] eqn:Hw.
  - destruct (includes "err" data) eqn:Herr; simpl;
      [| destruct (isMatching (patternOrString wait) data) eqn:Hm; simpl].
    + split; [| done]. intros i.
      assert (settle (RejectedWithError data) wait = on_data data wait) as ->
          by (unfold on_data; by rewrite Herr).
      by apply lookup_insert_fmap_at.
    + split; [| done]. intros i.
      assert (settle (Resolved data) (clearTimeoutInterval wait) = on_data data wait) as ->
          by (unfold on_data; by rewrite Herr, Hm).
      by apply lookup_insert_fmap_at.
    + split; [| done]. intros i.
      apply (lookup_fmap_at _ _ wait); [done |]. unfold on_data. by rewrite Herr, Hm.
  - split; [| done]. intros i. destruct (decide (i = w)) as [-> | Hne].
    + by rewrite Hw.
    + rewrite bool_decide_eq_false_2 by done. by destruct (waits out !! i).
Qed.

Lemma detaches_listener w data out l :
  detaches data (listener w data out) l = detaches data out l.
Proof.
  unfold detaches. rewrite (proj1 (listener_spec w data out) l).
  destruct (waits out !! l) as [wait|]; simpl; [| done].
  destruct (bool_decide (l = w)); [| done]. by rewrite patternOrString_on_data.
Qed.

Lemma emit_fold_spec data (ws : list nat) : forall out,
  let out' := fold_left (fun out w => listener w data out) ws out in
  (forall i, waits out' !! i
             = (if bool_decide (i ∈ ws) then on_data data else (fun x => x))
               <$> waits out !! i)
  /\ listeners out'
     = filter (fun l => ~ (l ∈ ws /\ detaches data out l = true)) (listeners out).
Proof.
  induction ws as [|w ws IH]; intros out; cbv zeta; cbn [fold_left].
  - split.
    + intros i. case_bool_decide as Hin; [by apply elem_of_nil in Hin |].
      by destruct (waits out !! i).
    + symmetry. apply filter_all, Forall_forall. intros l _ [Hl _].
      by apply elem_of_nil in Hl.
  - destruct (IH (listener w data out)) as [IHw IHl].
    destruct (listener_spec w data out) as [Hw Hl]. split.
    + intros i. rewrite IHw, Hw.
      destruct (waits out !! i) as [wait|]; simpl; [| by repeat case_match].
      destruct (decide (i = w)) as [-> | Hne].
      * rewrite (bool_decide_eq_true_2 (w = w)) by done.
        rewrite (bool_decide_eq_true_2 (w ∈ w :: ws)) by apply list_elem_of_here.
        destruct (bool_decide (w ∈ ws)); [by rewrite on_data_idempotent | done].
      * rewrite (bool_decide_eq_false_2 (i = w)) by done.
        destruct (decide (i ∈ ws)) as [Hin | Hnin].
        -- rewrite !bool_decide_eq_true_2; [done | by apply list_elem_of_further | done].
        -- rewrite !bool_decide_eq_false_2; [done | | done].
           intros Hin. apply elem_of_cons in Hin as [? | ?]; done.
    + rewrite IHl, Hl.
      destruct (detaches data out w) eqn:Hd.
      * rewrite list_filter_filter. apply list_filter_iff. intros l.
        rewrite detaches_listener. split.
        -- intros [Hnot Hne] [Hin Hdl]. apply Hnot. split; [| done].
           apply elem_of_cons in Hin as [? | ?]; done.
        -- intros Hnot. split.
           ++ intros [Hin Hdl]. apply Hnot. split; [by apply list_elem_of_further | done].
           ++ intros ->. apply Hnot. split; [apply list_elem_of_here | done].
      * apply list_filter_iff. intros l. rewrite detaches_listener. split.
        -- intros Hnot [Hin Hdl]. apply elem_of_cons in Hin as [-> | Hin]; [congruence |].
           by apply Hnot.
        -- intros Hnot [Hin Hdl]. apply Hnot. split; [by apply list_elem_of_further | done].
Qed.

(** X20.  A chunk that has [err] in it detaches no listener; every wait
    whose listener is attached is rejected with the chunk, unless it was
    settled already, and its countdown and its interval are left as they
    were. *)
Theorem err_chunk_rejects_and_keeps_listeners data out :
  includes "err" data = true ->
  listeners (emit_data data out) = listeners out
  /\ forall w wait, w ∈ listeners out -> waits out !! w = Some wait ->
       exists wait',
         waits (emit_data data out) !! w = Some wait'
         /\ settled wait' = Some (default (RejectedWithError data) (settled wait))
         /\ intervalId wait' = intervalId wait
         /\ timeLeft wait' = timeLeft wait.
Proof.
  intros Herr. unfold emit_data.
  destruct (emit_fold_spec data (listeners out) out) as [Hw Hl]. split.
  - rewrite Hl. apply filter_all, Forall_forall. intros l _ [_ Hd].
    unfold detaches in Hd. rewrite Herr in Hd. by destruct (waits out !! l).
  - intros w wait Hin Hwait. rewrite Hw, Hwait, bool_decide_eq_true_2 by done. simpl.
    eexists. split; [done |]. unfold on_data. rewrite Herr. unfold settle.
    destruct (settled wait) eqn:Hs; simpl; by rewrite ?Hs.
Qed.

(** X21.  A chunk without [err], for a wait whose listener is attached:
    if the chunk matches the wait's pattern, the listener is detached, the
    interval is cleared and the wait is resolved with the chunk (unless it
    was settled already); if it does not match, the wait and its listener
    are left as they were. *)
Theorem matching_chunk_resolves_and_detaches data out w wait :
  includes "err" data = false ->
  w ∈ listeners out -> waits out !! w = Some wait ->
  let out' := emit_data data out in
  if isMatching (patternOrString wait) data then
    (w ∉ listeners out')
    /\ exists wait',
         waits out' !! w = Some wait'
         /\ settled wait' = Some (default (Resolved data) (settled wait))
         /\ intervalId wait' = false
  else w ∈ listeners out' /\ waits out' !! w = Some wait.
Proof.
  intros Herr Hin Hwait. cbv zeta. unfold emit_data.
  destruct (emit_fold_spec data (listeners out) out) as [Hw Hl].
  rewrite Hl, Hw, Hwait, bool_decide_eq_true_2 by done. simpl.
  assert (detaches data out w = isMatching (patternOrString wait) data) as Hd.
  { unfold detaches. by rewrite Hwait, Herr. }
  unfold on_data. rewrite Herr.
  destruct (isMatching (patternOrString wait) data) eqn:Hm.
  - split.
    + intros Hw'. apply list_elem_of_filter in Hw' as [Hnot _]. by apply Hnot.
    + eexists. split; [done |]. unfold settle, clearTimeoutInterval. simpl.
      destruct (settled wait) eqn:Hs; simpl; by rewrite ?Hs.
  - split; [| done]. apply list_elem_of_filter. split; [| done].
    intros [_ Hd']. congruence.
Qed.

End WaitFacts.

(** * More about the stop-event parser *)

Section StopEvents.

Variable normalizePath : string -> string.

Lemma filter_line_is_mark_verified data i (bps : list MDBBreakpoint) :
  filter (fun bp => line_is data bp = true) (map (mark_verified i) bps)
  = map (mark_verified i) (filter (fun bp => line_is data bp = true) bps).
Proof.
  induction bps as [|b bps IH]; [done |]. simpl. rewrite !filter_cons.
  assert (line_is data (mark_verified i b) = line_is data b) as ->.
  { unfold line_is, mark_verified. by destruct (id b =? i). }
  destruct (decide (line_is data b = true)); simpl; by rewrite IH.
Qed.


(** X22.  A stop event sends [stopOnBreakpoint] when the file of the
    event has a breakpoint on the line of the event, followed by
    [breakpointValidated] when the first such breakpoint was not verified,
    and [stopOnException] otherwise.  The same event a second time sends
    [stopOnBreakpoint] (or [stopOnException]) alone: a breakpoint is
    validated once. *)
Theorem stop_event_validates_once data rt :
  data_eventType data = Some STOP_AT ->
  let hit :=
    filter (fun bp => line_is data bp = true)
      (default [] (_breakPoints rt !! normalizePath (data_file data))) in
  let rt1 := fireEventsForData normalizePath data rt in
  let rt2 := fireEventsForData normalizePath data rt1 in
  sentEvents rt1
  = sentEvents rt
    ++ match hit with
       | [] => [stopOnException data]
       | bp :: _ =>
           stopOnBreakpoint
           :: (if verified bp then []
               else [breakpointValidated (mkBreakpoint (id bp) (line bp) true)])
       end
  /\ sentEvents rt2
     = sentEvents rt1
       ++ [match hit with [] => stopOnException data | _ :: _ => stopOnBreakpoint end].
Proof.
  intros Hstop. cbv zeta. unfold fireEventsForData. rewrite Hstop.
  set (f := normalizePath (data_file data)).
  assert (match _breakPoints rt !! f with
          | Some breakpoints => filter (fun bp => line_is data bp = true) breakpoints
          | None => []
          end
          = filter (fun bp => line_is data bp = true) (default [] (_breakPoints rt !! f)))
    as -> by (by destruct (_breakPoints rt !! f)).
  destruct (filter _ (default [] (_breakPoints rt !! f))) as [|bp hit] eqn:Hhit.
  - simpl. destruct (_breakPoints rt !! f) as [bps|]; simpl in *; rewrite ?Hhit; done.
  - destruct (verified bp) eqn:Hv.
    + simpl. destruct (_breakPoints rt !! f) as [bps|]; simpl in *; [| done].
      rewrite Hhit, Hv. done.
    + simpl. rewrite lookup_fmap.
      destruct (_breakPoints rt !! f) as [bps|]; simpl in *; [| done].
      rewrite filter_line_is_mark_verified, Hhit. simpl.
      unfold mark_verified at 1. rewrite Z.eqb_refl. simpl.
      split; [by rewrite <- app_assoc | done].
Qed.

End StopEvents.

Section Colons.

Lemma chars_join_colon pieces : chars (join ":" pieces) = join_colon (map chars pieces).
Proof.
  induction pieces as [|p [|p2 pieces] IH]; [done | done |].
  change (join ":" (p :: p2 :: pieces)) with (p ++ ":" ++ join ":" (p2 :: pieces))%string.
  rewrite !chars_app, IH. done.
Qed.

Lemma starts_with_colon a s :
  starts_with [":"%char] (a :: s) = bool_decide (a = ":"%char).
Proof.
  unfold starts_with, ascii_eqb. rewrite andb_true_r.
  destruct (Ascii.eqb_spec ":" a) as [<- | Hne].
  - by rewrite bool_decide_eq_true_2.
  - rewrite bool_decide_eq_false_2; [done |]. by intros ->.
Qed.

Lemma split_chars_colon_piece l : forall cur n rest,
  Forall (fun c => c <> ":"%char) l -> (length l + 1 + length rest <= n)%nat ->
  split_chars [":"%char] n cur (l ++ ":"%char :: rest)
  = (rev cur ++ l) :: split_chars [":"%char] (n - length l - 1) [] rest.
Proof.
  induction l as [|a l IH]; intros cur n rest Hno Hn.
  - destruct n as [|n]; [simpl in Hn; lia |]. simpl.
    rewrite app_nil_r, Nat.sub_0_r. done.
  - destruct n as [|n]; [simpl in Hn; lia |].
    apply Forall_cons in Hno as [Ha Hno].
    change (split_chars [":"%char] (S n) cur ((a :: l) ++ ":"%char :: rest))
      with (if starts_with [":"%char] (a :: l ++ ":"%char :: rest)
            then rev cur :: split_chars [":"%char] n []
                   (drop 1 (a :: l ++ ":"%char :: rest))
            else split_chars [":"%char] n (a :: cur) (l ++ ":"%char :: rest)).
    rewrite starts_with_colon, bool_decide_eq_false_2 by done.
    rewrite IH by (done || (simpl in Hn; lia)).
    simpl. rewrite <- app_assoc. done.
Qed.

Lemma split_chars_colon_last l : forall cur n,
  Forall (fun c => c <> ":"%char) l -> (length l <= n)%nat ->
  split_chars [":"%char] n cur l = [rev cur ++ l].
Proof.
  induction l as [|a l IH]; intros cur n Hno Hn.
  - destruct n; simpl; rewrite ?app_nil_r; done.
  - destruct n as [|n]; [simpl in Hn; lia |].
    apply Forall_cons in Hno as [Ha Hno].
    change (split_chars [":"%char] (S n) cur (a :: l))
      with (if starts_with [":"%char] (a :: l)
            then rev cur :: split_chars [":"%char] n [] (drop 1 (a :: l))
            else split_chars [":"%char] n (a :: cur) l).
    rewrite starts_with_colon, bool_decide_eq_false_2 by done.
    rewrite IH by (done || (simpl in Hn; lia)).
    simpl. rewrite <- app_assoc. done.
Qed.

Lemma split_chars_join_colon pieces : forall n,
  pieces <> [] -> Forall (Forall (fun c => c <> ":"%char)) pieces ->
  (length (join_colon pieces) <= n)%nat ->
  split_chars [":"%char] n [] (join_colon pieces) = pieces.
Proof.
  induction pieces as [|l [|l2 pieces] IH]; intros n Hne Hall Hn; [done | |].
  - inversion Hall; subst. rewrite split_chars_colon_last by done. done.
  - inversion Hall as [|? ? Hl Hrest]; subst.
    change (join_colon (l :: l2 :: pieces))
      with (l ++ ":"%char :: join_colon (l2 :: pieces)) in *.
    rewrite length_app in Hn. cbn [length] in Hn.
    rewrite split_chars_colon_piece; [| done | lia]. simpl rev. rewrite app_nil_l.
    rewrite IH; [done | done | done | lia].
Qed.

Lemma split_join_colon (pieces : list string) :
  pieces <> [] -> Forall (fun p => Forall (fun c => c <> ":"%char) (chars p)) pieces ->
  split ":" (join ":" pieces) = pieces.
Proof.
  intros Hne Hall. unfold split. rewrite chars_join_colon.
  change (chars ":") with [":"%char].
  rewrite split_chars_join_colon.
  - rewrite map_map. rewrite <- (map_id pieces) at 2. apply map_ext.
    intros l. apply string_of_list_ascii_of_string.
  - destruct pieces; done.
  - apply Forall_map. exact Hall.
  - done.
Qed.

(** X23.  The parser's split of a match at its colons keeps the first
    piece as the key and, when there are three pieces or more, drops the
    second one: the value is the third piece onwards, joined with colons
    again.  With two pieces the value is the second one. *)
Theorem key_and_value_drops_second_piece (key skipped : string) (rest : list string) :
  Forall (fun p => Forall (fun c => c <> ":"%char) (chars p)) (key :: skipped :: rest) ->
  key_and_value (join ":" (key :: skipped :: rest))
  = (key, Some (match rest with [] => skipped | _ :: _ => join ":" rest end)).
Proof.
  intros Hall. unfold key_and_value. rewrite split_join_colon by done.
  by destruct rest.
Qed.

End Colons.

(** The parser on a whole notification. *)

Section Notification.

Implicit Types (s rest : list ascii) (c : captures).

Lemma rmatch_RLit_chars {A} (l : list ascii) : forall s c (k : list ascii -> captures -> option A),
  rmatch (RLit_chars l) (l ++ s) c k = k s c.
Proof.
  induction l as [|a l IH]; intros s c k; simpl; [done |].
  unfold ascii_eqb. rewrite Ascii.eqb_refl. apply IH.
Qed.

Lemma rmatch_RLit {A} (str : string) s c (k : list ascii -> captures -> option A) :
  rmatch (RLit str) (chars str ++ s) c k = k s c.
Proof. apply rmatch_RLit_chars. Qed.

Lemma rmatch_RRepeat {A} p (l : list ascii) : forall s c (k : list ascii -> captures -> option A),
  Forall (fun a => p a = true) l ->
  rmatch (RRepeat (length l) p) (l ++ s) c k = k s c.
Proof.
  induction l as [|a l IH]; intros s c k Hl; simpl; [done |].
  apply Forall_cons in Hl as [Ha Hl]. rewrite Ha. by apply IH.
Qed.

(** Greedy [class+] in front of a character outside the class (or of the
    end of the text) takes the whole run. *)
Lemma plus_match_greedy {A} p (l : list ascii) s (k : list ascii -> option A) :
  l <> [] -> Forall (fun a => p a = true) l ->
  match s with [] => True | a :: _ => p a = false end ->
  is_Some (k s) ->
  plus_match p (l ++ s) k = k s.
Proof.
  intros Hne Hl Hs Hk. induction Hl as [|a l Ha Hl IH]; [done |].
  simpl. rewrite Ha. destruct l as [|b l].
  - simpl. assert (plus_match p s k = None) as ->; [| done].
    destruct s as [|x s]; simpl; [done |]. by rewrite Hs.
  - rewrite IH by done. destruct Hk as [x Hx]. by rewrite Hx.
Qed.

Lemma exec_here r s m :
  match_here r s = Some m -> exec r s = Some m.
Proof. intros H. destruct s; simpl; by rewrite H. Qed.

Lemma exec_skip r a s :
  match_here r (a :: s) = None -> exec r (a :: s) = exec r s.
Proof. intros H. simpl. by rewrite H. Qed.

Lemma match_here_address (A rest : list ascii) :
  length A = 8%nat -> Forall (fun a => dot a = true) A ->
  exists caps,
    match_here field_regex (chars "address:0x" ++ A ++ rest)
    = Some (chars "address:0x" ++ A, rest, caps).
Proof.
  intros Hlen HA. eexists. unfold match_here.
  change (chars "address:0x" ++ A ++ rest)
    with (chars "address:" ++ chars "0x" ++ A ++ rest).
  unfold field_regex. cbn [rmatch].
  rewrite rmatch_RLit. cbn [rmatch]. rewrite rmatch_RLit.
  change 8%nat with (length A) at 1 || rewrite <- Hlen.
  rewrite rmatch_RRepeat by done.
  rewrite !app_assoc, take_prefix_by_length. reflexivity.
Qed.


Lemma match_here_file (F rest : list ascii) :
  F <> [] -> Forall (fun a => dot a = true) F ->
  match rest with [] => True | a :: _ => dot a = false end ->
  exists caps,
    match_here field_regex (chars "file:" ++ F ++ rest)
    = Some (chars "file:" ++ F, rest, caps).
Proof.
  intros Hne HF Hrest. eexists. unfold match_here, field_regex. cbn [rmatch].
  assert (forall (k : list ascii -> captures -> option (list ascii * list ascii * captures)),
            rmatch (RLit "address:") (chars "file:" ++ F ++ rest) [] k = None) as ->
    by (intros k; reflexivity).
  rewrite rmatch_RLit. cbn [rmatch].
  rewrite plus_match_greedy by done.
  rewrite !app_assoc, take_prefix_by_length. reflexivity.
Qed.


Lemma exec_skip_CR s : exec field_regex (CR_char :: s) = exec field_regex s.
Proof. apply exec_skip. reflexivity. Qed.

Lemma exec_skip_marker s :
  exec field_regex (chars "Stop at" ++ s) = exec field_regex s.
Proof.
  change (chars "Stop at" ++ s)
    with ("S" :: "t" :: "o" :: "p" :: " " :: "a" :: "t" :: s)%char.
  do 7 (rewrite exec_skip by reflexivity). done.
Qed.


Lemma match_all_chars_step n r s m rest caps :
  exec r s = Some (m, rest, caps) -> m <> [] ->
  match_all_chars (S n) r s = m :: match_all_chars n r rest.
Proof. intros H Hm. simpl. rewrite H. by destruct m. Qed.

Lemma match_all_chars_skip_CR n s :
  match_all_chars n field_regex (CR_char :: s) = match_all_chars n field_regex s.
Proof. destruct n; [done |]. cbn [match_all_chars]. by rewrite exec_skip_CR. Qed.


Lemma replace_char_app (x : ascii) by_ (l1 l2 : list ascii) :
  replace_char x by_ (l1 ++ l2) = replace_char x by_ l1 ++ replace_char x by_ l2.
Proof. unfold replace_char. apply flat_map_app. Qed.

Lemma replace_char_none (x : ascii) by_ (l : list ascii) :
  Forall (fun a => a <> x) l -> replace_char x by_ l = l.
Proof.
  intros Hl. induction Hl as [|a l Ha Hl IH]; [done |].
  change (replace_char x by_ (a :: l))
    with ((if ascii_eqb a x then by_ else [a]) ++ replace_char x by_ l).
  rewrite IH. unfold ascii_eqb. by destruct (Ascii.eqb_spec a x).
Qed.

Lemma dot_not_LF a : dot a = true -> a <> LF_char.
Proof. intros H ->. vm_compute in H. discriminate. Qed.




End Notification.

Section NotificationEvent.

Variable normalizePath : string -> string.

Lemma split_text_colon (pieces : list (list ascii)) :
  pieces <> [] -> Forall (Forall (fun a => a <> ":"%char)) pieces ->
  split ":" (text (join_colon pieces)) = map text pieces.
Proof.
  intros Hne Hall. unfold split. rewrite list_ascii_of_string_of_list_ascii.
  change (chars ":") with [":"%char]. by rewrite split_chars_join_colon.
Qed.

Lemma key_and_value_field (key val : list ascii) :
  Forall (fun a => a <> ":"%char) key -> Forall (fun a => a <> ":"%char) val ->
  key_and_value (text (key ++ ":"%char :: val)) = (text key, Some (text val)).
Proof.
  intros Hk Hv. unfold key_and_value.
  change (key ++ ":"%char :: val) with (join_colon [key; val]).
  rewrite split_text_colon; [done | done |]. by repeat constructor.
Qed.




End NotificationEvent.



Section PartialNotification.

Variable normalizePath : string -> string.

Lemma match_all_chars_head n A F rest :
  length A = 8%nat -> Forall (fun a => dot a = true) A ->
  F <> [] -> Forall (fun a => dot a = true) F ->
  match_all_chars (S (S n)) field_regex
    (chars "Stop at" ++ CR_char :: chars "address:0x" ++ A
     ++ CR_char :: chars "file:" ++ F ++ CR_char :: rest)
  = (chars "address:0x" ++ A) :: (chars "file:" ++ F)
    :: match_all_chars n field_regex rest.
Proof.
  intros Hlen HA HF1 HF.
  destruct (match_here_address A (CR_char :: chars "file:" ++ F ++ CR_char :: rest) Hlen HA)
    as [c1 H1].
  destruct (match_here_file F (CR_char :: rest) HF1 HF eq_refl) as [c2 H2].
  rewrite (match_all_chars_step _ _ _ (chars "address:0x" ++ A)
             (CR_char :: chars "file:" ++ F ++ CR_char :: rest) c1).
  2: { rewrite exec_skip_marker, exec_skip_CR. by apply exec_here. }
  2: { done. }
  rewrite match_all_chars_skip_CR.
  rewrite (match_all_chars_step _ _ _ (chars "file:" ++ F) (CR_char :: rest) c2);
    [| by apply exec_here | done].
  by rewrite match_all_chars_skip_CR.
Qed.

Lemma match_all_head A F :
  length A = 8%nat -> Forall (fun a => dot a = true) A ->
  F <> [] -> Forall (fun a => dot a = true) F ->
  match_all field_regex
    (replace_char LF_char [] (stop_notification_head A F ++ stop_notification_head A F))
  = map text [chars "address:0x" ++ A; chars "file:" ++ F;
              chars "address:0x" ++ A; chars "file:" ++ F].
Proof.
  intros Hlen HA HF1 HF.
  assert (replace_char LF_char [] A = A) as HrA.
  { apply replace_char_none. eapply Forall_impl; [exact HA |]. apply dot_not_LF. }
  assert (replace_char LF_char [] F = F) as HrF.
  { apply replace_char_none. eapply Forall_impl; [exact HF |]. apply dot_not_LF. }
  assert (forall rest,
            replace_char LF_char [] (stop_notification_head A F ++ rest)
            = chars "Stop at" ++ CR_char :: chars "address:0x" ++ A
              ++ CR_char :: chars "file:" ++ F
              ++ CR_char :: replace_char LF_char [] rest) as Hclean.
  { intros rest. unfold stop_notification_head.
    rewrite !replace_char_app, HrA, HrF. rewrite <- !app_assoc. reflexivity. }
  unfold match_all. rewrite Hclean.
  rewrite <- (app_nil_r (stop_notification_head A F)) at 2. rewrite Hclean.
  match goal with |- context [match_all_chars (S (length (?p ++ ?a :: ?q)))] =>
    assert (exists n, length (p ++ a :: q) = (4 + n)%nat) as [n ->]
      by (exists (4 + length q)%nat; rewrite length_app; reflexivity)
  end.
  f_equal.
  change (S (4 + n)) with (S (S (S (S (S n))))).
  rewrite match_all_chars_head by done.
  rewrite match_all_chars_head by done.
  simpl replace_char. reflexivity.
Qed.

Lemma includes_marker_head (A F : list ascii) :
  includes "stop at" (toLowerCase (text (stop_notification_head A F))) = true.
Proof.
  unfold includes, toLowerCase. rewrite !list_ascii_of_string_of_list_ascii.
  unfold stop_notification_head. rewrite map_app. reflexivity.
Qed.

Lemma head_fields (a f : EventValue) :
  <["file"%string := f]> (<["address"%string := a]>
    (<["file"%string := f]> (<["address"%string := a]> (∅ : gmap string EventValue))))
  = <["file"%string := f]> (<["address"%string := a]> ∅).
Proof.
  apply map_eq. intros k.
  destruct (decide (k = "file"%string)) as [-> | Hf]; [by rewrite !lookup_insert_eq |].
  rewrite !(lookup_insert_ne _ "file"%string) by done.
  destruct (decide (k = "address"%string)) as [-> | Ha]; [by rewrite !lookup_insert_eq |].
  repeat (rewrite lookup_insert_ne by done). done.
Qed.

(** X28.  A chunk that holds the marker, the address and the file of a
    stop notification and not yet the source line makes the parser fire at
    once, whatever it had buffered: the marker chunk is in the buffer
    twice, which gives four matches of the field pattern.  The event has
    no line, so no breakpoint matches it and [stopOnException] is sent,
    and the buffer is reset: every later chunk without the marker (the one
    with the source line for one) is ignored. *)
Theorem parseStdOutMessage_fires_before_the_line (A F : list ascii) rt :
  length A = 8%nat ->
  Forall (fun a => dot a = true) A -> Forall (fun a => a <> ":"%char) A ->
  F <> [] ->
  Forall (fun a => dot a = true) F -> Forall (fun a => a <> ":"%char) F ->
  let event :=
    mkEventData
      (<["file"%string := EvString (text F)]>
         (<["address"%string := EvNumber (convertHexToNumber (text (chars "0x" ++ A)))]>
            ∅))
      (Some STOP_AT) in
  let rt' := sendEvent (stopOnException event)
               (with_stdout EmptyString false (Some STOP_AT) rt) in
  parseStdOutMessage normalizePath (text (stop_notification_head A F)) rt
  = (rt', Some event)
  /\ forall message,
       includes "stop at" (toLowerCase message) = false ->
       parseStdOutMessage normalizePath message rt' = (rt', None).
Proof.
  intros Hlen HA HAc HF1 HF HFc. cbv zeta. split.
  2: { intros message Hplain. unfold parseStdOutMessage. by rewrite Hplain. }
  unfold parseStdOutMessage. rewrite includes_marker_head. cbv zeta.
  cbn [_stdoutBuffering with_stdout _stdoutBuffer eventType].
  rewrite chars_app, list_ascii_of_string_of_list_ascii.
  rewrite match_all_head by done.
  cbn [length map Z.of_nat]. change (3 <=? _) with true. cbv iota.
  change (chars "address:0x" ++ A) with (chars "address" ++ ":"%char :: chars "0x" ++ A).
  change (chars "file:" ++ F) with (chars "file" ++ ":"%char :: F).
  rewrite !key_and_value_field;
    try done; try (by repeat constructor);
    try (constructor; [done |]; constructor; [done |]; done).
  cbn [fold_left].
  assert (forall coll v,
            collect_field coll (text (chars "address"), Some v)
            = <["address"%string := EvNumber (convertHexToNumber v)]> coll) as Haddr
    by (intros; reflexivity).
  assert (forall coll v,
            collect_field coll (text (chars "file"), Some v)
            = <["file"%string := EvString v]> coll) as Hfile
    by (intros; reflexivity).
  rewrite !Haddr, !Hfile, head_fields.
  f_equal. unfold fireEventsForData. cbn [data_eventType].
  assert (forall bps : list MDBBreakpoint,
            filter (fun bp =>
              line_is (mkEventData
                         (<["file"%string := EvString (text F)]>
                            (<["address"%string :=
                                 EvNumber (convertHexToNumber (text (chars "0x" ++ A)))]> ∅))
                         (Some STOP_AT)) bp = true) bps = []) as Hnone.
  { intros bps. induction bps as [|b bps IH]; [done |].
    rewrite filter_cons, IH. unfold line_is. cbn [fields].
    rewrite lookup_insert_ne, lookup_insert_ne, lookup_empty by done.
    by rewrite decide_False. }
  destruct (_breakPoints _ !! _) as [bps|]; [| done]. by rewrite Hnone.
Qed.

End PartialNotification.

Lemma parseStdOutMessage_fires_before_the_line_witness :
  let rt := snd (setBreakPoint (fun p => p) (fun p => p) "/src/main.c" 12 new_MDBRuntime) in
  let '(rt1, event) :=
    parseStdOutMessage (fun p => p)
      (text (stop_notification_head (chars "9D001234") (chars "/src/main.c"))) rt in
  (exists e, event = Some e /\ sentEvents rt1 = [stopOnException e]
             /\ fields e !! "line"%string = None)
  /\ parseStdOutMessage (fun p => p) ("source line:12" ++ CRLF) rt1 = (rt1, None).
Proof.
  cbv zeta.
  destruct (parseStdOutMessage_fires_before_the_line (fun p => p)
              (chars "9D001234") (chars "/src/main.c")
              (snd (setBreakPoint (fun p => p) (fun p => p) "/src/main.c" 12 new_MDBRuntime)))
    as [Hparse Hnext].
  - reflexivity.
  - repeat constructor.
  - repeat (constructor; [discriminate |]). constructor.
  - discriminate.
  - repeat constructor.
  - repeat (constructor; [discriminate |]). constructor.
  - rewrite Hparse. split.
    + eexists. split; [reflexivity |]. split; [vm_compute; reflexivity | reflexivity].
    + apply Hnext. vm_compute. reflexivity.
Defined.

(** * More about the session *)

Section SessionFacts.

Variable normalizePath : string -> string.
Variable basename : string -> string.
Variable convertClientLineToDebugger : Z -> Z.

Lemma setBreakPoints_one_file path (lines : list Z) : forall rt,
  let '(bps, rt') :=
    setBreakPoints normalizePath basename (map (fun l => (path, l)) lines) rt in
  map line bps = lines
  /\ map id bps = seqZ (_breakpointId rt) (Z.of_nat (length lines))
  /\ Forall (fun bp => verified bp = false) bps
  /\ _breakPoints rt'
     = (if decide (lines = []) then _breakPoints rt
        else <[normalizePath path :=
                 default [] (_breakPoints rt !! normalizePath path) ++ bps]>
               (_breakPoints rt))
  /\ _breakpointId rt' = _breakpointId rt + Z.of_nat (length lines).
Proof.
  induction lines as [|l lines IH]; intros rt.
  - simpl. repeat split; try done. lia.
  - simpl map. unfold setBreakPoints; fold (setBreakPoints normalizePath basename).
    destruct (setBreakPoint normalizePath basename path l rt) as [bp rt1] eqn:Hone.
    apply setBreakPoint_spec in Hone as (Hbp & Hnext & Hreg).
    specialize (IH rt1).
    destruct (setBreakPoints normalizePath basename (map (fun l => (path, l)) lines) rt1)
      as [bps rt2] eqn:Hrest.
    destruct IH as (Hlines & Hids & Hunv & Hreg2 & Hnext2).
    rewrite decide_False by done.
    split; [| split; [| split; [| split]]].
    + simpl. rewrite Hlines. by subst bp.
    + simpl length. rewrite (seqZ_cons (_breakpointId rt)) by lia.
      simpl. rewrite Hids, Hnext. subst bp. simpl. do 2 f_equal; lia.
    + constructor; [by subst bp | done].
    + rewrite Hreg2, Hreg. destruct (decide (lines = [])) as [-> | Hne].
      * simpl in Hlines. destruct bps; [done | done].
      * rewrite lookup_insert_eq, insert_insert_eq. simpl. by rewrite <- app_assoc.
    + simpl length. lia.
Qed.

Lemma clearBreakpoints_breakpointId path rt :
  _breakpointId (clearBreakpoints normalizePath path rt) = _breakpointId rt.
Proof.
  unfold clearBreakpoints.
  induction (default [] (_breakPoints rt !! normalizePath path)) as [|b bs IH]
    using rev_ind; [done |].
  rewrite fold_left_app. simpl. exact IH.
Qed.

Lemma setBreakPoints_queue_prefix (calls : list (string * Z)) : forall rt,
  exists extra,
    _commandQueue (snd (setBreakPoints normalizePath basename calls rt))
    = _commandQueue rt ++ extra.
Proof.
  induction calls as [|[f l] calls IH]; intros rt.
  - exists []. simpl. by rewrite app_nil_r.
  - unfold setBreakPoints; fold (setBreakPoints normalizePath basename).
    destruct (setBreakPoint normalizePath basename f l rt) as [bp rt1] eqn:Hone.
    assert (exists extra1, _commandQueue rt1 = _commandQueue rt ++ extra1) as [extra1 H1].
    { unfold setBreakPoint in Hone. cbv zeta in Hone. injection Hone as _ <-.
      rewrite verifyBreakpoints_queue. simpl. eauto. }
    destruct (IH rt1) as [extra2 H2].
    destruct (setBreakPoints normalizePath basename calls rt1) as [bps rt2].
    simpl in *. exists (extra1 ++ extra2). by rewrite H2, H1, app_assoc.
Qed.

(** X24.  [setBreakPointsRequest(path, lines)] answers with one new
    breakpoint per line, with fresh consecutive ids, and pushes a [Delete]
    command for each breakpoint the file had; these stay in the registry,
    so that the file's array afterwards is the old one followed by the new
    breakpoints. *)
Theorem setBreakPointsRequest_accumulates path (clientLines : list Z) rt :
  let old := default [] (_breakPoints rt !! normalizePath path) in
  let '(bps, rt') :=
    setBreakPointsRequest normalizePath basename convertClientLineToDebugger
      path clientLines rt in
  map line bps = map convertClientLineToDebugger clientLines
  /\ map id bps = seqZ (_breakpointId rt) (Z.of_nat (length clientLines))
  /\ default [] (_breakPoints rt' !! normalizePath path) = old ++ bps
  /\ take (length old) (drop (length (_commandQueue rt)) (_commandQueue rt'))
     = map (fun bp => mkJob ("Delete " ++ pretty (id bp)) ExpectPrompt ResolveCleared) old.
Proof.
  cbv zeta. unfold setBreakPointsRequest.
  destruct (clearBreakpoints_spec normalizePath path rt) as (Hq & Hreg & _).
  set (rt0 := clearBreakpoints normalizePath path rt) in *.
  pose proof (clearBreakpoints_breakpointId path rt) as Hnext. fold rt0 in Hnext.
  rewrite <- (map_map (fun l => convertClientLineToDebugger l) (fun l => (path, l))).
  pose proof (setBreakPoints_one_file path (map convertClientLineToDebugger clientLines) rt0)
    as Hset.
  destruct (setBreakPoints_queue_prefix
              (map (fun l => (path, l)) (map convertClientLineToDebugger clientLines)) rt0)
    as [extra Hextra].
  destruct (setBreakPoints normalizePath basename _ rt0) as [bps rt'].
  destruct Hset as (Hlines & Hids & _ & Hreg' & _). simpl in Hextra.
  rewrite length_map, Hnext in Hids. rewrite Hreg in Hreg'.
  split; [done |]. split; [done |]. split.
  - rewrite Hreg'. destruct (decide (_ = [])) as [Hnil | Hne].
    + rewrite Hnil in Hlines. destruct bps; [| done]. by rewrite app_nil_r.
    + by rewrite lookup_insert_eq.
  - rewrite Hextra, Hq, <- app_assoc, drop_app_length.
    rewrite take_app_length'; [done |]. by rewrite length_map.
Qed.

End SessionFacts.

Section SymbolFacts.



End SymbolFacts.

Lemma err_chunk_rejects_and_keeps_listeners_witness :
  let out := snd (waitForStdOut (PString ">") 30000 new_Stdout) in
  listeners (emit_data "Programming error" out) = [0%nat]
  /\ (fun w => (settled w, intervalId w)) <$> waits (emit_data "Programming error" out) !! 0%nat
     = Some (Some (RejectedWithError "Programming error"), true).
Proof.
  cbv zeta.
  destruct (err_chunk_rejects_and_keeps_listeners "Programming error"
              (snd (waitForStdOut (PString ">") 30000 new_Stdout))
              ltac:(vm_compute; reflexivity)) as [Hl Hw].
  split; [exact Hl |].
  destruct (Hw 0%nat (mkWait (PString ">") 30000 true None)
              ltac:(vm_compute; apply list_elem_of_here) eq_refl)
    as (wait' & -> & Hs & Hi & _).
  simpl. rewrite Hs, Hi. reflexivity.
Defined.

Lemma matching_chunk_resolves_and_detaches_witness :
  let out := snd (waitForStdOut (PString "Running") 30000 new_Stdout) in
  (0%nat ∉ listeners (emit_data "Running" out))
  /\ 0%nat ∈ listeners (emit_data "Halted" out).
Proof.
  cbv zeta.
  assert (isMatching (PString "Running") "Running" = true) as Hyes
    by (vm_compute; reflexivity).
  assert (isMatching (PString "Running") "Halted" = false) as Hno
    by (vm_compute; reflexivity).
  split.
  - pose proof (matching_chunk_resolves_and_detaches "Running"
                  (snd (waitForStdOut (PString "Running") 30000 new_Stdout)) 0%nat
                  (mkWait (PString "Running") 30000 true None)
                  ltac:(vm_compute; reflexivity)
                  ltac:(vm_compute; apply list_elem_of_here) eq_refl) as H.
    cbv zeta in H. simpl patternOrString in H. rewrite Hyes in H. exact (proj1 H).
  - pose proof (matching_chunk_resolves_and_detaches "Halted"
                  (snd (waitForStdOut (PString "Running") 30000 new_Stdout)) 0%nat
                  (mkWait (PString "Running") 30000 true None)
                  ltac:(vm_compute; reflexivity)
                  ltac:(vm_compute; apply list_elem_of_here) eq_refl) as H.
    cbv zeta in H. simpl patternOrString in H. rewrite Hno in H. exact (proj1 H).
Defined.

Lemma stop_event_validates_once_witness :
  let data :=
    mkEventData (<["file"%string := EvString "main.c"]>
                   (<["line"%string := EvNumber (Some 10)]> ∅))
      (Some STOP_AT) in
  let rt := snd (setBreakPoint (fun p => p) (fun p => p) "main.c" 10 new_MDBRuntime) in
  let rt1 := fireEventsForData (fun p => p) data rt in
  let rt2 := fireEventsForData (fun p => p) data rt1 in
  sentEvents rt1 = [stopOnBreakpoint; breakpointValidated (mkBreakpoint 1 10 true)]
  /\ sentEvents rt2 = sentEvents rt1 ++ [stopOnBreakpoint].
Proof.
  cbv zeta.
  destruct (stop_event_validates_once (fun p => p)
              (mkEventData (<["file"%string := EvString "main.c"]>
                              (<["line"%string := EvNumber (Some 10)]> ∅))
                 (Some STOP_AT))
              (snd (setBreakPoint (fun p => p) (fun p => p) "main.c" 10 new_MDBRuntime))
              eq_refl) as [H1 H2].
  split.
  - rewrite H1. vm_compute. reflexivity.
  - rewrite H2. f_equal.
Defined.

Lemma key_and_value_drops_second_piece_witness :
  key_and_value "file:C:/src/main.c" = ("file"%string, Some "/src/main.c"%string).
Proof.
  apply (key_and_value_drops_second_piece "file" "C" ["/src/main.c"%string]).
  repeat (constructor; [simpl; repeat constructor; discriminate |]). constructor.
Defined.


Section StartFacts.

Variable normalizePath : string -> string.
Variable basename : string -> string.

Lemma verifyBreakpoints_started filePath rt :
  queueStarted (verifyBreakpoints normalizePath basename filePath rt) = queueStarted rt.
Proof.
  unfold verifyBreakpoints.
  destruct (_breakPoints rt !! normalizePath filePath) as [bps|]; [| done].
  induction bps as [|bp bps IH] using rev_ind; [done |].
  rewrite fold_left_app. simpl. destruct (verified bp); [done |]. apply IH.
Qed.



End StartFacts.

